(** * pokemon_auto_lottery: a shallow embedding of [bot.py]

    The orchestration code of [bot.py] (CAPTCHA solving, popup recovery,
    login and the lottery batch loop) is embedded as monadic Rocq
    functions.  The browser session, the HTTP client and the mailbox are
    external collaborators: every call to them is an _operation_
    answered by a [World].  The monad threads the world, propagates Python
    exceptions and records the trace of operations performed, so that
    statements about "how many reloads" or "how many polls" can be made.

    Conventions
    - Python [str] values are UTF-8 byte strings ([string]).
    - [log(...)] and [time.sleep(...)] have no effect on control flow and
      are not modelled.
    - [StopIteration] is a subclass of [Exception] in Python, so a handler
      [except Exception] (and a bare [except:]) catches it unless an
      earlier [except StopIteration] clause of the same [try] does. *)

From Stdlib Require Import PrimFloat.
From Stdlib Require Import Ascii String.
From stdpp Require Import gmap strings list pretty sorting.

Set Warnings "-inexact-float".
Open Scope string_scope.
Open Scope list_scope.
Open Scope Z_scope.

(** ** Strings *)

Module Str.

(** [needle in hay] for Python strings. *)
Fixpoint contains (needle hay : string) : bool :=
  match hay with
  | EmptyString => String.prefix needle EmptyString
  | String _ rest => String.prefix needle hay || contains needle rest
  end.

(** A UTF-8 continuation byte is [10xxxxxx]. *)
Definition is_continuation (c : ascii) : bool :=
  let n := nat_of_ascii c in (128 <=? n)%nat && (n <? 192)%nat.

(** [s[:n]]: the first [n] code points. *)
Fixpoint slice_to (n : nat) (s : string) : string :=
  match s with
  | EmptyString => EmptyString
  | String c rest =>
      if is_continuation c then String c (slice_to n rest)
      else match n with
           | O => EmptyString
           | S n' => String c (slice_to n' rest)
           end
  end.

(** [len(s)]: the number of code points. *)
Fixpoint len (s : string) : nat :=
  match s with
  | EmptyString => O
  | String c rest => if is_continuation c then len rest else S (len rest)
  end.

(** [s.lower()], restricted to the ASCII letters. *)
Definition lower_ascii (c : ascii) : ascii :=
  let n := nat_of_ascii c in
  if (65 <=? n)%nat && (n <=? 90)%nat then ascii_of_nat (n + 32) else c.

Fixpoint lower (s : string) : string :=
  match s with
  | EmptyString => EmptyString
  | String c rest => String (lower_ascii c) (lower rest)
  end.

(** [sep.join(parts)]. *)
Fixpoint join (sep : string) (parts : list string) : string :=
  match parts with
  | [] => ""
  | [p] => p
  | p :: rest => p +:+ sep +:+ join sep rest
  end.

(** Truthiness of an optional string: [None] and [''] are falsy. *)
Definition truthy (o : option string) : bool :=
  match o with
  | Some s => negb (String.eqb s "")
  | None => false
  end.

End Str.


(** The double quote character, for XPath literals. *)
Definition dq : string := String "034"%char EmptyString.

(** ** Python exceptions *)

Inductive exn_class : Type :=
| StopIteration      (* raised by [check_stop] *)
| RequestException   (* [requests.exceptions.RequestException] *)
| OtherException.    (* any other subclass of [Exception] *)

(** An exception value: its class and [str(e)]. *)
Record exn : Type := Exn { exn_cls : exn_class; exn_str : string }.

Definition is_stop (e : exn) : bool :=
  match exn_cls e with StopIteration => true | _ => false end.

Definition is_request_exception (e : exn) : bool :=
  match exn_cls e with RequestException => true | _ => false end.

(** [raise Exception(msg)] *)
Definition Exception (msg : string) : exn := Exn OtherException msg.

(** ** The CAPTCHA provider's HTTP contract *)

Record task : Type := Task {
  task_type : string;
  websiteURL : string;
  websiteKey : string;
  minScore : float;
  isEnterprise : bool;
  apiDomain : string;
  pageAction : option string
}.

Record create_task_payload : Type :=
  CreateTaskPayload { ct_clientKey : string; ct_task : task }.

Record get_result_payload : Type :=
  GetResultPayload { gr_clientKey : string; gr_taskId : Z }.

(** The parsed body of a [createTask] response.  A key that is absent is
    [None]; [cr_repr] is [str(response_data)]. *)
Record create_task_data : Type := CreateTaskData {
  cr_errorId : option Z;
  cr_errorCode : option string;
  cr_errorDescription : option string;
  cr_taskId : option Z;
  cr_repr : string
}.

Record solution_data : Type := SolutionData {
  gRecaptchaResponse : option string;
  token : option string
}.

(** The parsed body of a [getTaskResult] response. *)
Record task_result_data : Type := TaskResultData {
  tr_status : option string;
  tr_errorId : option Z;
  tr_errorCode : option string;
  tr_errorDescription : option string;
  tr_solution : option solution_data;
  tr_repr : string
}.

(** An HTTP response whose status was accepted by [raise_for_status]:
    its text and its body parsed by [response.json()], [None] when the
    parser raises [json.JSONDecodeError]. *)
Record response (D : Type) : Type := Response {
  resp_text : string;
  resp_json : option D
}.
Arguments Response {D} _ _.
Arguments resp_text {D} _.
Arguments resp_json {D} _.

(** ** Operations on the external collaborators *)

(** What [_attempt_login_with_captcha] returns: [(success, needs_retry)]. *)
Definition login_attempt_result : Type := bool * bool.

(** What [_process_lottery_entry] returns: [True], [False] or the string
    ['reload_needed']. *)
Inductive entry_result : Type :=
| EntryTrue
| EntryFalse
| EntryReloadNeeded.

Inductive op : Type -> Type :=
(* the caller's stop predicate [_stop_check()]; [false] means stop now *)
| StopCheck : op bool
(* requests.post(create_task_url, ...) followed by raise_for_status() *)
| PostCreateTask (p : create_task_payload) : op (response create_task_data)
(* requests.post(get_result_url, ...) followed by raise_for_status() *)
| PostGetTaskResult (p : get_result_payload) : op (response task_result_data)
(* extract_recaptcha_action(driver) *)
| ExtractRecaptchaAction : op (option string)
(* len(driver.find_elements(By.ID, id)) *)
| FindElementsById (id : string) : op nat
(* els = driver.find_elements(By.ID, id); els and els[0].is_displayed() *)
| PopupDisplayed (id : string) : op bool
(* driver.find_element(By.XPATH, xpath).text.strip() *)
| ElementText (xpath : string) : op string
(* driver.refresh() *)
| Refresh : op unit
(* driver.get(url) *)
| Get (url : string) : op unit
(* driver.execute_script(script) *)
| ExecuteScript (script : string) : op unit
(* driver.current_url *)
| CurrentUrl : op string
(* driver.page_source *)
| PageSource : op string
(* wait.until(EC.element_to_be_clickable((By.XPATH, xpath))) and a click on it *)
| ClickWhenClickable (xpath : string) : op unit
(* the first displayed and enabled element of an XPath union is clicked;
   answers whether one was *)
| ClickFirstEnabled (xpath : string) : op bool
(* _attempt_login_with_captcha(driver, wait) *)
| AttemptLoginWithCaptcha : op login_attempt_result
(* get_otp_from_gmail() *)
| GetOtpFromGmail : op string
(* the OTP field is located, scrolled to and typed into *)
| EnterOtp (otp : string) : op unit
(* the OTP submit button is waited for and clicked *)
| SubmitOtp : op unit
(* check_login_status_message(driver, wait): (status_message, is_failure) *)
| CheckLoginStatusMessage : op (option string * bool)
(* _check_lottery_status(driver, wait, lottery_number): (status_text, exists) *)
| CheckLotteryStatus (lottery_number : Z) : op (option string * bool)
(* _check_and_solve_captcha_on_apply_page(driver, wait) *)
| CheckAndSolveCaptchaOnApplyPage : op bool
(* _process_lottery_entry(driver, wait, lottery_number) *)
| ProcessLotteryEntry (lottery_number : Z) : op entry_result.

(** An operation together with the world's answer to it. *)
Inductive event : Type :=
| Ev {A : Type} (o : op A) (r : exn + A).

(** The external world: it answers every operation, with a value or by
    raising, and moves to a new state. *)
Class World (W : Type) : Type :=
  handle : forall A : Type, op A -> W -> (exn + A) * W.
Arguments handle {W _ A} _ _.

(** ** The monad of the embedding

    A program runs with the mutable local variables [L] of the Python
    function it belongs to and with the world.  It ends with a value or
    with an exception; either way the locals and the world are as the
    program left them (an assignment made inside a [try] block is seen by
    the handler), and the operations performed are recorded in order. *)

Definition PyM (W L A : Type) : Type :=
  L -> W -> (exn + A) * L * W * list event.

Section Monad.
Context {W : Type} `{!World W} {L : Type}.

Definition ret {A} (a : A) : PyM W L A := fun l w => (inr a, l, w, []).

Definition raise {A} (e : exn) : PyM W L A := fun l w => (inl e, l, w, []).

Definition bind {A B} (m : PyM W L A) (k : A -> PyM W L B) : PyM W L B :=
  fun l w =>
    match m l w with
    | (inl e, l1, w1, t1) => (inl e, l1, w1, t1)
    | (inr a, l1, w1, t1) =>
        match k a l1 w1 with
        | (r, l2, w2, t2) => (r, l2, w2, t1 ++ t2)
        end
    end.

(** [try: m  except Exception as e: h e] (also a bare [except:]). *)
Definition try_except {A} (m : PyM W L A) (h : exn -> PyM W L A) : PyM W L A :=
  fun l w =>
    match m l w with
    | (inl e, l1, w1, t1) =>
        match h e l1 w1 with
        | (r, l2, w2, t2) => (r, l2, w2, t1 ++ t2)
        end
    | (inr a, l1, w1, t1) => (inr a, l1, w1, t1)
    end.

(** One call to an external collaborator. *)
Definition perform {A} (o : op A) : PyM W L A :=
  fun l w =>
    match handle o w with
    | (r, w1) => (r, l, w1, [Ev o r])
    end.

(** Reading and assigning the local variables. *)
Definition get_locals : PyM W L L := fun l w => (inr l, l, w, []).

Definition modify (f : L -> L) : PyM W L unit := fun l w => (inr tt, f l, w, []).

(** A call of a Python function whose own locals start as [l0]: they are
    gone when it returns or raises, and the caller's are untouched. *)
Definition call_with {L0 A} (l0 : L0) (m : PyM W L0 A) : PyM W L A :=
  fun l w =>
    match m l0 w with
    | (r, _, w1, t1) => (r, l, w1, t1)
    end.

End Monad.

(** A call of a function that keeps no mutable locals of its own. *)
Abbreviation call m := (call_with tt m).

Declare Scope py_scope.
Delimit Scope py_scope with py.
Notation "x <- m ;; k" := (bind m (fun x => k))
  (at level 100, m at next level, right associativity) : py_scope.
Notation "m ;; k" := (bind m (fun _ => k))
  (at level 100, right associativity) : py_scope.
Open Scope py_scope.

(** ** Module-level constants of [bot.py] *)

Definition LOGIN_URL : string := "https://www.pokemoncenter-online.com/lottery/login.html".
Definition APPLY_URL : string := "https://www.pokemoncenter-online.com/lottery/apply.html".
Definition CAPTCHA_BASE_URL : string := "http://www.pokemoncenter-online.com".

(** How the body of one iteration of a Python loop ends. *)
Inductive loop_ctl (R : Type) : Type :=
| Continue           (* falls through or [continue]: next iteration *)
| Break              (* [break] *)
| Return (r : R).    (* [return r] from the enclosing function *)
Arguments Continue {R}.
Arguments Break {R}.
Arguments Return {R} _.

Section Bot.
Context {W : Type} `{!World W}.

(** [CAPTCHA_API_KEY = os.getenv(...)] and the global [EMAIL]. *)
Context (CAPTCHA_API_KEY : option string) (EMAIL : string).

(** The programs of functions without mutable locals of their own. *)
Local Abbreviation M := (PyM W unit).

(** [check_stop()] *)
Definition check_stop : M unit :=
  go_on <- perform StopCheck ;;
  if go_on then ret tt else raise (Exn StopIteration "Bot stopped by user").

(** [for _ in range(n): check_stop(); time.sleep(...)] *)
Fixpoint wait_checking (n : nat) : M unit :=
  match n with
  | O => ret tt
  | S n' => check_stop ;; wait_checking n'
  end.

(** [try: m  except requests.exceptions.RequestException as e: ...]:
    the caught exception is handed back as [inl e]. *)
Definition try_request {A} (m : M A) : M (exn + A) :=
  try_except (a <- m ;; ret (inr a))
             (fun e => if is_request_exception e then ret (inl e) else raise e).

(** *** [solve_recaptcha] *)

Definition create_task_url : string := "https://api.2captcha.com/createTask".
Definition get_result_url : string := "https://api.2captcha.com/getTaskResult".

(** [min_score not in [0.3, 0.7, 0.9]] *)
Definition min_score_allowed (min_score : float) : bool :=
  existsb (PrimFloat.eqb min_score) [0.3%float; 0.7%float; 0.9%float].

Section Attempt.
Variables (site_key url : string) (max_retries : nat) (min_score : float)
          (page_action : option string) (api_key : string).
Variable attempt : nat.

(** The body of one iteration of [for i in range(60)]. *)
Definition poll_body (task_id : Z) : M (loop_ctl string) :=
  check_stop ;;
  check_stop ;;
  result_response <- try_request (perform (PostGetTaskResult (GetResultPayload api_key task_id))) ;;
  match result_response with
  | inl _ => ret Continue
  | inr result_response =>
    match resp_json result_response with
    | None => ret Continue
    | Some result_data =>
      let status := tr_status result_data in
      let error_id := default 0 (tr_errorId result_data) in
      if bool_decide (status = Some "processing") then ret Continue
      else if bool_decide (status = Some "ready") then
        let solution :=
          match tr_solution result_data with
          | None => None
          | Some solution_data =>
              if Str.truthy (gRecaptchaResponse solution_data)
              then gRecaptchaResponse solution_data
              else token solution_data
          end in
        match solution with
        | Some s =>
            if Str.truthy solution then ret (Return s)
            else raise (Exception ("No solution token in response: " +:+ tr_repr result_data))
        | None => raise (Exception ("No solution token in response: " +:+ tr_repr result_data))
        end
      else if negb (error_id =? 0) then
        let error_code := tr_errorCode result_data in
        let error_description := default "Unknown error" (tr_errorDescription result_data) in
        if bool_decide (error_code = Some "ERROR_CAPTCHA_UNSOLVABLE") then
          if (attempt <? max_retries)%nat then wait_checking 3 ;; ret Break
          else raise (Exception ("2captcha error: " +:+ error_description))
        else
          if (attempt <? max_retries)%nat then wait_checking 3 ;; ret Break
          else raise (Exception ("2captcha error: " +:+ error_description))
      else ret Continue
    end
  end.

(** [for i in range(60): ... else: ...]; [None] is "go to the next
    attempt", [Some s] is [return s]. *)
Fixpoint poll_loop (remaining : nat) (task_id : Z) : M (option string) :=
  match remaining with
  | O =>
      if (attempt <? max_retries)%nat then wait_checking 3 ;; ret None
      else raise (Exception "CAPTCHA timeout after all retries")
  | S remaining' =>
      c <- poll_body task_id ;;
      match c with
      | Continue => poll_loop remaining' task_id
      | Break => ret None
      | Return s => ret (Some s)
      end
  end.

(** The [try] block of one attempt. *)
Definition attempt_try_block : M (option string) :=
  check_stop ;;
  let task := Task "RecaptchaV3TaskProxyless" url site_key min_score true
                   "www.google.com"
                   (if Str.truthy page_action then page_action else None) in
  let payload := CreateTaskPayload api_key task in
  submitted <- try_request (perform (PostCreateTask payload)) ;;
  match submitted with
  | inl e =>
      if (attempt <? max_retries)%nat then wait_checking 3 ;; ret None
      else raise (Exception ("Network error: " +:+ exn_str e))
  | inr response =>
    match resp_json response with
    | None => raise (Exception ("Invalid JSON response: " +:+ Str.slice_to 200 (resp_text response)))
    | Some response_data =>
      let error_id := default 0 (cr_errorId response_data) in
      if negb (error_id =? 0) then
        let error_code := default "UNKNOWN" (cr_errorCode response_data) in
        let error_msg :=
          default (default "Unknown error" (cr_errorCode response_data))
                  (cr_errorDescription response_data) in
        if (attempt <? max_retries)%nat then wait_checking 3 ;; ret None
        else raise (Exception ("2captcha error (" +:+ error_code +:+ "): " +:+ error_msg))
      else
        match cr_taskId response_data with
        | None => raise (Exception ("No taskId in response: " +:+ cr_repr response_data))
        | Some task_id =>
            if task_id =? 0
            then raise (Exception ("No taskId in response: " +:+ cr_repr response_data))
            else poll_loop 60 task_id
        end
    end
  end.

(** One iteration of [for attempt in range(1, max_retries + 1)], with
    its [except StopIteration] and [except Exception] clauses. *)
Definition attempt_body : M (option string) :=
  try_except attempt_try_block
    (fun e =>
       if is_stop e then raise e
       else if (attempt <? max_retries)%nat
               && (Str.contains "2captcha error" (exn_str e)
                   || Str.contains "timeout" (Str.lower (exn_str e)))
            then wait_checking 3 ;; ret None
            else raise e).

End Attempt.

Fixpoint solve_attempts (site_key url : string) (max_retries : nat) (min_score : float)
         (page_action : option string) (api_key : string)
         (remaining attempt : nat) : M string :=
  match remaining with
  | O => raise (Exception "CAPTCHA solving failed after all retries")
  | S remaining' =>
      r <- attempt_body site_key url max_retries min_score page_action api_key attempt ;;
      match r with
      | Some solution => ret solution
      | None => solve_attempts site_key url max_retries min_score page_action api_key
                               remaining' (S attempt)
      end
  end.

(** [solve_recaptcha(site_key, url, driver, max_retries, min_score, page_action)];
    [driver] says whether a driver was passed. *)
Definition solve_recaptcha (site_key url : string) (driver : bool) (max_retries : nat)
           (min_score : float) (page_action : option string) : M string :=
  if negb (Str.truthy CAPTCHA_API_KEY)
  then raise (Exception "CAPTCHA_API_KEY is not set. Please set it in your .env file.")
  else
    if String.eqb site_key "" || (Str.len site_key <? 20)%nat
    then raise (Exception ("Invalid site key: " +:+ site_key))
    else
      page_action <-
        (if driver && negb (Str.truthy page_action)
         then perform ExtractRecaptchaAction
         else ret page_action) ;;
      let min_score := if negb (min_score_allowed min_score) then 0.9%float else min_score in
      solve_attempts site_key url max_retries min_score page_action
                     (default "" CAPTCHA_API_KEY) max_retries 1.

(** *** [_check_and_handle_pop_exceptions] *)

Definition EXCEPTION_MESSAGE : string := "意図しない例外が発生しました。".
Definition TIMEOUT_MESSAGE : string :=
  "一定時間操作していなかったため、OKボタンタップして再度開けてください。".

(** ['//*[@id="pop04"]/div/div[1]/p'] and the like. *)
Definition pop_message_xpath (id : string) : string :=
  "//*[@id=" +:+ dq +:+ id +:+ dq +:+ "]/div/div[1]/p".

(** ['//*[@id="pop04"]/div/div[1]/ul/li/a'] and the like. *)
Definition pop_link_xpath (id : string) : string :=
  "//*[@id=" +:+ dq +:+ id +:+ dq +:+ "]/div/div[1]/ul/li/a".

(** [try: <wait for the close link and click it>  except: pass] *)
Definition try_close (id : string) : M unit :=
  try_except (perform (ClickWhenClickable (pop_link_xpath id))) (fun _ => ret tt).

(** The cascade of reload mechanisms of one reload attempt; answers
    [reload_success]. *)
Definition reload_page : M bool :=
  try_except
    (perform Refresh ;; check_stop ;; wait_checking 5 ;; ret true)
    (fun _ =>
       try_except
         (current_url <- perform CurrentUrl ;;
          perform (Get (if String.eqb current_url "" then APPLY_URL else current_url)) ;;
          check_stop ;; wait_checking 5 ;; ret true)
         (fun _ =>
            try_except
              (perform (ExecuteScript "window.location.reload(true);") ;;
               check_stop ;; wait_checking 5 ;; ret true)
              (fun _ => ret false))).

(** The re-check of the overlay after a successful reload. *)
Definition recheck_after_reload (id message : string)
           (max_reload_attempts reload_attempt : nat) : M (loop_ctl bool) :=
  try_except
    (displayed <- perform (PopupDisplayed id) ;;
     if displayed then
       try_except
         (text <- perform (ElementText (pop_message_xpath id)) ;;
          if Str.contains message text then
            if (reload_attempt <? max_reload_attempts)%nat then ret Continue
            else try_close id ;; ret (Return true)
          else try_close id ;; ret (Return true))
         (fun _ => try_close id ;; ret (Return true))
     else ret (Return true))
    (fun _ => ret (Return true)).

(** [reload_attempt = 0; while reload_attempt < max_reload_attempts: ...].
    The counter changes only by the increment that opens the body, so the
    loop is a recursion on [max_reload_attempts - reload_attempt].
    [Some b] is [return b]; [None] is the loop running out. *)
Fixpoint reload_loop (id message : string) (max_reload_attempts : nat)
         (remaining reload_attempt : nat) : M (option bool) :=
  match remaining with
  | O => ret None
  | S remaining' =>
      check_stop ;;
      let reload_attempt := S reload_attempt in
      _ <- perform CurrentUrl ;;
      reload_success <- reload_page ;;
      if reload_success then
        check_stop ;;
        c <- recheck_after_reload id message max_reload_attempts reload_attempt ;;
        match c with
        | Continue => reload_loop id message max_reload_attempts remaining' reload_attempt
        | Break => ret None
        | Return b => ret (Some b)
        end
      else if (reload_attempt <? max_reload_attempts)%nat
           then reload_loop id message max_reload_attempts remaining' reload_attempt
           else try_close id ;; ret (Some false)
  end.

(** The treatment of one displayed overlay: its message is read and
    classified. *)
Definition handle_overlay (id message : string) (max_reload_attempts : nat)
  : M (option bool) :=
  try_except
    (text <- perform (ElementText (pop_message_xpath id)) ;;
     if Str.contains message text
     then reload_loop id message max_reload_attempts max_reload_attempts 0
     else try_close id ;; ret (Some false))
    (fun _ => try_close id ;; ret (Some false)).

(** The second half of the handler: "Then check pop04".  Reaching the end
    of the function returns [None], which callers test for truth: it is
    [false] here. *)
Definition check_pop04 (max_reload_attempts : nat) : M bool :=
  _ <- perform (FindElementsById "pop04") ;;
  check_stop ;;
  pop04 <- perform (PopupDisplayed "pop04") ;;
  if pop04 then
    r4 <- handle_overlay "pop04" EXCEPTION_MESSAGE max_reload_attempts ;;
    ret (default false r4)
  else ret false.

(** [_check_and_handle_pop_exceptions(driver, wait, max_reload_attempts)] *)
Definition _check_and_handle_pop_exceptions (max_reload_attempts : nat) : M bool :=
  try_except
    (pop05 <- perform (PopupDisplayed "pop05") ;;
     r5 <- (if pop05 then handle_overlay "pop05" TIMEOUT_MESSAGE max_reload_attempts
            else ret None) ;;
     match r5 with
     | Some b => ret b
     | None => check_pop04 max_reload_attempts
     end)
    (fun _ => ret false).

(** *** [_process_all_lotteries] *)

(** One entry of [lottery_results]: [{'lottery', 'status', 'reason'}]. *)
Record LotteryResult : Type := LotteryResult_ {
  lottery : Z;
  status : string;
  reason : string
}.

(** The dictionary returned to the caller. *)
Record SessionOutcome : Type := SessionOutcome_ {
  results : list LotteryResult;
  outcome_final_status : string;
  message : string
}.

Definition SUCCESS : string := "成功".
Definition FAILURE : string := "失敗".
Definition SKIPPED_CLOSED : string := "スキップ(終了)".
Definition SKIPPED_COMPLETED : string := "スキップ(完了)".
Definition NOT_EXIST : string := "存在しない".
Definition INTERRUPTED : string := "中断".
Definition UNKNOWN : string := "不明".

Definition LABEL_CLOSED : string := "受付終了".
Definition LABEL_COMPLETED : string := "受付完了".
Definition LABEL_OPEN : string := "受付中".

(** [f'抽選{n}'] *)
Definition lottery_name (n : Z) : string := "抽選" +:+ pretty n.

(** [sorted(set(xs))] *)
Definition sorted_set (xs : list Z) : list Z :=
  merge_sort Z.le (elements (list_to_set xs : gset Z)).

(** **** The final-status rules *)

Record status_flags : Type := StatusFlags {
  has_failure : bool;
  has_skipped_closed : bool;
  has_skipped_completed : bool;
  has_success : bool;
  has_not_exist : bool;
  has_interrupted : bool;
  detail_parts : list string
}.

Definition no_flags : status_flags :=
  StatusFlags false false false false false false [].

(** The body of [for result in lottery_results] that sets the flags. *)
Definition scan_result (f : status_flags) (result : LotteryResult) : status_flags :=
  let st := status result in
  let lottery_num := lottery result in
  let part suffix := detail_parts f ++ [lottery_name lottery_num +:+ suffix] in
  if String.eqb st SUCCESS then
    StatusFlags (has_failure f) (has_skipped_closed f) (has_skipped_completed f) true
                (has_not_exist f) (has_interrupted f) (part "成功")
  else if String.eqb st FAILURE then
    StatusFlags true (has_skipped_closed f) (has_skipped_completed f) (has_success f)
                (has_not_exist f) (has_interrupted f) (part "失敗")
  else if String.eqb st SKIPPED_CLOSED then
    StatusFlags (has_failure f) true (has_skipped_completed f) (has_success f)
                (has_not_exist f) (has_interrupted f) (part "受付終了")
  else if String.eqb st SKIPPED_COMPLETED then
    StatusFlags (has_failure f) (has_skipped_closed f) true (has_success f)
                (has_not_exist f) (has_interrupted f) (part "受付完了")
  else if String.eqb st NOT_EXIST then
    StatusFlags (has_failure f) (has_skipped_closed f) (has_skipped_completed f) (has_success f)
                true (has_interrupted f) (part "存在しない")
  else if String.eqb st INTERRUPTED then
    StatusFlags (has_failure f) (has_skipped_closed f) (has_skipped_completed f) (has_success f)
                (has_not_exist f) true (part "中断")
  else if String.eqb st UNKNOWN then
    StatusFlags (has_failure f) (has_skipped_closed f) (has_skipped_completed f) (has_success f)
                (has_not_exist f) (has_interrupted f) (part "不明")
  else f.

Definition scan_results (lottery_results : list LotteryResult) : status_flags :=
  fold_left scan_result lottery_results no_flags.

(** [for result in lottery_results: if status not in ['成功', 'スキップ(完了)']: ...; break] *)
Fixpoint all_success_or_completed (lottery_results : list LotteryResult) : bool :=
  match lottery_results with
  | [] => true
  | result :: rest =>
      if negb (String.eqb (status result) SUCCESS || String.eqb (status result) SKIPPED_COMPLETED)
      then false
      else all_success_or_completed rest
  end.

(** The verdict block: the new [final_status], the new [final_message]
    and whether the retry loop is left at once. *)
Definition determine_final_status (lottery_results : list LotteryResult)
  : string * string * bool :=
  let f := scan_results lottery_results in
  if has_interrupted f then
    (INTERRUPTED, "中断: " +:+ Str.join "、" (detail_parts f), false)
  else if has_failure f || has_skipped_closed f || has_not_exist f then
    (FAILURE, "失敗: " +:+ Str.join "、" (detail_parts f), false)
  else if all_success_or_completed lottery_results then
    (SUCCESS, "成功", false)
  else
    (FAILURE, "失敗: " +:+ Str.join "、" (detail_parts f), true).

(** **** The mutable locals of the function *)

Record locals : Type := Locals {
  completed_lotteries : gset Z;
  lottery_results : list LotteryResult;
  retry_attempt : nat;
  final_status : string;
  final_message : string;
  reload_occurred : bool;
  checked_count : nat
}.

Definition set_completed (f : gset Z -> gset Z) (l : locals) : locals :=
  Locals (f (completed_lotteries l)) (lottery_results l) (retry_attempt l)
         (final_status l) (final_message l) (reload_occurred l) (checked_count l).

Definition set_results (f : list LotteryResult -> list LotteryResult) (l : locals) : locals :=
  Locals (completed_lotteries l) (f (lottery_results l)) (retry_attempt l)
         (final_status l) (final_message l) (reload_occurred l) (checked_count l).

Definition set_retry_attempt (f : nat -> nat) (l : locals) : locals :=
  Locals (completed_lotteries l) (lottery_results l) (f (retry_attempt l))
         (final_status l) (final_message l) (reload_occurred l) (checked_count l).

Definition set_final (st msg : string) (l : locals) : locals :=
  Locals (completed_lotteries l) (lottery_results l) (retry_attempt l)
         st msg (reload_occurred l) (checked_count l).

Definition set_reload_occurred (b : bool) (l : locals) : locals :=
  Locals (completed_lotteries l) (lottery_results l) (retry_attempt l)
         (final_status l) (final_message l) b (checked_count l).

Definition set_checked_count (f : nat -> nat) (l : locals) : locals :=
  Locals (completed_lotteries l) (lottery_results l) (retry_attempt l)
         (final_status l) (final_message l) (reload_occurred l) (f (checked_count l)).

Local Abbreviation ML := (PyM W locals).

(** [lottery_results.append({...})] *)
Definition append_result (n : Z) (st rsn : string) : ML unit :=
  modify (set_results (fun rs => rs ++ [LotteryResult_ n st rsn])).

(** [reload_occurred = True; retry_attempt += 1; break] *)
Definition restart_after_reload : ML (loop_ctl unit) :=
  modify (set_reload_occurred true) ;;
  modify (set_retry_attempt S) ;;
  ret Break.

(** [if "apply.html" not in driver.current_url: try: driver.get(APPLY_URL);
    <wait>  except Exception: log(...)] *)
Definition ensure_apply_page (waits : nat) : M unit :=
  current_url <- perform CurrentUrl ;;
  if negb (Str.contains "apply.html" current_url) then
    try_except (perform (Get APPLY_URL) ;; wait_checking waits) (fun _ => ret tt)
  else ret tt.

(** [if lottery_index < len(selected_lotteries): check_stop(); try: if
    "apply.html" not in driver.current_url: ...  except Exception: log(...)] *)
Definition back_to_apply_page (selected_lotteries : list Z) (lottery_index : nat) : M unit :=
  if (lottery_index <? length selected_lotteries)%nat then
    check_stop ;;
    try_except
      (current_url <- perform CurrentUrl ;;
       if negb (Str.contains "apply.html" current_url)
       then perform (Get APPLY_URL) ;; wait_checking 3
       else ret tt)
      (fun _ => ret tt)
  else ret tt.

(** What follows the recording of a failed item: the popup check, then
    either the restart or the step to the next item. *)
Definition after_failure (selected_lotteries : list Z) (lottery_index : nat)
  : ML (loop_ctl unit) :=
  call check_stop ;;
  pop_reload_needed <- call (_check_and_handle_pop_exceptions 5) ;;
  if pop_reload_needed then restart_after_reload
  else call (back_to_apply_page selected_lotteries lottery_index) ;; ret Continue.

(** The [try] statement that processes an open item. *)
Definition process_open_lottery (selected_lotteries : list Z) (lottery_index : nat)
           (lottery_number : Z) : ML (loop_ctl unit) :=
  try_except
    (result <- perform (ProcessLotteryEntry lottery_number) ;;
     match result with
     | EntryReloadNeeded => restart_after_reload
     | EntryTrue =>
         modify (set_completed (fun c => c ∪ {[lottery_number]})) ;;
         append_result lottery_number SUCCESS
                       (lottery_name lottery_number +:+ "の処理が成功しました") ;;
         call check_stop ;;
         pop_reload_needed <- call (_check_and_handle_pop_exceptions 5) ;;
         if pop_reload_needed then restart_after_reload
         else call check_stop ;; ret Continue
     | EntryFalse =>
         append_result lottery_number FAILURE
                       (lottery_name lottery_number +:+ "の処理が失敗しました") ;;
         after_failure selected_lotteries lottery_index
     end)
    (fun e =>
       if is_stop e then
         append_result lottery_number INTERRUPTED
                       (lottery_name lottery_number
                        +:+ "の処理がユーザーによって中断されました") ;;
         raise e
       else
         append_result lottery_number FAILURE
                       (lottery_name lottery_number +:+ "の処理でエラーが発生しました: "
                        +:+ Str.slice_to 100 (exn_str e)) ;;
         after_failure selected_lotteries lottery_index).

(** The classification of one item that is not in [completed_lotteries].
    [Continue] stands for [lottery_index += 1] followed by the next
    iteration. *)
Definition classify_lottery (selected_lotteries : list Z) (lottery_index : nat)
           (lottery_number : Z) : ML (loop_ctl unit) :=
  checked <- perform (CheckLotteryStatus lottery_number) ;;
  let status_text := fst checked in
  let exists_ := snd checked in
  modify (set_checked_count S) ;;
  if negb exists_ then
    append_result lottery_number NOT_EXIST
                  (lottery_name lottery_number +:+ "は存在しません") ;;
    ret Continue
  else if negb (Str.truthy status_text) then ret Continue
  else if bool_decide (status_text = Some LABEL_CLOSED) then
    append_result lottery_number SKIPPED_CLOSED
                  (lottery_name lottery_number +:+ "は受付終了しています") ;;
    ret Continue
  else if bool_decide (status_text = Some LABEL_COMPLETED) then
    modify (set_completed (fun c => c ∪ {[lottery_number]})) ;;
    append_result lottery_number SKIPPED_COMPLETED
                  (lottery_name lottery_number +:+ "は受付完了しています") ;;
    ret Continue
  else if bool_decide (status_text = Some LABEL_OPEN) then
    call check_stop ;;
    process_open_lottery selected_lotteries lottery_index lottery_number
  else
    append_result lottery_number UNKNOWN
                  (lottery_name lottery_number +:+ "のステータスが不明です: "
                   +:+ default "" status_text) ;;
    ret Continue.

(** [while lottery_index < len(selected_lotteries): ...].  Every
    iteration ends with [lottery_index += 1], with [break] or with an
    exception, so the loop is a recursion on the items from
    [lottery_index] on. *)
Fixpoint process_selected (selected_lotteries : list Z) (rest : list Z)
         (lottery_index : nat) : ML unit :=
  match rest with
  | [] => ret tt
  | lottery_number :: rest' =>
      call check_stop ;;
      call (ensure_apply_page 5) ;;
      l <- get_locals ;;
      if bool_decide (lottery_number ∈ completed_lotteries l) then
        modify (set_checked_count S) ;;
        process_selected selected_lotteries rest' (S lottery_index)
      else
        c <- classify_lottery selected_lotteries lottery_index lottery_number ;;
        match c with
        | Continue => process_selected selected_lotteries rest' (S lottery_index)
        | _ => ret tt
        end
  end.

(** [for result in lottery_results: if result['lottery'] == n and
    result['status'] == '成功': <set status and reason>; break] *)
Fixpoint demote_success (n : Z) (rsn : string) (rs : list LotteryResult)
  : list LotteryResult :=
  match rs with
  | [] => []
  | result :: rest =>
      if (lottery result =? n) && String.eqb (status result) SUCCESS
      then LotteryResult_ (lottery result) FAILURE rsn :: rest
      else result :: demote_success n rsn rest
  end.

(** [for result in lottery_results: if result['lottery'] == n:
    if result['status'] == '成功': <set status and reason>
    break] *)
Fixpoint demote_first (n : Z) (rsn : string) (rs : list LotteryResult)
  : list LotteryResult :=
  match rs with
  | [] => []
  | result :: rest =>
      if lottery result =? n
      then (if String.eqb (status result) SUCCESS
            then LotteryResult_ (lottery result) FAILURE rsn
            else result) :: rest
      else result :: demote_first n rsn rest
  end.

(** The loop that looks for items still open after a pass; answers
    [has_open_lotteries]. *)
Fixpoint recheck_open (rest : list Z) (has_open_lotteries : bool) : ML bool :=
  match rest with
  | [] => ret has_open_lotteries
  | check_lottery_num :: rest' =>
      call check_stop ;;
      checked <- perform (CheckLotteryStatus check_lottery_num) ;;
      if snd checked && bool_decide (fst checked = Some LABEL_OPEN) then
        l <- get_locals ;;
        (if bool_decide (check_lottery_num ∈ completed_lotteries l) then
           modify (set_completed (fun c => c ∖ {[check_lottery_num]})) ;;
           modify (set_results
                     (demote_success check_lottery_num
                        (lottery_name check_lottery_num +:+ "は再確認時に「受付中」でした")))
         else ret tt) ;;
        recheck_open rest' true
      else recheck_open rest' has_open_lotteries
  end.

(** The verification made when every selected item is in
    [completed_lotteries]; answers [all_verified_completed]. *)
Fixpoint verify_completed (rest : list Z) : ML bool :=
  match rest with
  | [] => ret true
  | verify_lottery_num :: rest' =>
      call check_stop ;;
      checked <- perform (CheckLotteryStatus verify_lottery_num) ;;
      let status_text := fst checked in
      if snd checked
         && negb (bool_decide (status_text = Some LABEL_COMPLETED)
                  || bool_decide (status_text = Some LABEL_CLOSED))
      then if bool_decide (status_text = Some LABEL_OPEN) then ret false
           else verify_completed rest'
      else verify_completed rest'
  end.

(** The verification that follows a verdict of success; answers
    [all_final_verified]. *)
Fixpoint final_verify (rest : list Z) (all_final_verified : bool) : ML bool :=
  match rest with
  | [] => ret all_final_verified
  | final_verify_num :: rest' =>
      call check_stop ;;
      checked <- perform (CheckLotteryStatus final_verify_num) ;;
      if snd checked && bool_decide (fst checked = Some LABEL_OPEN) then
        l <- get_locals ;;
        (if bool_decide (final_verify_num ∈ completed_lotteries l)
         then modify (set_completed (fun c => c ∖ {[final_verify_num]}))
         else ret tt) ;;
        modify (set_results
                  (demote_first final_verify_num
                     (lottery_name final_verify_num +:+ "は最終確認時に「受付中」でした"))) ;;
        final_verify rest' false
      else final_verify rest' all_final_verified
  end.

Definition max_retry_attempts : nat := 10.

(** Where control goes after a block of the body of the retry loop. *)
Inductive flow : Type :=
| FallThrough     (* on to the statement after the block *)
| LoopContinue    (* [continue] *)
| LoopBreak.      (* [break] *)

(** The first [if checked_count >= len(selected_lotteries)] block. *)
Definition completion_block (selected_lotteries : list Z) : ML flow :=
  has_open_lotteries <- recheck_open selected_lotteries false ;;
  if has_open_lotteries then
    modify (set_retry_attempt S) ;; ret LoopContinue
  else
    l <- get_locals ;;
    let selected_completed :=
      filter (fun lottery_num => lottery_num ∈ completed_lotteries l) selected_lotteries in
    if (length selected_lotteries <=? length selected_completed)%nat then
      all_verified_completed <- verify_completed selected_lotteries ;;
      if all_verified_completed then
        modify (set_final SUCCESS "成功") ;; ret LoopBreak
      else
        modify (set_retry_attempt S) ;; ret LoopContinue
    else ret FallThrough.

(** The second [if checked_count >= len(selected_lotteries)] block. *)
Definition verdict_block (selected_lotteries : list Z) : ML flow :=
  l <- get_locals ;;
  match determine_final_status (lottery_results l) with
  | (st, msg, leave) =>
      modify (set_final st msg) ;;
      if leave then ret LoopBreak
      else if String.eqb st SUCCESS then
        all_final_verified <- final_verify selected_lotteries true ;;
        if all_final_verified then ret LoopBreak
        else
          l <- get_locals ;;
          if (retry_attempt l <? max_retry_attempts - 1)%nat then
            modify (set_retry_attempt S) ;; ret LoopContinue
          else
            modify (set_final FAILURE
                      "失敗: 最終確認時に「受付中」の抽選が残っていました") ;;
            ret LoopBreak
      else ret LoopBreak
  end.

(** The body of [while retry_attempt < max_retry_attempts]. *)
Definition one_pass (selected_lotteries : list Z) : ML flow :=
  modify (set_reload_occurred false) ;;
  modify (set_checked_count (fun _ => O)) ;;
  call check_stop ;;
  _ <- perform CheckAndSolveCaptchaOnApplyPage ;;
  call check_stop ;;
  call (ensure_apply_page 5) ;;
  process_selected selected_lotteries selected_lotteries 0 ;;
  l <- get_locals ;;
  if reload_occurred l then ret LoopContinue
  else
    c <- (if (length selected_lotteries <=? checked_count l)%nat
          then completion_block selected_lotteries
          else ret FallThrough) ;;
    match c with
    | FallThrough =>
        l <- get_locals ;;
        if (length selected_lotteries <=? checked_count l)%nat
        then verdict_block selected_lotteries
        else ret FallThrough
    | _ => ret c
    end.

(** [while retry_attempt < max_retry_attempts: ...], with fuel for the
    iterations. *)
Fixpoint retry_loop (selected_lotteries : list Z) (fuel : nat) : ML unit :=
  match fuel with
  | O => ret tt
  | S fuel' =>
      l <- get_locals ;;
      if (retry_attempt l <? max_retry_attempts)%nat then
        c <- one_pass selected_lotteries ;;
        match c with
        | LoopBreak => ret tt
        | _ => retry_loop selected_lotteries fuel'
        end
      else ret tt
  end.

Definition initial_locals : locals :=
  Locals ∅ [] 0 FAILURE "処理中にエラーが発生しました" false 0.

(** [selected_lotteries] as the function normalises its argument. *)
Definition normalise_selection (selected_lotteries : option (list Z)) : list Z :=
  let selected_lotteries :=
    match selected_lotteries with
    | None => [1]
    | Some [] => [1]
    | Some l => l
    end in
  sorted_set selected_lotteries.

(** The function body, run on the function's locals. *)
Definition process_all_lotteries_body (selected_lotteries : list Z) : ML SessionOutcome :=
  retry_loop selected_lotteries (S max_retry_attempts) ;;
  l <- get_locals ;;
  ret (SessionOutcome_ (lottery_results l) (final_status l) (final_message l)).

(** [_process_all_lotteries(driver, wait, selected_lotteries)] *)
Definition _process_all_lotteries (selected_lotteries : option (list Z)) : M SessionOutcome :=
  call_with initial_locals
            (process_all_lotteries_body (normalise_selection selected_lotteries)).

(** [set_selected_lotteries(lottery_numbers)]: the new value of the
    global [_selected_lotteries]. *)
Definition set_selected_lotteries (lottery_numbers : option (list Z)) : list Z :=
  match lottery_numbers with
  | None => [1]
  | Some [] => [1]
  | Some l => merge_sort Z.le l
  end.

(** *** [lottery_begin] *)

Definition max_login_attempts : nat := 3.
Definition max_otp_retries : nat := 2.

(** [if attempt < max_login_attempts: continue  else: raise Exception(msg)] *)
Definition retry_or_fail (attempt : nat) (msg : string) : M (loop_ctl unit) :=
  if (attempt <? max_login_attempts)%nat then ret Continue
  else raise (Exception msg).

(** [if otp_retry < max_otp_retries: continue  else: break] *)
Definition retry_or_break (otp_retry : nat) : M (loop_ctl unit) :=
  if (otp_retry <? max_otp_retries)%nat then ret Continue else ret Break.

(** The body of [for otp_retry in range(1, max_otp_retries + 1)];
    [Return tt] stands for [otp_success = True; break]. *)
Definition otp_body (otp_retry : nat) : M (loop_ctl unit) :=
  check_stop ;;
  wait_checking 5 ;;
  otp <- try_except (o <- perform GetOtpFromGmail ;; ret (Some o))
                    (fun e => if is_stop e then raise e else ret None) ;;
  match otp with
  | None => retry_or_break otp_retry
  | Some otp =>
    check_stop ;;
    entered <- try_except (perform (EnterOtp otp) ;; ret true) (fun _ => ret false) ;;
    if negb entered then retry_or_break otp_retry
    else
      check_stop ;;
      submitted <- try_except (perform SubmitOtp ;; ret true) (fun _ => ret false) ;;
      if negb submitted then retry_or_break otp_retry
      else
        wait_checking 10 ;;
        _ <- perform CurrentUrl ;;
        checked <- perform CheckLoginStatusMessage ;;
        if Str.truthy (fst checked) && snd checked then retry_or_break otp_retry
        else
          current_url <- perform CurrentUrl ;;
          if Str.contains "login-mfa" current_url then
            page_source <- perform PageSource ;;
            if Str.contains "認証に失敗" page_source
            then retry_or_break otp_retry
            else retry_or_break otp_retry
          else
            current_url <- perform CurrentUrl ;;
            if negb (Str.contains "login.html" current_url) then ret (Return tt)
            else
              checked <- perform CheckLoginStatusMessage ;;
              if snd checked then retry_or_break otp_retry
              else retry_or_break otp_retry
  end.

(** The OTP loop; answers [otp_success]. *)
Fixpoint otp_loop (remaining otp_retry : nat) : M bool :=
  match remaining with
  | O => ret false
  | S remaining' =>
      c <- otp_body otp_retry ;;
      match c with
      | Continue => otp_loop remaining' (S otp_retry)
      | Break => ret false
      | Return _ => ret true
      end
  end.

Definition failed_after (detail : string) : string :=
  "Authentication failed after " +:+ pretty max_login_attempts +:+ " attempts"
  +:+ detail +:+ " for email: " +:+ EMAIL.

(** The body of [for attempt in range(1, max_login_attempts + 1)];
    [Break] stands for [login_success = True; break]. *)
Definition login_attempt (attempt : nat) : M (loop_ctl unit) :=
  check_stop ;;
  attempted <- perform AttemptLoginWithCaptcha ;;
  let success := fst attempted in
  let needs_retry := snd attempted in
  if success then ret Break
  else if needs_retry then retry_or_fail attempt (failed_after "")
  else
    check_stop ;;
    current_url <- perform CurrentUrl ;;
    otp_required <-
      (if Str.contains "login-mfa" current_url then ret true
       else page_source <- perform PageSource ;;
            ret (Str.contains "パスコード" page_source)) ;;
    if otp_required then
      otp_success <- otp_loop max_otp_retries 1 ;;
      current_url_after_otp <- perform CurrentUrl ;;
      if otp_success
         || (negb (Str.contains "login.html" current_url_after_otp)
             && negb (Str.contains "login-mfa" current_url_after_otp))
      then ret Break
      else if Str.contains "login-mfa" current_url_after_otp
      then retry_or_fail attempt (failed_after " (OTP processing failed)")
      else retry_or_fail attempt (failed_after " (including OTP failures)")
    else
      current_url <- perform CurrentUrl ;;
      if Str.contains "login.html" current_url then
        checked <- perform CheckLoginStatusMessage ;;
        if snd checked then retry_or_fail attempt (failed_after "")
        else retry_or_fail attempt
               ("Login verification failed after " +:+ pretty max_login_attempts
                +:+ " attempts for email: " +:+ EMAIL)
      else ret Break.

(** The login loop; answers [login_success]. *)
Fixpoint login_loop (remaining attempt : nat) : M bool :=
  match remaining with
  | O => ret false
  | S remaining' =>
      c <- login_attempt attempt ;;
      match c with
      | Continue => login_loop remaining' (S attempt)
      | _ => ret true
      end
  end.

(** The final verification of the login, before the apply page. *)
Definition verify_login : M unit :=
  _ <- perform CurrentUrl ;;
  current_url <- perform CurrentUrl ;;
  (if Str.contains "login.html" current_url || Str.contains "login-mfa" current_url then
     checked <- perform CheckLoginStatusMessage ;;
     failed <- (if snd checked then ret true
                else page_source <- perform PageSource ;;
                     ret (Str.contains "認証に失敗" page_source)) ;;
     if failed
     then raise (Exception ("Authentication failed - still on login page after all attempts for email: "
                            +:+ EMAIL))
     else raise (Exception ("Login verification failed - still on login page after all attempts for email: "
                            +:+ EMAIL))
   else ret tt) ;;
  checked <- perform CheckLoginStatusMessage ;;
  if Str.truthy (fst checked) && snd checked
  then raise (Exception ("Authentication failed after all attempts for email: " +:+ EMAIL))
  else ret tt.

(** The navigation to the apply page that follows. *)
Definition go_to_apply_page : M unit :=
  current_url <- perform CurrentUrl ;;
  (if negb (Str.contains "apply.html" current_url)
   then perform (Get APPLY_URL) ;; wait_checking 5
   else check_stop) ;;
  check_stop.

(** The mutable local [pop04_reloaded] of [lottery_begin]. *)
Local Abbreviation MB := (PyM W bool).

(** [for wait_iteration in range(5): check_stop(); try: driver.current_url;
    break  except: continue] *)
Fixpoint wait_for_reload (n : nat) : M unit :=
  match n with
  | O => ret tt
  | S n' =>
      check_stop ;;
      loaded <- try_except (_ <- perform CurrentUrl ;; ret true) (fun _ => ret false) ;;
      if loaded then ret tt else wait_for_reload n'
  end.

(** The cascade of four reload mechanisms of [lottery_begin]; answers
    [reload_success] and sets [pop04_reloaded]. *)
Definition reload_page_at_start : MB bool :=
  try_except
    (perform Refresh ;; call check_stop ;; call (wait_for_reload 5) ;;
     _ <- perform CurrentUrl ;;
     modify (fun _ => true) ;; ret true)
    (fun _ =>
       try_except
         (current_url <- perform CurrentUrl ;;
          perform (Get (if String.eqb current_url "" then APPLY_URL else current_url)) ;;
          call check_stop ;; call (wait_checking 5) ;;
          modify (fun _ => true) ;; ret true)
         (fun _ =>
            try_except
              (perform (ExecuteScript "window.location.reload(true);") ;;
               call check_stop ;; call (wait_checking 5) ;;
               modify (fun _ => true) ;; ret true)
              (fun _ =>
                 try_except
                   (perform (ExecuteScript "window.location = window.location;") ;;
                    call check_stop ;; call (wait_checking 5) ;;
                    modify (fun _ => true) ;; ret true)
                   (fun _ => ret false)))).

(** ['//*[@id="pop04"]//a | //*[@id="pop04"]//button'] *)
Definition pop04_buttons_xpath : string :=
  "//*[@id=" +:+ dq +:+ "pop04" +:+ dq +:+ "]//a | //*[@id=" +:+ dq +:+ "pop04" +:+ dq
  +:+ "]//button".

(** The closing of a pop04 that shows no exception message. *)
Definition close_normal_pop04 : M unit :=
  try_except
    (pop04_closed <-
       try_except
         (perform (ClickWhenClickable (pop_link_xpath "pop04")) ;; ret true)
         (fun _ => try_except (perform (ClickFirstEnabled pop04_buttons_xpath))
                              (fun _ => ret false)) ;;
     if pop04_closed
     then try_except (_ <- perform (PopupDisplayed "pop04") ;; ret tt) (fun _ => ret tt)
     else ret tt)
    (fun _ => ret tt).

Definition max_reload_attempts_at_start : nat := 6.

(** The body of the reload loop of [lottery_begin], after
    [reload_attempt += 1]. *)
Definition pop04_at_start_body (reload_attempt : nat) : MB (loop_ctl unit) :=
  try_except
    (displayed <- perform (PopupDisplayed "pop04") ;;
     if displayed then
       try_except
         (text <- perform (ElementText (pop_message_xpath "pop04")) ;;
          if Str.contains EXCEPTION_MESSAGE text then
            call check_stop ;;
            _ <- perform CurrentUrl ;;
            reload_success <- reload_page_at_start ;;
            if reload_success then
              call check_stop ;;
              call check_stop ;;
              try_except
                (still <- perform (PopupDisplayed "pop04") ;;
                 if still then
                   try_except
                     (text <- perform (ElementText (pop_message_xpath "pop04")) ;;
                      if Str.contains EXCEPTION_MESSAGE text then
                        if (reload_attempt <? max_reload_attempts_at_start)%nat
                        then ret Continue
                        else call (try_close "pop04") ;; ret Break
                      else call (try_close "pop04") ;; ret Break)
                     (fun _ => call (try_close "pop04") ;; ret Break)
                 else ret Break)
                (fun _ => ret Break)
            else if (reload_attempt <? max_reload_attempts_at_start)%nat
                 then ret Continue
                 else call (try_close "pop04") ;; ret Break
          else call close_normal_pop04 ;; ret Break)
         (fun _ => call (try_close "pop04") ;; ret Break)
     else ret Break)
    (fun _ => ret Break).

(** [while reload_attempt < max_reload_attempts: check_stop();
    reload_attempt += 1; ...] *)
Fixpoint pop04_at_start_loop (remaining reload_attempt : nat) : MB unit :=
  match remaining with
  | O => ret tt
  | S remaining' =>
      call check_stop ;;
      let reload_attempt := S reload_attempt in
      c <- pop04_at_start_body reload_attempt ;;
      match c with
      | Continue => pop04_at_start_loop remaining' reload_attempt
      | _ => ret tt
      end
  end.

(** The last look at pop04 before the items are processed. *)
Definition final_pop04_check : M unit :=
  try_except
    (displayed <- perform (PopupDisplayed "pop04") ;;
     if displayed then
       try_except
         (perform (ClickWhenClickable (pop_link_xpath "pop04")) ;;
          _ <- perform (PopupDisplayed "pop04") ;; ret tt)
         (fun _ => ret tt)
     else ret tt)
    (fun _ => ret tt).

Context (_selected_lotteries : list Z).

(** The [try] block of [lottery_begin]. *)
Definition lottery_begin_body : MB SessionOutcome :=
  call (login_loop max_login_attempts 1) ;;
  call verify_login ;;
  call go_to_apply_page ;;
  pop04_at_start_loop max_reload_attempts_at_start 0 ;;
  call check_stop ;;
  call final_pop04_check ;;
  pop04_reloaded <- get_locals ;;
  (if (pop04_reloaded : bool) then call check_stop else ret tt) ;;
  call check_stop ;;
  call (ensure_apply_page 5) ;;
  call check_stop ;;
  call (_process_all_lotteries (Some _selected_lotteries)).

(** [lottery_begin(driver, wait)] *)
Definition lottery_begin : M SessionOutcome :=
  call_with false
    (try_except lottery_begin_body
       (fun e =>
          if is_stop e
          then ret (SessionOutcome_ [] INTERRUPTED "ユーザーによって中断されました")
          else ret (SessionOutcome_ [] FAILURE
                      ("ログインエラー: " +:+ Str.slice_to 100 (exn_str e))))).

End Bot.

(** ** Scripted worlds

    A scripted world answers the [n]-th call of every operation by a fixed
    [behaviour]; its state counts the calls made so far, per operation. *)

Definition op_key {A : Type} (o : op A) : string :=
  match o with
  | StopCheck => "StopCheck"
  | PostCreateTask _ => "PostCreateTask"
  | PostGetTaskResult _ => "PostGetTaskResult"
  | ExtractRecaptchaAction => "ExtractRecaptchaAction"
  | FindElementsById id => "FindElementsById:" +:+ id
  | PopupDisplayed id => "PopupDisplayed:" +:+ id
  | ElementText xpath => "ElementText:" +:+ xpath
  | Refresh => "Refresh"
  | Get _ => "Get"
  | ExecuteScript _ => "ExecuteScript"
  | CurrentUrl => "CurrentUrl"
  | PageSource => "PageSource"
  | ClickWhenClickable xpath => "ClickWhenClickable:" +:+ xpath
  | ClickFirstEnabled xpath => "ClickFirstEnabled:" +:+ xpath
  | AttemptLoginWithCaptcha => "AttemptLoginWithCaptcha"
  | GetOtpFromGmail => "GetOtpFromGmail"
  | EnterOtp _ => "EnterOtp"
  | SubmitOtp => "SubmitOtp"
  | CheckLoginStatusMessage => "CheckLoginStatusMessage"
  | CheckLotteryStatus n => "CheckLotteryStatus:" +:+ pretty n
  | CheckAndSolveCaptchaOnApplyPage => "CheckAndSolveCaptchaOnApplyPage"
  | ProcessLotteryEntry n => "ProcessLotteryEntry:" +:+ pretty n
  end.

Definition behaviour : Type := forall A : Type, op A -> nat -> exn + A.

Record scripted (b : behaviour) : Type := Scripted { calls : gmap string nat }.
Arguments Scripted {b} _.
Arguments calls {b} _.

#[export] Instance scripted_world (b : behaviour) : World (scripted b) :=
  fun A o w =>
    let n := default O (calls w !! op_key o) in
    (b A o n, Scripted (<[op_key o := S n]> (calls w))).

(** The initial state of a scripted world: nothing was called yet. *)
Definition fresh (b : behaviour) : scripted b := Scripted ∅.

(** Runs a program in a fresh scripted world and keeps the result and
    the trace. *)
Definition run_script {A : Type} (b : behaviour) (m : PyM (scripted b) unit A)
  : (exn + A) * list event :=
  match m tt (fresh b) with
  | (r, _, _, t) => (r, t)
  end.

(** ** Observations on traces *)

Definition is_poll (e : event) : bool :=
  match e with
  | Ev (PostGetTaskResult _) _ => true
  | _ => false
  end.

Definition is_submission (e : event) : bool :=
  match e with
  | Ev (PostCreateTask _) _ => true
  | _ => false
  end.


(** The operation was answered with a value, and no stop was requested. *)
Definition answered_ok (e : event) : bool :=
  match e with
  | Ev o r =>
      match o in op A return exn + A -> bool with
      | StopCheck => fun r => match r with inr go_on => go_on | inl _ => false end
      | _ => fun r => match r with inr _ => true | inl _ => false end
      end r
  end.

(** A quiet run: nothing raised, nobody asked to stop. *)
Definition quiet (t : list event) : bool := forallb answered_ok t.

Fixpoint count_events (p : event -> bool) (t : list event) : nat :=
  match t with
  | [] => O
  | e :: t' => ((if p e then 1 else 0) + count_events p t')%nat
  end.

(** A request to one of the reload mechanisms of the page. *)
Definition is_reload (e : event) : bool :=
  match e with
  | Ev Refresh _ => true
  | Ev (Get _) _ => true
  | Ev (ExecuteScript _) _ => true
  | _ => false
  end.

Definition is_refresh (e : event) : bool :=
  match e with
  | Ev Refresh _ => true
  | _ => false
  end.

(** What a check of an overlay sees: its message matches the text that
    triggers a reload, or the overlay is gone or shows something else. *)
Inductive overlay_obs : Type := Matches | Cleared.

Definition overlay_check (id message : string) (e : event) : list overlay_obs :=
  match e with
  | Ev o r =>
      match o in op A return exn + A -> list overlay_obs with
      | PopupDisplayed id' => fun r =>
          if String.eqb id' id
          then match r with inr false => [Cleared] | _ => [] end
          else []
      | ElementText xpath => fun r =>
          if String.eqb xpath (pop_message_xpath id)
          then match r with
               | inr text => [if Str.contains message text then Matches else Cleared]
               | inl _ => []
               end
          else []
      | _ => fun _ => []
      end r
  end.

(** The successive checks of an overlay made during a run. *)
Definition overlay_checks (id message : string) (t : list event) : list overlay_obs :=
  concat (map (overlay_check id message) t).

(** *** Scripts *)

(** The calm session: already authenticated on the apply page, no popup,
    no CAPTCHA, every item already completed, nobody asks to stop. *)
Definition calm : behaviour := fun A o n =>
  match o in op A return exn + A with
  | StopCheck => inr true
  | PostCreateTask _ =>
      inr (Response "{}" (Some (CreateTaskData (Some 0) None None (Some 1) "{}")))
  | PostGetTaskResult _ =>
      inr (Response "{}"
             (Some (TaskResultData (Some "ready") (Some 0) None None
                      (Some (SolutionData None (Some "token"))) "{}")))
  | ExtractRecaptchaAction => inr None
  | FindElementsById _ => inr O
  | PopupDisplayed _ => inr false
  | ElementText _ => inr ""
  | Refresh => inr tt
  | Get _ => inr tt
  | ExecuteScript _ => inr tt
  | CurrentUrl => inr APPLY_URL
  | PageSource => inr ""
  | ClickWhenClickable _ => inr tt
  | ClickFirstEnabled _ => inr false
  | AttemptLoginWithCaptcha => inr (true, false)
  | GetOtpFromGmail => inr "123456"
  | EnterOtp _ => inr tt
  | SubmitOtp => inr tt
  | CheckLoginStatusMessage => inr (None, false)
  | CheckLotteryStatus _ => inr (Some LABEL_COMPLETED, true)
  | CheckAndSolveCaptchaOnApplyPage => inr false
  | ProcessLotteryEntry _ => inr EntryTrue
  end.

(** A script that answers some calls and leaves the others to [b]. *)
Definition script : Type := forall A : Type, op A -> nat -> option (exn + A).

Definition override (b : behaviour) (s : script) : behaviour :=
  fun A o n => match s A o n with Some r => r | None => b A o n end.

(** The result endpoint answers [processing, processing, ready(token)]. *)
Definition processing : response task_result_data :=
  Response "{}" (Some (TaskResultData (Some "processing") None None None None "{}")).

Definition ready (tok : string) : response task_result_data :=
  Response "{}" (Some (TaskResultData (Some "ready") (Some 0) None None
                         (Some (SolutionData None (Some tok))) "{}")).

Definition two_processing_then_ready (tok : string) : script := fun A o n =>
  match o in op A return option (exn + A) with
  | PostGetTaskResult _ =>
      Some (inr (if (n <? 2)%nat then processing else ready tok))
  | _ => None
  end.

(** Item 1 is open; its first submission fails and its second succeeds,
    after which its label reads completed. *)
Definition fails_then_succeeds : script := fun A o n =>
  match o in op A return option (exn + A) with
  | CheckLotteryStatus _ =>
      Some (inr (Some (if (n <? 3)%nat then LABEL_OPEN else LABEL_COMPLETED), true))
  | ProcessLotteryEntry _ =>
      Some (inr (if (n <? 1)%nat then EntryFalse else EntryTrue))
  | _ => None
  end.

(** The status element of every item exists but carries no text. *)
Definition empty_labels : script := fun A o n =>
  match o in op A return option (exn + A) with
  | CheckLotteryStatus _ => Some (inr (None, true))
  | _ => None
  end.

(** Items 1, 2 and 3 are open; the stop request arrives while item 2 is
    being submitted. *)
Definition stop_during_item_2 : script := fun A o n =>
  match o in op A return option (exn + A) with
  | CheckLotteryStatus _ => Some (inr (Some LABEL_OPEN, true))
  | ProcessLotteryEntry k =>
      if k =? 2 then Some (inl (Exn StopIteration "Bot stopped by user")) else None
  | _ => None
  end.

(** pop04 stays on the page with the exception message, whatever is
    reloaded. *)
Definition pop04_exception_persists : script := fun A o n =>
  match o in op A return option (exn + A) with
  | PopupDisplayed id => if String.eqb id "pop04" then Some (inr true) else None
  | ElementText _ => Some (inr EXCEPTION_MESSAGE)
  | _ => None
  end.

(** pop04 shows the exception message at the first two checks and is gone
    at the third. *)
Definition pop04_exception_twice : script := fun A o n =>
  match o in op A return option (exn + A) with
  | PopupDisplayed id =>
      if String.eqb id "pop04" then Some (inr (n <? 2)%nat) else None
  | ElementText _ => Some (inr EXCEPTION_MESSAGE)
  | _ => None
  end.

(** Every login attempt ends with an explicit authentication failure. *)
Definition login_always_fails : script := fun A o n =>
  match o in op A return option (exn + A) with
  | AttemptLoginWithCaptcha => Some (inr (false, true))
  | _ => None
  end.

(** Observations on the login and the item phases. *)
Definition is_login_attempt (e : event) : bool :=
  match e with
  | Ev AttemptLoginWithCaptcha _ => true
  | _ => false
  end.

Definition is_item_event (e : event) : bool :=
  match e with
  | Ev (CheckLotteryStatus _) _ => true
  | Ev (ProcessLotteryEntry _) _ => true
  | _ => false
  end.

Definition is_entry (n : Z) (e : event) : bool :=
  match e with
  | Ev (ProcessLotteryEntry k) _ => k =? n
  | _ => false
  end.

Definition is_pass_start (e : event) : bool :=
  match e with
  | Ev CheckAndSolveCaptchaOnApplyPage _ => true
  | _ => false
  end.

(** Every task submitted in the run asks for the score [min_score]. *)
Definition submits_min_score (min_score : float) (e : event) : Prop :=
  match e with
  | Ev (PostCreateTask p) _ => minScore (ct_task p) = min_score
  | _ => True
  end.

(** The answers of the result endpoint during a run, in order. *)
Definition poll_answer (e : event) : list (exn + response task_result_data) :=
  match e with
  | Ev o r =>
      match o in op A return exn + A -> list (exn + response task_result_data) with
      | PostGetTaskResult _ => fun r => [r]
      | _ => fun _ => []
      end r
  end.

Definition poll_answers (t : list event) : list (exn + response task_result_data) :=
  concat (map poll_answer t).

(** A response that says [status: processing]. *)
Definition is_processing (p : response task_result_data) : Prop :=
  exists d, resp_json p = Some d /\ tr_status d = Some "processing".

(** A response that says [status: ready] with [solution: {token: tok}]. *)
Definition is_ready (tok : string) (p : response task_result_data) : Prop :=
  exists d sd,
    resp_json p = Some d /\ tr_status d = Some "ready" /\ tr_solution d = Some sd
    /\ Str.truthy (gRecaptchaResponse sd) = false /\ token sd = Some tok.

(** How a program deals with a result endpoint that answers [processing]
    some times and then [ready] with the token [tok]: it stops within the
    [processing] answers, or it takes the [ready] answer, polls no more
    and ends as [taken] says. *)
Definition takes_token (tok : string) (taken : Prop) (t : list event) : Prop :=
  forall ps rdy rest rest',
    Forall is_processing ps -> is_ready tok rdy ->
    poll_answers t ++ rest = map inr ps ++ inr rdy :: rest' ->
    (exists ps1 ps2, ps = ps1 ++ ps2 /\ poll_answers t = map inr ps1)
    \/ (taken /\ poll_answers t = map inr ps ++ [inr rdy]).

(** The event is not a poll of the result endpoint. *)
Definition no_poll (e : event) : Prop := poll_answer e = [].

(** *** The verdict rule in the words of the specification

    Interrupted if any result is Interrupted; else Failure if any result is
    Failure, SkippedClosed or NotExist; else Success if every result is
    Success or SkippedCompleted; Failure in any remaining case. *)
Definition verdict_of_statuses (statuses : list string) : string :=
  if existsb (String.eqb INTERRUPTED) statuses then INTERRUPTED
  else if existsb (fun st => String.eqb FAILURE st || String.eqb SKIPPED_CLOSED st
                             || String.eqb NOT_EXIST st) statuses
  then FAILURE
  else if forallb (fun st => String.eqb SUCCESS st || String.eqb SKIPPED_COMPLETED st) statuses
  then SUCCESS
  else FAILURE.

(** The statuses recorded in an outcome, item by item. *)
Definition recorded (o : SessionOutcome) : list (Z * string) :=
  map (fun result => (lottery result, status result)) (results o).

(** The checks of pop04 for the exception message. *)
Definition pop04_checks (t : list event) : list overlay_obs :=
  overlay_checks "pop04" EXCEPTION_MESSAGE t.

(** A stretch of a run that neither reloads the page nor checks pop04. *)
Definition idle (t : list event) : Prop :=
  count_events is_reload t = 0%nat /\ pop04_checks t = [].

(** The event is no check of pop04. *)
Definition no_pop04_check (e : event) : Prop :=
  overlay_check "pop04" EXCEPTION_MESSAGE e = [].

(** The event touches no lottery item. *)
Definition no_item_event (e : event) : Prop := is_item_event e = false.

(** A status check of an item is answered: the item exists and its label
    is 受付完了. *)
Definition answers_completed (e : event) : bool :=
  match e with
  | Ev o r =>
      match o in op A return exn + A -> bool with
      | CheckLotteryStatus _ => fun r =>
          match r with
          | inr (Some label, true) => String.eqb label LABEL_COMPLETED
          | _ => false
          end
      | _ => fun _ => true
      end r
  end.

(** Every status check of the run finds the item completed. *)
Definition all_completed (t : list event) : bool := forallb answers_completed t.

(** The events of a quiet run in which every item is found completed. *)
Definition completed_run (e : event) : bool := answered_ok e && answers_completed e.

(** A status check is answered: the item does not exist, or it carries a
    label. *)
Definition answers_labelled (e : event) : bool :=
  match e with
  | Ev o r =>
      match o in op A return exn + A -> bool with
      | CheckLotteryStatus _ => fun r =>
          match r with
          | inr (label, exists_) => negb exists_ || Str.truthy label
          | inl _ => false
          end
      | _ => fun _ => true
      end r
  end.

(** Every status check of the run finds a label or no item. *)
Definition all_labelled (t : list event) : bool := forallb answers_labelled t.

(** The events of a quiet run in which every item found has a label. *)
Definition labelled_run (e : event) : bool := answered_ok e && answers_labelled e.

(** The passes of the retry loop that a run has started. *)
Definition passes (t : list event) : nat := count_events is_pass_start t.

(** Entries of the item [n] in the results of an outcome. *)
Definition entries_of (n : Z) (o : SessionOutcome) : nat :=
  length (filter (fun result => lottery result = n) (results o)).

(** Item 1 is open and its submission succeeds, after which it reads
    completed; item 2 does not exist; item 3 is closed. *)
Definition mixed_items : script := fun A o n =>
  match o in op A return option (exn + A) with
  | CheckLotteryStatus k =>
      Some (inr (if k =? 1
                 then (Some (if (n <? 1)%nat then LABEL_OPEN else LABEL_COMPLETED), true)
                 else if k =? 2 then (None, false)
                 else (Some LABEL_CLOSED, true)))
  | _ => None
  end.

(** ** Further observations on traces *)

(** The stop check that finds the stop requested. *)
Definition stop_request : event := Ev StopCheck (inr false).

Definition is_stop_request (e : event) : bool :=
  match e with
  | Ev StopCheck (inr false) => true
  | _ => false
  end.

(** The run holds a stop check that found the stop requested. *)
Definition stop_requested (t : list event) : bool := existsb is_stop_request t.

(** What [check_stop] raises. *)
Definition stopped : exn := Exn StopIteration "Bot stopped by user".

(** A run that honours the first stop request: if a stop check found the
    stop requested, that check is the last event of the run and the run
    ends by raising [StopIteration]. *)
Definition halts_on_request {A} (r : exn + A) (t : list event) : Prop :=
  stop_requested t = true ->
  r = inl stopped
  /\ exists t0, t = t0 ++ [stop_request] /\ stop_requested t0 = false.

(** The stop check finds the stop requested from its call number [k] on
    (counting from 0). *)
Definition stop_after (k : nat) : script := fun A o n =>
  match o in op A return option (exn + A) with
  | StopCheck => Some (inr (n <? k)%nat)
  | _ => None
  end.

(** A reload mechanism that was requested and did not raise. *)
Definition is_reload_done (e : event) : bool :=
  match e with
  | Ev Refresh (inr _) => true
  | Ev (Get _) (inr _) => true
  | Ev (ExecuteScript _) (inr _) => true
  | _ => false
  end.

(** A click on the close link of an overlay. *)
Definition is_click (e : event) : bool :=
  match e with
  | Ev (ClickWhenClickable _) _ => true
  | _ => false
  end.

(** The event is no check that finds an overlay displayed. *)
Definition no_overlay_shown (e : event) : bool :=
  match e with
  | Ev (PopupDisplayed _) (inr true) => false
  | _ => true
  end.

(** The operations on the page that the popup handler and the waits use. *)
Definition page_op {A : Type} (o : op A) : bool :=
  match o with
  | StopCheck | FindElementsById _ | PopupDisplayed _ | ElementText _
  | Refresh | Get _ | ExecuteScript _ | CurrentUrl | ClickWhenClickable _ => true
  | _ => false
  end.

(** A status check of item [n] that finds it open for entries. *)
Definition is_open_answer (n : Z) (e : event) : bool :=
  match e with
  | Ev o r =>
      match o in op A return exn + A -> bool with
      | CheckLotteryStatus k => fun r =>
          match r with
          | inr (Some label, true) => (k =? n) && String.eqb label LABEL_OPEN
          | _ => false
          end
      | _ => fun _ => false
      end r
  end.

(** An entry of the results of a batch that returns: it is about a
    selected item and its status is not 中断. *)
Definition sound_entry (selected : list Z) (result : LotteryResult) : Prop :=
  lottery result ∈ selected /\ status result <> INTERRUPTED.

(** The part of the locals that the batch returns, as it is kept while
    the batch runs on. *)
Definition sound_locals (selected : list Z) (l : locals) : Prop :=
  Forall (sound_entry selected) (lottery_results l)
  /\ (final_status l = SUCCESS \/ final_status l = FAILURE).

(** The operations of the login: the submission of the login form and
    the handling of the passcode. *)
Definition login_op {A : Type} (o : op A) : bool :=
  match o with
  | AttemptLoginWithCaptcha | GetOtpFromGmail | EnterOtp _ | SubmitOtp => true
  | _ => false
  end.

(** A retrieval of the passcode from the mailbox. *)
Definition is_otp_fetch (e : event) : bool :=
  match e with
  | Ev GetOtpFromGmail _ => true
  | _ => false
  end.

(** A status check of an item is answered: the item exists and its label
    is missing or empty. *)
Definition answers_unlabelled (e : event) : bool :=
  match e with
  | Ev o r =>
      match o in op A return exn + A -> bool with
      | CheckLotteryStatus _ => fun r =>
          match r with
          | inr (label, true) => negb (Str.truthy label)
          | _ => false
          end
      | _ => fun _ => true
      end r
  end.

(** Every status check of the run finds an item without a label. *)
Definition all_unlabelled (t : list event) : bool := forallb answers_unlabelled t.

(** The events of a quiet run in which no item has a label. *)
Definition unlabelled_run (e : event) : bool := answered_ok e && answers_unlabelled e.

(** The locals that a pass over items without labels leaves alone. *)
Definition untouched (l l' : locals) : Prop :=
  completed_lotteries l' = completed_lotteries l
  /\ lottery_results l' = lottery_results l
  /\ reload_occurred l' = reload_occurred l.

(** * [sheets_helper.py] *)

(** ** More of Python's [str] *)

Module PyStr.

(** The width in bytes of the whitespace character (a code point for
    which [str.isspace] holds) that [s] starts with; [0] if it starts with
    none.  These are U+0009..U+000D, U+001C..U+0020, U+0085, U+00A0,
    U+1680, U+2000..U+200A, U+2028, U+2029, U+202F, U+205F and U+3000. *)
Definition space_width (s : string) : nat :=
  match s with
  | String c1 rest =>
      let b1 := nat_of_ascii c1 in
      if ((9 <=? b1) && (b1 <=? 13) || (28 <=? b1) && (b1 <=? 32))%nat then 1%nat
      else
        match rest with
        | String c2 rest2 =>
            let b2 := nat_of_ascii c2 in
            if ((b1 =? 194) && ((b2 =? 133) || (b2 =? 160)))%nat then 2%nat
            else
              match rest2 with
              | String c3 _ =>
                  let b3 := nat_of_ascii c3 in
                  if ((b1 =? 225) && (b2 =? 154) && (b3 =? 128)
                      || (b1 =? 226) && (b2 =? 128)
                         && ((128 <=? b3) && (b3 <=? 138) || (b3 =? 168) || (b3 =? 169)
                             || (b3 =? 175))
                      || (b1 =? 226) && (b2 =? 129) && (b3 =? 159)
                      || (b1 =? 227) && (b2 =? 128) && (b3 =? 128))%nat
                  then 3%nat else 0%nat
              | EmptyString => 0%nat
              end
        | EmptyString => 0%nat
        end
  | EmptyString => 0%nat
  end.

(** [s.lstrip()]; [skip] bytes of a whitespace character already seen are
    still to be dropped. *)
Fixpoint lstrip_from (skip : nat) (s : string) : string :=
  match s with
  | EmptyString => EmptyString
  | String _ rest =>
      match skip with
      | S k => lstrip_from k rest
      | O =>
          match space_width s with
          | O => s
          | S k => lstrip_from k rest
          end
      end
  end.

Definition lstrip (s : string) : string := lstrip_from 0 s.

(** [s.rstrip()]: [s] up to the first place from which only whitespace
    follows. *)
Fixpoint rstrip (s : string) : string :=
  match s with
  | EmptyString => EmptyString
  | String c rest => if String.eqb (lstrip s) "" then "" else String c (rstrip rest)
  end.

(** [s.strip()] *)
Definition strip (s : string) : string := rstrip (lstrip s).

(** [s.split(sep)] for a non-empty [sep]; [cur] is the piece being read
    and [skip] bytes of a separator already seen are still to be dropped. *)
Fixpoint split_from (sep : string) (skip : nat) (cur : string) (s : string) : list string :=
  match s with
  | EmptyString => [cur]
  | String c rest =>
      match skip with
      | S k => split_from sep k cur rest
      | O =>
          if String.prefix sep s
          then cur :: split_from sep (String.length sep - 1) "" rest
          else split_from sep 0 (cur +:+ String c "") rest
      end
  end.

Definition split (sep s : string) : list string := split_from sep 0 "" s.

(** [s.replace(old, new)] for a non-empty [old]; [skip] bytes of an
    occurrence already seen are still to be dropped. *)
Fixpoint replace_from (old new : string) (skip : nat) (s : string) : string :=
  match s with
  | EmptyString => EmptyString
  | String c rest =>
      match skip with
      | S k => replace_from old new k rest
      | O =>
          if String.prefix old s
          then new +:+ replace_from old new (String.length old - 1) rest
          else String c (replace_from old new 0 rest)
      end
  end.

Definition replace (old new s : string) : string := replace_from old new 0 s.

End PyStr.

(** ** [extract_spreadsheet_id] *)

Definition extract_spreadsheet_id (spreadsheet_input : string) : string :=
  let spreadsheet_input := PyStr.strip spreadsheet_input in
  if Str.contains "docs.google.com/spreadsheets/d/" spreadsheet_input then
    match PyStr.split "/d/" spreadsheet_input with
    | _ :: part :: _ => default "" (head (PyStr.split "/" part))
    | _ => spreadsheet_input
    end
  else spreadsheet_input.

(** ** [read_sheets_data] *)

(** What the scan of the rows has gathered: [data_rows],
    [total_email_count] and [skipped_count]. *)
Record sheet_scan : Type := SheetScan {
  data_rows : list (Z * string * option string);
  total_email_count : Z;
  skipped_count : Z
}.

(** [row[k].strip() if len(row) > k and row[k] else None] *)
Definition cell_stripped (row : list string) (k : nat) : option string :=
  match row !! k with
  | Some cell => if Str.truthy (Some cell) then Some (PyStr.strip cell) else None
  | None => None
  end.

(** [for i, row in enumerate(all_values, start=1): ...], from the row
    numbered [i] on. *)
Fixpoint scan_rows (start_row end_row : option Z) (i : Z) (all_values : list (list string))
         (scan : sheet_scan) : sheet_scan :=
  match all_values with
  | [] => scan
  | row :: rest =>
      let next := scan_rows start_row end_row (i + 1) rest in
      if match start_row with Some start => i <? start | None => false end then next scan
      else if match end_row with Some end_ => end_ <? i | None => false end then scan
      else
        match row with
        | [] => next scan
        | cell :: _ =>
            if negb (Str.truthy (Some cell)) || negb (Str.truthy (Some (PyStr.strip cell)))
            then next scan
            else
              let email := PyStr.strip cell in
              let password := cell_stripped row 1 in
              if negb (Str.truthy (Some email)) then next scan
              else
                let total := total_email_count scan + 1 in
                let column_c_value := cell_stripped row 2 in
                if bool_decide (column_c_value = Some "成功")
                then next (SheetScan (data_rows scan) total (skipped_count scan + 1))
                else next (SheetScan (data_rows scan ++ [(i, email, password)]) total
                                     (skipped_count scan))
        end
  end.

(** [read_sheets_data(spreadsheet_id, worksheet_name, start_row, end_row)].
    [open_values] stands for the calls to the Sheets client
    ([get_sheets_client()], [client.open_by_key(id)], the choice of the
    worksheet and [worksheet.get_all_values()]): it is given the
    spreadsheet id and the name of the worksheet, if one is to be looked
    up, and answers the values or the exception raised. *)
Definition read_sheets_data
           (open_values : string -> option string -> exn + list (list string))
           (spreadsheet_id : string) (worksheet_name : option string)
           (start_row end_row : option Z)
  : exn + (list (Z * string * option string) * Z * Z) :=
  let attempt : exn + (list (Z * string * option string) * Z * Z) :=
    match open_values (extract_spreadsheet_id spreadsheet_id)
                      (if Str.truthy worksheet_name then worksheet_name else None) with
    | inl e => inl e
    | inr all_values =>
        let range_error :=
          match start_row, end_row with
          | Some start, Some end_ =>
              if end_ <? start then
                Some (Exception ("Start row (" +:+ pretty start
                                 +:+ ") must be less than or equal to end row ("
                                 +:+ pretty end_ +:+ ")"))
              else if start <? 1 then
                Some (Exception ("Start row must be at least 1, got " +:+ pretty start))
              else None
          | _, _ => None
          end in
        match range_error with
        | Some e => inl e
        | None =>
            let scan := scan_rows start_row end_row 1 all_values (SheetScan [] 0 0) in
            inr (data_rows scan, total_email_count scan, skipped_count scan)
        end
    end in
  match attempt with
  | inl e => inl (Exception ("Error reading Google Sheets: " +:+ exn_str e))
  | inr result => inr result
  end.

(** What becomes of a row of the sheet, said without the loop: it is
    left out (outside the range of rows, or without an e-mail address),
    counted as done already (成功 in column C), or handed on. *)
Inductive row_kind : Type :=
| LeftOut
| DoneAlready
| HandedOn (entry : Z * string * option string).

Definition in_row_range (start_row end_row : option Z) (i : Z) : bool :=
  match start_row with Some start => start <=? i | None => true end
  && match end_row with Some end_ => i <=? end_ | None => true end.

Definition row_kind_of (start_row end_row : option Z) (i : Z) (row : list string) : row_kind :=
  if in_row_range start_row end_row i then
    match row !! 0%nat with
    | Some cell =>
        if String.eqb (PyStr.strip cell) "" then LeftOut
        else if bool_decide (cell_stripped row 2 = Some "成功") then DoneAlready
             else HandedOn (i, PyStr.strip cell, cell_stripped row 1)
    | None => LeftOut
    end
  else LeftOut.

(** The kinds of the rows, the first of which is numbered [i]. *)
Fixpoint row_kinds (start_row end_row : option Z) (i : Z) (all_values : list (list string))
  : list row_kind :=
  match all_values with
  | [] => []
  | row :: rest => row_kind_of start_row end_row i row :: row_kinds start_row end_row (i + 1) rest
  end.

Definition handed_on (k : row_kind) : option (Z * string * option string) :=
  match k with HandedOn entry => Some entry | _ => None end.

Definition has_email (k : row_kind) : bool :=
  match k with LeftOut => false | _ => true end.

Definition is_done_already (k : row_kind) : bool :=
  match k with DoneAlready => true | _ => false end.

(** The range of rows that [read_sheets_data] accepts: when both ends
    are given, [1 <= start_row <= end_row]. *)
Definition valid_row_range (start_row end_row : option Z) : bool :=
  match start_row, end_row with
  | Some start, Some end_ => (start <=? end_) && (1 <=? start)
  | _, _ => true
  end.

(** What a handed-on entry says of the sheet whose first row is numbered [i]. *)
Definition entry_of_sheet (start_row end_row : option Z) (i : Z)
           (all_values : list (list string)) (entry : Z * string * option string) : Prop :=
  let '(n, email, password) := entry in
  i <= n
  /\ in_row_range start_row end_row n = true
  /\ exists row cell,
      all_values !! Z.to_nat (n - i) = Some row
      /\ row !! 0%nat = Some cell
      /\ email = PyStr.strip cell
      /\ email <> ""
      /\ password = cell_stripped row 1
      /\ cell_stripped row 2 <> Some "成功".

(** A sheet to try the scan on. *)
Definition sample_sheet : list (list string) :=
  [ ["ログイン情報"; "パスワード"; "状態"];
    ["a@example.com"; " pw1 "; "成功"];
    [" b@example.com "; ""; "失敗"; "x"];
    ["   "; "pw3"];
    [];
    ["c@example.com"];
    ["d@example.com"; "pw5"; " 成功 "] ].

(** * The token written into the page *)

(** The bytes that the escaping looks for. *)
Definition backslash : ascii := "092"%char.
Definition double_quote : ascii := "034"%char.
Definition single_quote : ascii := "039"%char.
Definition line_feed : ascii := "010"%char.
Definition carriage_return : ascii := "013"%char.

(** [escaped_token] of [_attempt_login_with_captcha] and
    [_check_and_solve_captcha_on_apply_page]:
    [captcha_solution.replace('\\', '\\\\').replace('"', '\\"')
     .replace("'", "\\'").replace('\n', '\\n').replace('\r', '\\r')].
    The bytes looked for are ASCII, which UTF-8 uses for nothing else, so
    that replacing bytes is replacing characters. *)
Definition escaped_token (captcha_solution : string) : string :=
  let s := PyStr.replace (String backslash "") (String backslash (String backslash ""))
                         captcha_solution in
  let s := PyStr.replace (String double_quote "") (String backslash (String double_quote "")) s in
  let s := PyStr.replace (String single_quote "") (String backslash (String single_quote "")) s in
  let s := PyStr.replace (String line_feed "") (String backslash "n") s in
  PyStr.replace (String carriage_return "") (String backslash "r") s.

(** * The final status of a batch *)

(** The final status and message are those of [l]. *)
Definition keeps_final (l l' : locals) : Prop :=
  final_status l' = final_status l /\ final_message l' = final_message l.

(** [final_status = '成功'; final_message = '成功'] *)
Definition reports_success (l : locals) : Prop :=
  final_status l = SUCCESS /\ final_message l = "成功".

(** The final status set when the last attempt still finds an item open. *)
Definition reports_still_open (l : locals) : Prop :=
  final_status l = FAILURE
  /\ final_message l = "失敗: 最終確認時に「受付中」の抽選が残っていました".

(** The final status is the verdict of the recorded statuses. *)
Definition reports_verdict (l : locals) : Prop :=
  final_status l = verdict_of_statuses (map status (lottery_results l)).

(** Every selected item is in [completed_lotteries]. *)
Definition all_selected_completed (selected : list Z) (l : locals) : Prop :=
  forall n, n ∈ selected -> n ∈ completed_lotteries l.

(** How one pass of the retry loop leaves it: [known] is what is known
    of the locals after the loop over the items. *)
Definition pass_outcome (selected : list Z) (known : locals -> Prop)
           (l : locals) (r : exn + flow) (l' : locals) : Prop :=
  match r with
  | inl _ => True
  | inr FallThrough => False
  | inr LoopContinue =>
      retry_attempt l' = S (retry_attempt l)
      /\ (keeps_final l l' \/ reports_success l')
  | inr LoopBreak =>
      reports_verdict l'
      \/ (reports_success l' /\ all_selected_completed selected l' /\ known l')
      \/ (reports_still_open l' /\ (max_retry_attempts - 1 <= retry_attempt l)%nat)
  end.

(** How the retry loop, entered with the locals [l], ends. *)
Definition loop_outcome (l l' : locals) (t : list event) : Prop :=
  ((retry_attempt l < max_retry_attempts)%nat -> (1 <= passes t)%nat)
  /\ (reports_verdict l'
      \/ reports_success l'
      \/ (keeps_final l l' /\ ((retry_attempt l + passes t)%nat = max_retry_attempts))
      \/ (reports_still_open l'
          /\ ((retry_attempt l + passes t)%nat = max_retry_attempts))).

(** A status that counts as done: 成功 or スキップ(完了). *)
Definition done_status (st : string) : Prop := st = SUCCESS \/ st = SKIPPED_COMPLETED.

(** What the first pass over the items keeps true of the results: every
    entry is about a selected item, and the entries of the items in
    [completed_lotteries] have a status that counts as done. *)
Definition first_pass_results (selected : list Z) (l : locals) : Prop :=
  Forall (fun result =>
            lottery result ∈ selected
            /\ (lottery result ∈ completed_lotteries l -> done_status (status result)))
         (lottery_results l).

(** The items of [rest] have not been worked on. *)
Definition untouched_items (rest : list Z) (l : locals) : Prop :=
  Forall (fun n => (n ∉ completed_lotteries l) /\ (n ∉ map lottery (lottery_results l))) rest.

(** The work on the item [n] touches the entries and the completion of
    no other item. *)
Definition only_item (n : Z) (l l' : locals) : Prop :=
  forall m, m <> n ->
    (m ∈ completed_lotteries l' -> m ∈ completed_lotteries l)
    /\ (m ∈ map lottery (lottery_results l') -> m ∈ map lottery (lottery_results l)).

(** Item 1 exists without a label when the items are gone through and
    when they are looked at again, is found open by the final
    verification of the first pass, and from then on reads open while
    every submission fails. *)
Definition open_after_first_verdict : script := fun A o n =>
  match o in op A return option (exn + A) with
  | CheckLotteryStatus _ =>
      Some (inr (if (n <? 2)%nat then None else Some LABEL_OPEN, true))
  | ProcessLotteryEntry _ => Some (inr EntryFalse)
  | _ => None
  end.

(** Item 1 reads completed; item 2 exists without a label when the items
    are gone through and when they are looked at again, and is found open
    by every final verification. *)
Definition open_at_every_final_check : script := fun A o n =>
  match o in op A return option (exn + A) with
  | CheckLotteryStatus k =>
      Some (inr (if k =? 1 then Some LABEL_COMPLETED
                 else if (n mod 3 =? 2)%nat then Some LABEL_OPEN else None, true))
  | _ => None
  end.

(** ** A weakest-precondition calculus for the programs

    [wpg G m P l] says: started with locals [l], in any state of any world,
    [m] ends with a result [r], locals [l'] and a trace [t] such that
    [P r l' t], provided every event of [t] passes the guard [G].  The
    guard selects the runs a statement is about (for instance the quiet
    ones); [fun _ => true] selects them all. *)

Section Logic.
Context {W : Type} `{!World W}.

Definition wpg {L A : Type} (G : event -> bool) (m : PyM W L A)
           (P : exn + A -> L -> list event -> Prop) (l : L) : Prop :=
  forall w, match m l w with (r, l', _, t) => forallb G t = true -> P r l' t end.

End Logic.

(** The guard of all runs. *)
Definition any_event (e : event) : bool := true.

(** Every event of every run of [m] satisfies [P]. *)
Definition emits {W : Type} `{!World W} {L A : Type} (P : event -> Prop)
           (m : PyM W L A) : Prop :=
  forall l, wpg any_event m (fun _ _ t => Forall P t) l.

(** What one item leaves in the locals when the loop goes on to the next
    one: one more entry, for that item. *)
Definition recorded_one (n : Z) (l l' : locals) : Prop :=
  map lottery (lottery_results l') = map lottery (lottery_results l) ++ [n]
  /\ completed_lotteries l' ⊆ completed_lotteries l ∪ {[n]}
  /\ reload_occurred l' = reload_occurred l
  /\ retry_attempt l' = retry_attempt l.

(** What a reload leaves: the pass is to be restarted. *)
Definition restarted (l l' : locals) : Prop :=
  reload_occurred l' = true /\ retry_attempt l' = S (retry_attempt l).

(** What the checks made after a pass keep. *)
Definition keeps_entries (l l' : locals) : Prop :=
  map lottery (lottery_results l') = map lottery (lottery_results l)
  /\ retry_attempt l' = retry_attempt l.

(** The counters of the retry loop are those of [l]. *)
Definition same_counters (l l' : locals) : Prop :=
  checked_count l' = checked_count l
  /\ reload_occurred l' = reload_occurred l
  /\ retry_attempt l' = retry_attempt l.

(** How an item leaves the loop over the items. *)
Definition item_step (l : locals) (r : exn + loop_ctl unit) (l' : locals) : Prop :=
  match r with
  | inl _ => same_counters l l'
  | inr Continue => same_counters l l'
  | inr Break => restarted l l'
  | inr (Return _) => False
  end.

(** How the classification of an item leaves the loop over the items. *)
Definition item_checked (l : locals) (r : exn + loop_ctl unit) (l' : locals) : Prop :=
  match r with
  | inl _ => True
  | inr Continue => same_counters (set_checked_count S l) l'
  | inr Break => restarted l l'
  | inr (Return _) => False
  end.

(** How a pass over the items leaves the counters. *)
Definition pass_counted (l : locals) (n : nat) (l' : locals) : Prop :=
  (checked_count l' = (checked_count l + n)%nat
   /\ reload_occurred l' = reload_occurred l
   /\ retry_attempt l' = retry_attempt l)
  \/ restarted l l'.

(** Where a block of the body of the retry loop leaves the loop. *)
Definition block_flow (through : Prop) (l : locals) (r : exn + flow) (l' : locals) : Prop :=
  match r with
  | inl _ => True
  | inr FallThrough => through
  | inr LoopContinue => retry_attempt l' = S (retry_attempt l)
  | inr LoopBreak => True
  end.

(** * Properties *)

(** ** Traces *)

Lemma count_events_app p t1 t2 :
  count_events p (t1 ++ t2) = (count_events p t1 + count_events p t2)%nat.
Proof. induction t1 as [|e t1 IH]; simpl; [reflexivity|]. rewrite IH. lia. Qed.

Lemma overlay_checks_app id msg t1 t2 :
  overlay_checks id msg (t1 ++ t2) = overlay_checks id msg t1 ++ overlay_checks id msg t2.
Proof. unfold overlay_checks. now rewrite map_app, concat_app. Qed.

Lemma forallb_any t : forallb any_event t = true.
Proof. now induction t. Qed.

(** ** Rules of the calculus *)

Section LogicRules.
Context {W : Type} `{!World W}.
Variable G : event -> bool.

Lemma wpg_run {L A} (m : PyM W L A) P l w r l' w' t :
  wpg G m P l -> m l w = (r, l', w', t) -> forallb G t = true -> P r l' t.
Proof. intros H E. specialize (H w). now rewrite E in H. Qed.

Lemma wpg_conseq {L A} (m : PyM W L A) (P P' : exn + A -> L -> list event -> Prop) l :
  wpg G m P l ->
  (forall r l' t, forallb G t = true -> P r l' t -> P' r l' t) ->
  wpg G m P' l.
Proof.
  intros H HP w. specialize (H w). destruct (m l w) as [[[r l'] w'] t]. auto.
Qed.

Lemma wpg_ret {L A} (a : A) (P : exn + A -> L -> list event -> Prop) l :
  P (inr a) l [] -> wpg (W:=W) G (ret a) P l.
Proof. intros H w _. exact H. Qed.

Lemma wpg_raise {L A} (e : exn) (P : exn + A -> L -> list event -> Prop) l :
  P (inl e) l [] -> wpg (W:=W) G (raise e) P l.
Proof. intros H w _. exact H. Qed.

Lemma wpg_bind {L A B} (m : PyM W L A) (k : A -> PyM W L B)
      (P : exn + B -> L -> list event -> Prop) l :
  wpg G m (fun r l1 t1 =>
             match r with
             | inl e => P (inl e) l1 t1
             | inr a => wpg G (k a) (fun r2 l2 t2 => P r2 l2 (t1 ++ t2)) l1
             end) l ->
  wpg G (bind m k) P l.
Proof.
  intros H w. specialize (H w). unfold bind.
  destruct (m l w) as [[[[e|a] l1] w1] t1]; [exact H|].
  destruct (k a l1 w1) as [[[r2 l2] w2] t2] eqn:E.
  rewrite forallb_app. intros [H1 H2]%andb_prop.
  exact (wpg_run _ _ _ _ _ _ _ _ (H H1) E H2).
Qed.

Lemma wpg_try {L A} (m : PyM W L A) (h : exn -> PyM W L A)
      (P : exn + A -> L -> list event -> Prop) l :
  wpg G m (fun r l1 t1 =>
             match r with
             | inl e => wpg G (h e) (fun r2 l2 t2 => P r2 l2 (t1 ++ t2)) l1
             | inr a => P (inr a) l1 t1
             end) l ->
  wpg G (try_except m h) P l.
Proof.
  intros H w. specialize (H w). unfold try_except.
  destruct (m l w) as [[[[e|a] l1] w1] t1]; [|exact H].
  destruct (h e l1 w1) as [[[r2 l2] w2] t2] eqn:E.
  rewrite forallb_app. intros [H1 H2]%andb_prop.
  exact (wpg_run _ _ _ _ _ _ _ _ (H H1) E H2).
Qed.

Lemma wpg_perform {L A} (o : op A) (P : exn + A -> L -> list event -> Prop) l :
  (forall r, G (Ev o r) = true -> P r l [Ev o r]) -> wpg G (perform o) P l.
Proof.
  intros H w. unfold perform. destruct (handle o w) as [r w1].
  simpl. rewrite andb_true_r. apply H.
Qed.

Lemma wpg_get_locals {L} (P : exn + L -> L -> list event -> Prop) l :
  P (inr l) l [] -> wpg (W:=W) G get_locals P l.
Proof. intros H w _. exact H. Qed.

Lemma wpg_modify {L} (f : L -> L) (P : exn + unit -> L -> list event -> Prop) l :
  P (inr tt) (f l) [] -> wpg (W:=W) G (modify f) P l.
Proof. intros H w _. exact H. Qed.

Lemma wpg_call_with {L L0 A} (l0 : L0) (m : PyM W L0 A)
      (P : exn + A -> L -> list event -> Prop) l :
  wpg G m (fun r _ t => P r l t) l0 -> wpg G (call_with l0 m) P l.
Proof.
  intros H w. specialize (H w). unfold call_with.
  destruct (m l0 w) as [[[r l1] w1] t1]. exact H.
Qed.

(** A proved specification [S] of [m] used in front of a continuation. *)
Lemma wpg_bind_spec {L A B} (m : PyM W L A) (k : A -> PyM W L B)
      (S : exn + A -> L -> list event -> Prop)
      (P : exn + B -> L -> list event -> Prop) l :
  wpg G m S l ->
  (forall r l1 t1, forallb G t1 = true -> S r l1 t1 ->
     match r with
     | inl e => P (inl e) l1 t1
     | inr a => wpg G (k a) (fun r2 l2 t2 => P r2 l2 (t1 ++ t2)) l1
     end) ->
  wpg G (bind m k) P l.
Proof.
  intros HS HK. apply wpg_bind. eapply wpg_conseq; [exact HS|].
  intros r l1 t1 HG H. now apply HK.
Qed.

Lemma wpg_try_spec {L A} (m : PyM W L A) (h : exn -> PyM W L A)
      (S : exn + A -> L -> list event -> Prop)
      (P : exn + A -> L -> list event -> Prop) l :
  wpg G m S l ->
  (forall r l1 t1, forallb G t1 = true -> S r l1 t1 ->
     match r with
     | inl e => wpg G (h e) (fun r2 l2 t2 => P r2 l2 (t1 ++ t2)) l1
     | inr a => P (inr a) l1 t1
     end) ->
  wpg G (try_except m h) P l.
Proof.
  intros HS HK. apply wpg_try. eapply wpg_conseq; [exact HS|].
  intros r l1 t1 HG H. now apply HK.
Qed.

End LogicRules.

(** One step of symbolic execution. *)
Ltac wp_step :=
  lazymatch goal with
  | |- wpg _ (bind _ _) _ _ => apply wpg_bind
  | |- wpg _ (try_except _ _) _ _ => apply wpg_try
  | |- wpg _ (perform _) _ _ => apply wpg_perform
  | |- wpg _ (ret _) _ _ => apply wpg_ret
  | |- wpg _ (raise _) _ _ => apply wpg_raise
  | |- wpg _ get_locals _ _ => apply wpg_get_locals
  | |- wpg _ (modify _) _ _ => apply wpg_modify
  | |- wpg _ (call_with _ _) _ _ => apply wpg_call_with
  end; cbv beta iota zeta.

Section QuietFacts.
Context {W : Type} `{!World W}.

(** In a quiet run [check_stop] performs one stop check and returns. *)
Lemma check_stop_quiet :
  wpg (W:=W) answered_ok check_stop
      (fun r _ t => r = inr tt /\ t = [Ev StopCheck (inr true)]) tt.
Proof.
  unfold check_stop. repeat wp_step. intros [e|[|]] Hr; try discriminate Hr.
  wp_step. now split.
Qed.

End QuietFacts.

(** Exploration of every path of a loop-free program: [leaf] closes the
    goals about results and traces. *)
Ltac wp_branch :=
  lazymatch goal with
  | |- wpg _ (if ?b then _ else _) _ _ => destruct b eqn:?
  | |- wpg _ (match ?x with _ => _ end) _ _ => destruct x eqn:?
  | |- forall r : _ + _, _ -> _ =>
      let e := fresh "e" in let a := fresh "a" in let Hg := fresh "Hg" in
      intros [e|a] Hg; cbn in Hg; try discriminate Hg
  end; cbv beta iota zeta.

Ltac wp_auto leaf := repeat first [wp_step | wp_branch]; try solve [leaf].

(** ** Programs whose events all satisfy a predicate *)

Section Emits.
Context {W : Type} `{!World W}.
Variable P : event -> Prop.

Lemma emits_bind_spec {L A B} (m : PyM W L A) (k : A -> PyM W L B)
      (Q : exn + B -> L -> list event -> Prop) l :
  emits P m ->
  (forall r l1 t1, Forall P t1 ->
     match r with
     | inl e => Q (inl e) l1 t1
     | inr a => wpg any_event (k a) (fun r2 l2 t2 => Q r2 l2 (t1 ++ t2)) l1
     end) ->
  wpg any_event (bind m k) Q l.
Proof.
  intros Hm Hk. eapply wpg_bind_spec; [apply Hm|]. intros r l1 t1 _ H. now apply Hk.
Qed.

Lemma emits_try_spec {L A} (m : PyM W L A) (h : exn -> PyM W L A)
      (Q : exn + A -> L -> list event -> Prop) l :
  emits P m ->
  (forall r l1 t1, Forall P t1 ->
     match r with
     | inl e => wpg any_event (h e) (fun r2 l2 t2 => Q r2 l2 (t1 ++ t2)) l1
     | inr a => Q (inr a) l1 t1
     end) ->
  wpg any_event (try_except m h) Q l.
Proof.
  intros Hm Hk. eapply wpg_try_spec; [apply Hm|]. intros r l1 t1 _ H. now apply Hk.
Qed.

Lemma emits_tail {L A} (m : PyM W L A) (Q : exn + A -> L -> list event -> Prop) l :
  emits P m ->
  (forall r l1 t1, Forall P t1 -> Q r l1 t1) ->
  wpg any_event m Q l.
Proof. intros Hm HQ. eapply wpg_conseq; [apply Hm|]. intros r l1 t1 _ H. now apply HQ. Qed.

Lemma emits_call {L A} (m : PyM W unit A) : emits P m -> emits P (L:=L) (call m).
Proof. intros H l. apply wpg_call_with. apply H. Qed.

End Emits.

Create HintDb emits discriminated.
#[export] Hint Resolve emits_call : emits.

Ltac emits_leaf :=
  intros; rewrite ?app_nil_r; rewrite ?Forall_app, ?Forall_cons, ?Forall_nil;
  cbn; intuition auto; try exact I; try reflexivity.

(** Symbolic execution that uses the [emits] facts of the hint database
    for the functions called. *)
Ltac destruct_units :=
  repeat match goal with u : unit |- _ => destruct u end.

Ltac emits_known :=
  lazymatch goal with
  | |- wpg any_event (bind _ _) _ _ =>
      eapply emits_bind_spec; [solve [eauto with emits]|];
      intros [?|?] ? ? ?; cbv beta iota zeta
  | |- wpg any_event (try_except _ _) _ _ =>
      eapply emits_try_spec; [solve [eauto with emits]|];
      intros [?|?] ? ? ?; cbv beta iota zeta
  | |- wpg any_event _ _ _ =>
      eapply emits_tail; [solve [eauto with emits]|];
      intros [?|?] ? ? ?; cbv beta iota zeta
  end; destruct_units.

Ltac emits_auto := repeat first [emits_known | wp_step | wp_branch]; try solve [emits_leaf].

(** ** Stop checks and waits *)

Section StopChecks.
Context {W : Type} `{!World W}.
Variable P : event -> Prop.
Hypothesis P_stop : forall r, P (Ev StopCheck r).

Lemma check_stop_emits : emits (W:=W) P check_stop.
Proof. intros []. unfold check_stop. emits_auto. Qed.

Lemma wait_checking_emits n : emits (W:=W) P (wait_checking n).
Proof.
  pose proof check_stop_emits.
  induction n as [|n IH]; intros []; cbn [wait_checking]; emits_auto.
Qed.

End StopChecks.

(** ** The CAPTCHA solver *)

Section CaptchaProofs.
Context {W : Type} `{!World W}.
Variable min_score : float.

Local Abbreviation P := (submits_min_score min_score).

Lemma check_stop_submits : emits (W:=W) P check_stop.
Proof. now apply check_stop_emits. Qed.
Hint Resolve check_stop_submits : emits.

Lemma wait_checking_submits n : emits (W:=W) P (wait_checking n).
Proof. now apply wait_checking_emits. Qed.
Hint Resolve wait_checking_submits : emits.

Lemma poll_body_submits max_retries api_key attempt task_id :
  emits (W:=W) P (poll_body max_retries api_key attempt task_id).
Proof.
  intros []. unfold poll_body, try_request. emits_auto.
Qed.
Hint Resolve poll_body_submits : emits.

Lemma poll_loop_submits max_retries api_key attempt remaining task_id :
  emits (W:=W) P (poll_loop max_retries api_key attempt remaining task_id).
Proof.
  induction remaining as [|n IH]; intros []; cbn [poll_loop]; emits_auto.
Qed.
Hint Resolve poll_loop_submits : emits.

Lemma attempt_body_submits site_key url max_retries page_action api_key attempt :
  emits (W:=W) P
        (attempt_body site_key url max_retries min_score page_action api_key attempt).
Proof.
  intros []. unfold attempt_body, attempt_try_block, try_request. emits_auto.
Qed.
Hint Resolve attempt_body_submits : emits.

Lemma solve_attempts_submits site_key url max_retries page_action api_key remaining attempt :
  emits (W:=W) P
        (solve_attempts site_key url max_retries min_score page_action api_key
                        remaining attempt).
Proof.
  revert attempt.
  induction remaining as [|n IH]; intros attempt []; cbn [solve_attempts]; emits_auto.
Qed.

End CaptchaProofs.

(** Every task that [solve_recaptcha] submits carries the coerced score. *)
Lemma solve_recaptcha_submits {W : Type} `{!World W} api_key site_key url driver
      max_retries min_score page_action :
  emits (W:=W)
        (submits_min_score (if negb (min_score_allowed min_score)
                            then 0.9%float else min_score))
        (solve_recaptcha api_key site_key url driver max_retries min_score page_action).
Proof.
  pose proof (solve_attempts_submits (W:=W)) as Hs.
  intros []. unfold solve_recaptcha. emits_auto.
Qed.

(** ** Polling for the token *)

Lemma poll_answers_app t1 t2 :
  poll_answers (t1 ++ t2) = poll_answers t1 ++ poll_answers t2.
Proof. unfold poll_answers. now rewrite map_app, concat_app. Qed.

(** A run without polls takes nothing. *)
Lemma takes_token_nil tok taken t :
  poll_answers t = [] -> takes_token tok taken t.
Proof.
  intros E ps rdy rest rest' _ _ _. left. exists [], ps. now rewrite E.
Qed.

(** Sequencing: what follows runs only if the first part did not take the
    token. *)
Lemma takes_token_app tok (taken1 taken : Prop) t1 t2 :
  takes_token tok taken1 t1 ->
  (taken1 -> taken /\ poll_answers t2 = []) ->
  takes_token tok taken t2 ->
  takes_token tok taken (t1 ++ t2).
Proof.
  intros H1 Hstop H2 ps rdy rest rest' Hps Hrdy E.
  rewrite poll_answers_app, <- app_assoc in E.
  destruct (H1 ps rdy _ _ Hps Hrdy E) as [(ps1 & ps2 & -> & E1)|[Ht E1]].
  - rewrite E1, map_app, <- app_assoc in E. apply app_inv_head in E.
    apply Forall_app in Hps as [_ Hps2].
    destruct (H2 ps2 rdy _ _ Hps2 Hrdy E) as [(ps3 & ps4 & -> & E2)|[Ht E2]].
    + left. exists (ps1 ++ ps3), ps4. split; [now rewrite app_assoc|].
      now rewrite poll_answers_app, E1, E2, map_app.
    + right. split; [exact Ht|].
      now rewrite poll_answers_app, E1, E2, map_app, app_assoc.
  - destruct (Hstop Ht) as [Hk E2]. right. split; [exact Hk|].
    now rewrite poll_answers_app, E1, E2, app_nil_r.
Qed.

Lemma takes_token_weaken tok (taken1 taken : Prop) t :
  takes_token tok taken1 t -> (taken1 -> taken) -> takes_token tok taken t.
Proof.
  intros H Hw ps rdy rest rest' Hps Hrdy E.
  destruct (H ps rdy rest rest' Hps Hrdy E) as [?|[? ?]]; [now left|right; auto].
Qed.

(** A run with one poll takes the token if that poll is answered [ready]. *)
Lemma takes_token_single tok (taken : Prop) t a :
  poll_answers t = [a] ->
  (forall rdy, a = inr rdy -> is_ready tok rdy -> taken) ->
  takes_token tok taken t.
Proof.
  intros E Ht ps rdy rest rest' Hps Hrdy E'. rewrite E in E' |- *.
  destruct ps as [|p ps]; simpl in E'; injection E' as -> _.
  - right. split; [now apply (Ht rdy)|reflexivity].
  - left. now exists [p], ps.
Qed.

Lemma no_polls t : Forall no_poll t -> poll_answers t = [].
Proof.
  unfold poll_answers. induction 1 as [|e t He _ IH]; [reflexivity|].
  simpl. now rewrite He, IH.
Qed.

Ltac polls_compute :=
  rewrite ?poll_answers_app;
  repeat match goal with
         | H : Forall no_poll ?t |- _ => rewrite (no_polls t H) in *; clear H
         end;
  cbn; try reflexivity.

Section TokenProofs.
Context {W : Type} `{!World W}.
Variable tok : string.
Hypothesis tok_nonempty : tok <> "".

Lemma check_stop_no_poll : emits (W:=W) no_poll check_stop.
Proof. now apply check_stop_emits. Qed.
Hint Resolve check_stop_no_poll : emits.

Lemma wait_checking_no_poll n : emits (W:=W) no_poll (wait_checking n).
Proof. now apply wait_checking_emits. Qed.
Hint Resolve wait_checking_no_poll : emits.

Lemma poll_body_takes max_retries api_key attempt task_id :
  wpg (W:=W) any_event (poll_body max_retries api_key attempt task_id)
      (fun r _ t => takes_token tok (r = inr (Return tok)) t) tt.
Proof.
  unfold poll_body, try_request.
  emits_auto.
  all: first [ solve [apply takes_token_nil; polls_compute] | idtac ].
  all: eapply takes_token_single; [polls_compute|].
  all: intros rdy [= <-] (d' & sd & Hj & Hs & Hsol & Hgr & Htok).
  all: rewrite ?bool_decide_eq_true, ?bool_decide_eq_false in *; simplify_eq.
  all: repeat match goal with
              | H : context [tr_solution _] |- _ =>
                  tryif constr_eq H Hsol then fail else rewrite Hsol in H
              | H : context [gRecaptchaResponse _] |- _ =>
                  tryif constr_eq H Hgr then fail else rewrite Hgr in H
              | H : context [token _] |- _ =>
                  tryif constr_eq H Htok then fail else rewrite Htok in H
              end.
  all: simplify_eq; try congruence.
  all: match goal with
       | H : Str.truthy (Some ?x) = false, Hn : ?x <> "" |- _ =>
           unfold Str.truthy in H; destruct (String.eqb_spec x "");
           [contradiction|discriminate]
       end.
Qed.
Hint Resolve poll_body_takes : emits.

End TokenProofs.

Section TokenLoops.
Context {W : Type} `{!World W}.
Variable tok : string.
Hypothesis tok_nonempty : tok <> "".

Lemma poll_loop_takes max_retries api_key attempt remaining task_id :
  wpg (W:=W) any_event (poll_loop max_retries api_key attempt remaining task_id)
      (fun r _ t => takes_token tok (r = inr (Some tok)) t) tt.
Proof.
  pose proof (check_stop_no_poll (W:=W)). pose proof (wait_checking_no_poll (W:=W)).
  induction remaining as [|n IH]; cbn [poll_loop].
  - emits_auto. all: apply takes_token_nil; polls_compute.
  - eapply wpg_bind_spec; [apply (poll_body_takes tok tok_nonempty)|].
    intros [e|c] [] t1 _ H1; cbv beta iota.
    + eapply takes_token_weaken; [exact H1|]. discriminate.
    + destruct c as [| |s]; cbv beta iota.
      * eapply wpg_conseq; [apply IH|]. intros r [] t2 _ H2. cbv beta.
        eapply takes_token_app; [exact H1| |exact H2]. discriminate.
      * wp_step. rewrite app_nil_r.
        eapply takes_token_weaken; [exact H1|]. discriminate.
      * wp_step. rewrite app_nil_r.
        eapply takes_token_weaken; [exact H1|]. now intros [= ->].
Qed.

(** What precedes made no poll. *)
Lemma takes_token_after (taken : Prop) t1 t2 :
  poll_answers t1 = [] -> takes_token tok taken t2 -> takes_token tok taken (t1 ++ t2).
Proof.
  intros E H. eapply (takes_token_app tok False); [now apply takes_token_nil|tauto|exact H].
Qed.

(** What follows made no poll and kept the result. *)
Lemma takes_token_before (taken : Prop) t1 t2 :
  takes_token tok taken t1 -> poll_answers t2 = [] -> takes_token tok taken (t1 ++ t2).
Proof.
  intros H E. eapply takes_token_app; [exact H| |now apply takes_token_nil]. tauto.
Qed.

Ltac token_leaf :=
  first [ solve [apply takes_token_nil; polls_compute]
        | solve [eapply takes_token_weaken; [eassumption|discriminate]] ].

Lemma attempt_try_block_takes site_key url max_retries min_score page_action api_key attempt :
  wpg (W:=W) any_event
      (attempt_try_block site_key url max_retries min_score page_action api_key attempt)
      (fun r _ t => takes_token tok (r = inr (Some tok)) t) tt.
Proof.
  pose proof (check_stop_no_poll (W:=W)). pose proof (wait_checking_no_poll (W:=W)).
  unfold attempt_try_block, try_request. emits_auto.
  all: try token_leaf.
  eapply wpg_conseq; [apply poll_loop_takes|]. intros r [] t2 _ H2. cbv beta.
  apply takes_token_after; [polls_compute|exact H2].
Qed.

Lemma attempt_body_takes site_key url max_retries min_score page_action api_key attempt :
  wpg (W:=W) any_event
      (attempt_body site_key url max_retries min_score page_action api_key attempt)
      (fun r _ t => takes_token tok (r = inr (Some tok)) t) tt.
Proof.
  pose proof (check_stop_no_poll (W:=W)). pose proof (wait_checking_no_poll (W:=W)).
  unfold attempt_body.
  eapply wpg_try_spec; [apply attempt_try_block_takes|].
  intros [e|a] [] t1 _ H1; cbv beta iota; [|exact H1].
  emits_auto.
  all: apply takes_token_before; [|polls_compute].
  all: eapply takes_token_weaken; [exact H1|discriminate].
Qed.

Lemma solve_attempts_takes site_key url max_retries min_score page_action api_key
      remaining attempt :
  wpg (W:=W) any_event
      (solve_attempts site_key url max_retries min_score page_action api_key
                      remaining attempt)
      (fun r _ t => takes_token tok (r = inr tok) t) tt.
Proof.
  revert attempt. induction remaining as [|n IH]; intros attempt; cbn [solve_attempts].
  - wp_step. now apply takes_token_nil.
  - eapply wpg_bind_spec; [apply attempt_body_takes|].
    intros [e|[s|]] [] t1 _ H1; cbv beta iota.
    + eapply takes_token_weaken; [exact H1|discriminate].
    + wp_step. rewrite app_nil_r.
      eapply takes_token_weaken; [exact H1|]. now intros [= ->].
    + eapply wpg_conseq; [apply IH|]. intros r [] t2 _ H2. cbv beta.
      eapply takes_token_app; [exact H1|discriminate|exact H2].
Qed.

Lemma solve_recaptcha_takes api_key site_key url driver max_retries min_score page_action :
  wpg (W:=W) any_event
      (solve_recaptcha api_key site_key url driver max_retries min_score page_action)
      (fun r _ t => takes_token tok (r = inr tok) t) tt.
Proof.
  unfold solve_recaptcha. wp_auto idtac.
  all: try solve [now apply takes_token_nil].
  all: eapply wpg_conseq; [apply solve_attempts_takes|]; intros r [] t2 _ H2; cbv beta.
  all: apply takes_token_after; [reflexivity|exact H2].
Qed.

End TokenLoops.

(** ** The popup recovery handler *)

Section GuardFacts.
Context {W : Type} `{!World W}.

Lemma wpg_any_weaken G {L A} (m : PyM W L A) P l :
  wpg any_event m P l -> wpg G m P l.
Proof.
  intros H w. specialize (H w). destruct (m l w) as [[[r l'] w'] t].
  intros _. apply H, forallb_any.
Qed.

Lemma wpg_true G {L A} (m : PyM W L A) l : wpg G m (fun _ _ _ => True) l.
Proof. intros w. now destruct (m l w) as [[[r l'] w'] t]. Qed.

End GuardFacts.

(** Skips the program in front, of which nothing needs to be known. *)
Ltac wp_skip :=
  lazymatch goal with
  | |- wpg _ (bind _ _) _ _ =>
      eapply wpg_bind_spec; [apply wpg_true|]; intros [?|?] ? ? _ _; cbv beta iota zeta
  | |- wpg _ (try_except _ _) _ _ =>
      eapply wpg_try_spec; [apply wpg_true|]; intros [?|?] ? ? _ _; cbv beta iota zeta
  end; destruct_units.

Lemma pop04_checks_app t1 t2 : pop04_checks (t1 ++ t2) = pop04_checks t1 ++ pop04_checks t2.
Proof. apply overlay_checks_app. Qed.

Lemma idle_nil : idle [].
Proof. now split. Qed.

Lemma idle_app t1 t2 : idle t1 -> idle t2 -> idle (t1 ++ t2).
Proof.
  intros [H1 H2] [H3 H4]. split.
  - rewrite count_events_app. lia.
  - now rewrite pop04_checks_app, H2, H4.
Qed.

Lemma no_pop04_checks t : Forall no_pop04_check t -> pop04_checks t = [].
Proof.
  unfold pop04_checks, overlay_checks. induction 1 as [|e t He _ IH]; [reflexivity|].
  simpl. now rewrite He, IH.
Qed.

(** Rewrites, in the goal, the observations of a trace built from
    stretches with known observations and explicit events. *)
Ltac observe :=
  rewrite ?pop04_checks_app, ?count_events_app;
  repeat match goal with
         | H : idle ?t |- _ =>
             let H1 := fresh in let H2 := fresh in
             destruct H as [H1 H2]; rewrite ?H1, ?H2
         | H : Forall no_pop04_check ?t |- _ =>
             rewrite (no_pop04_checks t H); clear H
         | H : count_events is_reload ?t = _ |- context [count_events is_reload ?t] =>
             rewrite H
         | H : pop04_checks ?t = _ |- context [pop04_checks ?t] =>
             rewrite H
         end;
  cbn.

(** Uses a proved specification, from the hint database [quiet], for the
    program in front. *)
Ltac quiet_known :=
  lazymatch goal with
  | |- wpg answered_ok (bind _ _) _ _ =>
      eapply wpg_bind_spec; [solve [eauto with quiet]|]
  | |- wpg answered_ok (try_except _ _) _ _ =>
      eapply wpg_try_spec; [solve [eauto with quiet]|]
  end;
  let HS := fresh "HS" in
  intros ? ? ? _ HS; cbv beta in HS;
  repeat match type of HS with
         | _ /\ _ => let H1 := fresh "HS" in destruct HS as [H1 HS]
         end;
  repeat match goal with
         | H : ?r = inr _ |- _ => is_var r; subst r
         | H : ?r = inl _ |- _ => is_var r; subst r
         end;
  cbv beta iota zeta; destruct_units.

Ltac quiet_branch :=
  lazymatch goal with
  | |- wpg _ (if ?b then _ else _) _ _ => destruct b eqn:?
  | |- wpg _ (match ?x with _ => _ end) _ _ => destruct x eqn:?
  | |- forall r : _ + _, _ -> _ =>
      let e := fresh "e" in let a := fresh "a" in let Hg := fresh "Hg" in
      intros [e|a] Hg; cbn in Hg; try discriminate Hg;
      try match type of Hg with ?x = true => is_var x; subst x end
  end; cbv beta iota zeta; destruct_units.

Create HintDb quiet discriminated.

Ltac quiet_auto := repeat first [quiet_known | wp_step | quiet_branch].

Section QuietPopup.
Context {W : Type} `{!World W}.

Lemma check_stop_idle :
  wpg (W:=W) answered_ok check_stop (fun r _ t => r = inr tt /\ idle t) tt.
Proof. unfold check_stop. quiet_auto. split; [reflexivity|now split]. Qed.
Hint Resolve check_stop_idle : quiet.

Lemma wait_checking_idle n :
  wpg (W:=W) answered_ok (wait_checking n) (fun r _ t => r = inr tt /\ idle t) tt.
Proof.
  induction n as [|n IH]; cbn [wait_checking]; quiet_auto.
  - split; [reflexivity|apply idle_nil].
  - eapply wpg_conseq; [apply IH|]. intros r [] t _ [-> Ht]. split; [reflexivity|].
    now apply idle_app.
Qed.
Hint Resolve wait_checking_idle : quiet.

Lemma try_close_idle id :
  wpg (W:=W) answered_ok (try_close id) (fun r _ t => r = inr tt /\ idle t) tt.
Proof. unfold try_close. quiet_auto. split; [reflexivity|now split]. Qed.
Hint Resolve try_close_idle : quiet.

(** In a quiet run the page is reloaded by [driver.refresh()] alone. *)
Lemma reload_page_quiet :
  wpg (W:=W) answered_ok reload_page
      (fun r _ t => r = inr true /\ count_events is_reload t = 1%nat /\ pop04_checks t = []) tt.
Proof.
  unfold reload_page. quiet_auto. observe. repeat split; reflexivity.
Qed.
Hint Resolve reload_page_quiet : quiet.

(** The re-check of pop04 in a quiet run. *)
Lemma recheck_pop04_quiet max_reload_attempts reload_attempt :
  wpg (W:=W) answered_ok
      (recheck_after_reload "pop04" EXCEPTION_MESSAGE max_reload_attempts reload_attempt)
      (fun r _ t =>
         count_events is_reload t = 0%nat
         /\ (r = inr Continue /\ pop04_checks t = [Matches]
             /\ (reload_attempt <? max_reload_attempts)%nat = true
             \/ r = inr (Return true) /\ pop04_checks t = [Cleared]
             \/ r = inr (Return true) /\ pop04_checks t = [Matches]
                /\ (reload_attempt <? max_reload_attempts)%nat = false)) tt.
Proof.
  unfold recheck_after_reload. quiet_auto.
  all: observe.
  all: repeat match goal with H : Str.contains _ _ = _ |- _ => rewrite H end.
  all: split; [reflexivity|]; auto 10.
Qed.

(** The reload loop for pop04 in a quiet run: it ends at the first check
    that finds the message gone, after one reload per check, or at the
    last attempt. *)
Lemma reload_loop_pop04_quiet max_reload_attempts remaining reload_attempt :
  (remaining + reload_attempt = max_reload_attempts)%nat ->
  wpg (W:=W) answered_ok
      (reload_loop "pop04" EXCEPTION_MESSAGE max_reload_attempts remaining reload_attempt)
      (fun r _ t =>
         r = inr None /\ t = [] /\ remaining = O
         \/ r = inr (Some true)
            /\ exists j, count_events is_reload t = S j
                         /\ (pop04_checks t = repeat Matches j ++ [Cleared]
                             \/ pop04_checks t = repeat Matches (S j))) tt.
Proof.
  revert reload_attempt.
  induction remaining as [|n IH]; intros k Hinv; cbn [reload_loop].
  { wp_step. now left. }
  quiet_known. wp_step. wp_step. quiet_branch. quiet_known. quiet_known.
  eapply wpg_bind_spec; [apply recheck_pop04_quiet|].
  intros r [] t5 _ (Hc & [(-> & Hch & Hlt)|[(-> & Hch)|(-> & Hch & Hlt)]]); cbv beta iota.
  - eapply wpg_conseq; [apply (IH (S k)); lia|].
    intros r [] t6 _ [(-> & -> & Hn)|(-> & j & Hr & Hch6)].
    { exfalso. apply Nat.ltb_lt in Hlt. lia. }
    right. split; [reflexivity|]. exists (S j). split.
    + observe. lia.
    + observe. destruct Hch6 as [->| ->]; [left|right]; reflexivity.
  - wp_step. right. split; [reflexivity|]. exists O. split; observe; auto.
  - wp_step. right. split; [reflexivity|]. exists O. split; observe; auto.
Qed.

(** The treatment of a displayed pop04 in a quiet run. *)
Lemma handle_pop04_quiet max_reload_attempts :
  wpg (W:=W) answered_ok
      (handle_overlay "pop04" EXCEPTION_MESSAGE max_reload_attempts)
      (fun r _ t =>
         r = inr (Some false) /\ pop04_checks t = [Cleared]
         \/ r = inr None /\ pop04_checks t = [Matches]
         \/ r = inr (Some true)
            /\ exists j, count_events is_reload t = S j
                         /\ (pop04_checks t = Matches :: repeat Matches j ++ [Cleared]
                             \/ pop04_checks t = Matches :: repeat Matches (S j))) tt.
Proof.
  unfold handle_overlay. wp_step. wp_step. wp_step. quiet_branch. quiet_branch.
  - eapply wpg_conseq; [now apply reload_loop_pop04_quiet|].
    intros r [] t2 _ [(-> & -> & _)|(-> & j & Hr & Hch)]; cbv beta iota.
    + right; left. split; [reflexivity|]. observe. now rewrite Heqb.
    + right; right. split; [reflexivity|]. exists j. split; [observe; reflexivity|].
      observe. rewrite Heqb. destruct Hch as [->| ->]; [left|right]; reflexivity.
  - quiet_auto. left. split; [reflexivity|]. observe. now rewrite Heqb.
Qed.

(** The check of pop04 in a quiet run that sees the exception message
    twice and then sees it gone. *)
Lemma check_pop04_quiet max_reload_attempts :
  wpg (W:=W) answered_ok (check_pop04 max_reload_attempts)
      (fun r _ t =>
         pop04_checks t = [Matches; Matches; Cleared] ->
         r = inr true /\ count_events is_reload t = 2%nat) tt.
Proof.
  unfold check_pop04. wp_step. wp_step. quiet_branch. quiet_known.
  wp_step. wp_step. quiet_branch. quiet_branch.
  - eapply wpg_bind_spec; [apply handle_pop04_quiet|].
    intros r [] t4 _ [(-> & Hch)|[(-> & Hch)|(-> & j & Hr & Hch)]]; cbv beta iota.
    + wp_step. observe. discriminate.
    + wp_step. observe. discriminate.
    + wp_step. observe.
      destruct Hch as [Hch|Hch]; rewrite Hch in *; destruct j as [|[|j]];
        cbn; try discriminate.
      all: try (destruct j; discriminate).
      intros _. split; reflexivity.
  - wp_step. observe. discriminate.
Qed.

End QuietPopup.

Section Pop05.
Context {W : Type} `{!World W}.

(** The re-check never asks to leave the loop, and asks for another
    round only while attempts remain. *)
Lemma recheck_ctl id message max_reload_attempts reload_attempt :
  wpg (W:=W) any_event
      (recheck_after_reload id message max_reload_attempts reload_attempt)
      (fun r _ _ => r <> inr Break
                    /\ (r = inr Continue ->
                        (reload_attempt <? max_reload_attempts)%nat = true)) tt.
Proof.
  unfold recheck_after_reload, try_close. wp_auto idtac.
  all: split; [discriminate|]; try discriminate; auto.
Qed.

(** The reload loop runs out only when there is nothing to run. *)
Lemma reload_loop_none id message max_reload_attempts remaining reload_attempt :
  (remaining + reload_attempt = max_reload_attempts)%nat ->
  wpg (W:=W) any_event
      (reload_loop id message max_reload_attempts remaining reload_attempt)
      (fun r _ t => r = inr None -> remaining = O /\ t = []) tt.
Proof.
  revert reload_attempt.
  induction remaining as [|n IH]; intros k Hinv; cbn [reload_loop].
  { wp_step. auto. }
  assert (Hrec : (S k <? max_reload_attempts)%nat = true ->
                 wpg (W:=W) any_event
                   (reload_loop id message max_reload_attempts n (S k))
                   (fun r _ _ => r <> inr None) tt).
  { intros Hlt. eapply wpg_conseq; [apply (IH (S k)); lia|].
    intros r [] t _ H Hr. destruct (H Hr) as [-> _].
    apply Nat.ltb_lt in Hlt. lia. }
  wp_skip; [discriminate|]. wp_step. wp_step. wp_branch; [discriminate|].
  wp_skip; [discriminate|]. wp_branch.
  - wp_skip; [discriminate|].
    eapply wpg_bind_spec; [apply recheck_ctl|].
    intros [e|[| |rb]] [] t5 _ [Hb Hc]; cbv beta iota; try discriminate.
    + eapply wpg_conseq; [apply Hrec; auto|]. intros r [] t6 _ H Hr. contradiction.
    + congruence.
  - wp_branch.
    + eapply wpg_conseq; [apply Hrec; auto|]. intros r [] t6 _ H Hr. contradiction.
    + unfold try_close. wp_auto idtac. all: discriminate.
Qed.

Local Abbreviation P := no_pop04_check.

Lemma check_stop_no_pop04 : emits (W:=W) P check_stop.
Proof. now apply check_stop_emits. Qed.
Hint Resolve check_stop_no_pop04 : emits.

Lemma wait_checking_no_pop04 n : emits (W:=W) P (wait_checking n).
Proof. now apply wait_checking_emits. Qed.
Hint Resolve wait_checking_no_pop04 : emits.

Lemma try_close_no_pop04 id : emits (W:=W) P (try_close id).
Proof. intros []. unfold try_close. emits_auto. Qed.
Hint Resolve try_close_no_pop04 : emits.

Lemma reload_page_no_pop04 : emits (W:=W) P reload_page.
Proof. intros []. unfold reload_page. emits_auto. Qed.
Hint Resolve reload_page_no_pop04 : emits.

Lemma recheck_pop05_no_pop04 max_reload_attempts reload_attempt :
  emits (W:=W) P
        (recheck_after_reload "pop05" TIMEOUT_MESSAGE max_reload_attempts reload_attempt).
Proof. intros []. unfold recheck_after_reload. emits_auto. Qed.
Hint Resolve recheck_pop05_no_pop04 : emits.

Lemma reload_loop_pop05_no_pop04 max_reload_attempts remaining reload_attempt :
  emits (W:=W) P
        (reload_loop "pop05" TIMEOUT_MESSAGE max_reload_attempts remaining reload_attempt).
Proof.
  revert reload_attempt.
  induction remaining as [|n IH]; intros k []; cbn [reload_loop]; emits_auto.
Qed.
Hint Resolve reload_loop_pop05_no_pop04 : emits.

Lemma handle_pop05_no_pop04 max_reload_attempts :
  emits (W:=W) P (handle_overlay "pop05" TIMEOUT_MESSAGE max_reload_attempts).
Proof. intros []. unfold handle_overlay. emits_auto. Qed.

(** When the treatment of an overlay leaves the matter to what follows,
    it has not reloaded the page. *)
Lemma handle_overlay_none id message max_reload_attempts :
  wpg (W:=W) any_event (handle_overlay id message max_reload_attempts)
      (fun r _ t => r = inr None -> count_events is_reload t = 0%nat) tt.
Proof.
  unfold handle_overlay, try_close. wp_step. wp_step. wp_step. wp_branch.
  - wp_auto idtac. all: discriminate.
  - wp_branch.
    + eapply wpg_conseq; [now apply reload_loop_none|].
      intros [e|r] [] t2 _ H; cbv beta iota.
      * wp_auto idtac. all: discriminate.
      * intros Hr. destruct (H Hr) as [_ ->]. reflexivity.
    + wp_auto idtac. all: discriminate.
Qed.

Lemma wpg_conj G {L A} (m : PyM W L A) (P1 P2 : exn + A -> L -> list event -> Prop) l :
  wpg G m P1 l -> wpg G m P2 l -> wpg G m (fun r l' t => P1 r l' t /\ P2 r l' t) l.
Proof.
  intros H1 H2 w. specialize (H1 w). specialize (H2 w).
  destruct (m l w) as [[[r l'] w'] t]. auto.
Qed.

End Pop05.

(** ** The login phase *)

Lemma no_item_events t : Forall no_item_event t -> count_events is_item_event t = 0%nat.
Proof.
  induction 1 as [|e t He _ IH]; [reflexivity|]. cbn. now rewrite He, IH.
Qed.

Section Login.
Context {W : Type} `{!World W}.
Variable EMAIL : string.

Ltac login_explore :=
  repeat first
         [ lazymatch goal with
           | |- wpg _ (bind check_stop _) _ _ => wp_skip
           | |- wpg _ (bind (wait_checking _) _) _ _ => wp_skip
           | |- wpg _ (bind (otp_loop _ _) _) _ _ => wp_skip
           end
         | wp_step | wp_branch ].

(** An attempt asks for another one only while attempts remain. *)
Lemma login_attempt_ctl attempt :
  wpg (W:=W) any_event (login_attempt EMAIL attempt)
      (fun r _ _ => r = inr Continue -> (attempt <? max_login_attempts)%nat = true) tt.
Proof.
  unfold login_attempt, retry_or_fail. login_explore.
  all: first [discriminate | intros _; assumption].
Qed.

(** The login loop authenticates or raises: it never runs out. *)
Lemma login_loop_never_false remaining attempt :
  (remaining + attempt = S max_login_attempts)%nat -> (1 <= remaining)%nat ->
  wpg (W:=W) any_event (login_loop EMAIL remaining attempt)
      (fun r _ _ => r <> inr false) tt.
Proof.
  revert attempt. induction remaining as [|n IH]; intros k Hinv Hpos; [lia|].
  cbn [login_loop].
  eapply wpg_bind_spec; [apply login_attempt_ctl|].
  intros [e|c] [] t1 _ Hc; cbv beta iota; [discriminate|].
  destruct c; try (wp_step; discriminate).
  specialize (Hc eq_refl). apply Nat.ltb_lt in Hc.
  eapply wpg_conseq; [apply (IH (S k)); lia|]. auto.
Qed.

Local Abbreviation P := no_item_event.

Lemma check_stop_no_item : emits (W:=W) P check_stop.
Proof. now apply check_stop_emits. Qed.
Hint Resolve check_stop_no_item : emits.

Lemma wait_checking_no_item n : emits (W:=W) P (wait_checking n).
Proof. now apply wait_checking_emits. Qed.
Hint Resolve wait_checking_no_item : emits.

Lemma otp_body_no_item otp_retry : emits (W:=W) P (otp_body otp_retry).
Proof. intros []. unfold otp_body, retry_or_break. emits_auto. Qed.
Hint Resolve otp_body_no_item : emits.

Lemma otp_loop_no_item remaining otp_retry : emits (W:=W) P (otp_loop remaining otp_retry).
Proof.
  revert otp_retry. induction remaining as [|n IH]; intros k []; cbn [otp_loop]; emits_auto.
Qed.
Hint Resolve otp_loop_no_item : emits.

Lemma login_attempt_no_item attempt : emits (W:=W) P (login_attempt EMAIL attempt).
Proof. intros []. unfold login_attempt, retry_or_fail. emits_auto. Qed.
Hint Resolve login_attempt_no_item : emits.

(** The login loop touches no lottery item. *)
Lemma login_loop_no_item remaining attempt :
  emits (W:=W) P (login_loop EMAIL remaining attempt).
Proof.
  revert attempt. induction remaining as [|n IH]; intros k []; cbn [login_loop]; emits_auto.
Qed.

End Login.

(** ** Runs in which every call is answered *)

Lemma forallb_andb {A} (f g : A -> bool) (xs : list A) :
  forallb (fun x => f x && g x) xs = forallb f xs && forallb g xs.
Proof.
  induction xs as [|x xs IH]; [reflexivity|]. cbn. rewrite IH.
  destruct (f x), (g x), (forallb f xs); reflexivity.
Qed.

Lemma filter_all {A} (P : A -> Prop) `{!forall x, Decision (P x)} (xs : list A) :
  (forall x, x ∈ xs -> P x) -> filter P xs = xs.
Proof.
  induction xs as [|x xs IH]; intros HP; [reflexivity|].
  rewrite filter_cons_True by (apply HP; left).
  f_equal. apply IH. intros y Hy. apply HP. now right.
Qed.

Create HintDb runs discriminated.

(** Uses a proved specification, from the hint database [runs], for the
    program in front. *)
Ltac run_known :=
  lazymatch goal with
  | |- wpg _ (bind (call_with _ _) _) _ _ =>
      apply wpg_bind; apply wpg_call_with; eapply wpg_conseq; [solve [eauto with runs]|]
  | |- wpg _ (bind _ _) _ _ =>
      eapply wpg_bind_spec; [solve [eauto with runs]|]
  | |- wpg _ (try_except _ _) _ _ =>
      eapply wpg_try_spec; [solve [eauto with runs]|]
  end;
  let HS := fresh "HS" in
  intros ? ? ? _ HS; cbv beta in HS;
  repeat match type of HS with
         | _ /\ _ => let H1 := fresh "HS" in destruct HS as [H1 HS]
         | exists _, _ => destruct HS as [? HS]
         end;
  repeat match goal with
         | H : ?r = inr _ |- _ => is_var r; subst r
         | H : ?r = inl _ |- _ => is_var r; subst r
         end;
  cbv beta iota zeta; destruct_units.

Section Runs.
Context {W : Type} `{!World W}.
Variable G : event -> bool.
Hypothesis G_ok : forall e, G e = true -> answered_ok e = true.

(** The answer of an operation in such a run. *)
Ltac answered :=
  let Hg := fresh "Hg" in let Hq := fresh "Hq" in
  intros [?|?] Hg; pose proof (G_ok _ Hg) as Hq; cbn in Hq; try discriminate Hq;
  try match type of Hq with ?x = true => is_var x; subst x end;
  cbv beta iota zeta.

Lemma check_stop_returns : wpg (W:=W) G check_stop (fun r _ _ => r = inr tt) tt.
Proof. unfold check_stop. wp_step. wp_step. answered. wp_step. reflexivity. Qed.
Hint Resolve check_stop_returns : runs.

Lemma wait_checking_returns n : wpg (W:=W) G (wait_checking n) (fun r _ _ => r = inr tt) tt.
Proof.
  induction n as [|n IH]; cbn [wait_checking]; [now wp_step|].
  run_known. eapply wpg_conseq; [apply IH|]. auto.
Qed.
Hint Resolve wait_checking_returns : runs.

Lemma ensure_apply_page_returns waits :
  wpg (W:=W) G (ensure_apply_page waits) (fun r _ _ => r = inr tt) tt.
Proof.
  unfold ensure_apply_page. wp_step. wp_step. answered.
  wp_branch; [|now wp_step].
  wp_skip; [now wp_step|]. now destruct_units.
Qed.

(** The popup handler returns in every run: its body is one [try] that
    catches everything. *)
Lemma handler_returns max_reload_attempts :
  wpg (W:=W) G (_check_and_handle_pop_exceptions max_reload_attempts)
      (fun r _ _ => exists b, r = inr b) tt.
Proof.
  unfold _check_and_handle_pop_exceptions. wp_skip; [wp_step|]; eauto.
Qed.

End Runs.

(** ** Every item is found completed *)

Section AllCompleted.
Context {W : Type} `{!World W}.

Local Abbreviation G := completed_run.

Lemma completed_run_ok e : G e = true -> answered_ok e = true.
Proof. now intros [? _]%andb_prop. Qed.

Hint Resolve completed_run_ok : runs.
Hint Resolve check_stop_returns wait_checking_returns ensure_apply_page_returns : runs.

(** The answer of a status check in such a run. *)
Ltac status_answer :=
  let Hg := fresh "Hg" in let Hc := fresh "Hc" in
  intros [?|[[label|] [|]]] Hg; apply andb_prop in Hg as [_ Hc]; cbn in Hc;
  try discriminate Hc; apply String.eqb_eq in Hc; subst label; cbv beta iota zeta.

Lemma classify_lottery_completed selected lottery_index lottery_number l :
  wpg (W:=W) G (classify_lottery selected lottery_index lottery_number)
      (fun r l' _ =>
         r = inr Continue
         /\ completed_lotteries l' = completed_lotteries l ∪ {[lottery_number]}
         /\ checked_count l' = S (checked_count l)
         /\ reload_occurred l' = reload_occurred l) l.
Proof.
  unfold classify_lottery. wp_step. wp_step. status_answer.
  wp_step. wp_step. cbn.
  rewrite bool_decide_eq_false_2 by discriminate.
  rewrite bool_decide_eq_true_2 by reflexivity.
  unfold append_result. repeat wp_step. now destruct l.
Qed.

Lemma process_selected_completed selected rest : forall lottery_index l,
  wpg (W:=W) G (process_selected selected rest lottery_index)
      (fun r l' _ =>
         r = inr tt
         /\ (forall n, n ∈ completed_lotteries l \/ n ∈ rest -> n ∈ completed_lotteries l')
         /\ checked_count l' = (checked_count l + length rest)%nat
         /\ reload_occurred l' = reload_occurred l) l.
Proof.
  induction rest as [|n rest IH]; intros idx l; cbn [process_selected].
  { wp_step. split; [reflexivity|]. split; [|split; [cbn; lia|reflexivity]].
    intros n [Hn|Hn]; [exact Hn|]. now apply elem_of_nil in Hn. }
  run_known. run_known. wp_step. wp_step. wp_branch.
  - apply bool_decide_eq_true_1 in Heqb. wp_step. wp_step.
    eapply wpg_conseq; [apply IH|]. intros ? ? ? _ (-> & Hc & Hn & Hr).
    split; [reflexivity|]. split; [|split].
    + intros x [Hx|Hx]; [apply Hc; now left|].
      apply elem_of_cons in Hx as [->|Hx]; apply Hc; [now left|now right].
    + rewrite Hn. cbn. lia.
    + rewrite Hr. reflexivity.
  - eapply wpg_bind_spec; [apply classify_lottery_completed|].
    intros ? ? ? _ (-> & Hc1 & Hn1 & Hr1). cbv beta iota.
    eapply wpg_conseq; [apply IH|]. intros ? ? ? _ (-> & Hc & Hn & Hr).
    split; [reflexivity|]. split; [|split].
    + intros x [Hx|Hx]; [apply Hc; left; rewrite Hc1; apply elem_of_union_l, Hx|].
      apply elem_of_cons in Hx as [->|Hx]; apply Hc; [left|now right].
      rewrite Hc1. apply elem_of_union_r, elem_of_singleton. reflexivity.
    + rewrite Hn, Hn1. cbn. lia.
    + now rewrite Hr, Hr1.
Qed.

Lemma recheck_open_completed rest : forall has_open_lotteries l,
  wpg (W:=W) G (recheck_open rest has_open_lotteries)
      (fun r l' _ => r = inr has_open_lotteries /\ l' = l) l.
Proof.
  induction rest as [|n rest IH]; intros b l; cbn [recheck_open]; [now wp_step|].
  run_known. wp_step. wp_step. status_answer. cbn.
  rewrite bool_decide_eq_false_2 by discriminate.
  eapply wpg_conseq; [apply IH|]. auto.
Qed.

Lemma verify_completed_completed rest : forall l,
  wpg (W:=W) G (verify_completed rest) (fun r l' _ => r = inr true /\ l' = l) l.
Proof.
  induction rest as [|n rest IH]; intros l; cbn [verify_completed]; [now wp_step|].
  run_known. wp_step. wp_step. status_answer. cbn.
  rewrite bool_decide_eq_true_2 by reflexivity. cbn.
  eapply wpg_conseq; [apply IH|]. auto.
Qed.

Lemma completion_block_completed selected l :
  (forall n, n ∈ selected -> n ∈ completed_lotteries l) ->
  wpg (W:=W) G (completion_block selected)
      (fun r l' _ =>
         r = inr LoopBreak /\ final_status l' = SUCCESS /\ final_message l' = "成功") l.
Proof.
  intros Hall. unfold completion_block.
  eapply wpg_bind_spec; [apply recheck_open_completed|].
  intros ? ? ? _ [-> ->]. cbv beta iota. wp_step. wp_step.
  rewrite (filter_all _ _ Hall), Nat.leb_refl.
  eapply wpg_bind_spec; [apply verify_completed_completed|].
  intros ? ? ? _ [-> ->]. cbv beta iota. repeat wp_step. now split.
Qed.

Lemma one_pass_completed selected l :
  wpg (W:=W) G (one_pass selected)
      (fun r l' _ =>
         r = inr LoopBreak /\ final_status l' = SUCCESS /\ final_message l' = "成功") l.
Proof.
  unfold one_pass. wp_step. wp_step. wp_step. wp_step. run_known.
  wp_step. wp_step. intros [e|a] [Hq _]%andb_prop; [discriminate Hq|].
  run_known. run_known.
  eapply wpg_bind_spec; [apply process_selected_completed|].
  intros ? ? ? _ (-> & Hc & Hn & Hr). cbv beta iota.
  wp_step. wp_step. cbn in Hn, Hr. rewrite Hr, Hn, Nat.leb_refl.
  eapply wpg_bind_spec; [apply completion_block_completed; intros n Hn'; apply Hc; now right|].
  intros ? ? ? _ (-> & Hs & Hm). cbv beta iota. now wp_step.
Qed.

Lemma retry_loop_completed selected fuel l :
  (retry_attempt l < max_retry_attempts)%nat ->
  wpg (W:=W) G (retry_loop selected (S fuel))
      (fun r l' _ =>
         r = inr tt /\ final_status l' = SUCCESS /\ final_message l' = "成功") l.
Proof.
  intros Hlt. cbn [retry_loop]. wp_step. wp_step.
  apply Nat.ltb_lt in Hlt. rewrite Hlt.
  eapply wpg_bind_spec; [apply one_pass_completed|].
  intros ? ? ? _ (-> & Hs & Hm). cbv beta iota. now wp_step.
Qed.

End AllCompleted.

(** ** One pass over the selected items *)

Section Passes.
Context {W : Type} `{!World W}.
Variable G : event -> bool.
Hypothesis G_ok : forall e, G e = true -> answered_ok e = true.

Hint Resolve check_stop_returns wait_checking_returns ensure_apply_page_returns : runs.

Ltac answered :=
  let Hg := fresh "Hg" in let Hq := fresh "Hq" in
  intros [?|?] Hg; pose proof (G_ok _ Hg) as Hq; cbn in Hq; try discriminate Hq;
  try match type of Hq with ?x = true => is_var x; subst x end;
  cbv beta iota zeta.

Lemma back_to_apply_page_returns selected lottery_index :
  wpg (W:=W) G (back_to_apply_page selected lottery_index) (fun r _ _ => r = inr tt) tt.
Proof.
  unfold back_to_apply_page. wp_branch; [|now wp_step].
  run_known. wp_skip; [now wp_step|]. now destruct_units.
Qed.

(** Every pass that gets past its first stop check starts with the
    CAPTCHA check of the apply page. *)
Lemma one_pass_starts selected l :
  wpg (W:=W) G (one_pass selected) (fun _ _ t => (1 <= passes t)%nat) l.
Proof.
  unfold one_pass. wp_step. wp_step. wp_step. wp_step. run_known.
  wp_step. wp_step. answered.
  eapply wpg_conseq; [apply wpg_true|]. intros ? ? ? _ _.
  unfold passes. rewrite !count_events_app. cbn. lia.
Qed.

Lemma retry_loop_starts selected fuel l :
  (retry_attempt l < max_retry_attempts)%nat ->
  wpg (W:=W) G (retry_loop selected (S fuel)) (fun _ _ t => (1 <= passes t)%nat) l.
Proof.
  intros Hlt. cbn [retry_loop]. wp_step. wp_step.
  apply Nat.ltb_lt in Hlt. rewrite Hlt.
  eapply wpg_bind_spec; [apply one_pass_starts|].
  intros [e|c] l1 t1 _ H1; cbv beta iota; [exact H1|].
  eapply wpg_conseq; [apply wpg_true|]. intros ? ? ? _ _.
  unfold passes in *. rewrite !count_events_app. lia.
Qed.

End Passes.

(** ** A batch that ends after one pass *)

Section SinglePass.
Context {W : Type} `{!World W}.

Local Abbreviation G := labelled_run.

Lemma labelled_run_ok e : G e = true -> answered_ok e = true.
Proof. now intros [? _]%andb_prop. Qed.

Hint Resolve labelled_run_ok : runs.
Hint Resolve check_stop_returns wait_checking_returns ensure_apply_page_returns
     back_to_apply_page_returns handler_returns : runs.

(** The answer of an operation in such a run. *)
Ltac answered :=
  let Hg := fresh "Hg" in let Hq := fresh "Hq" in let Hl := fresh "Hl" in
  intros [?|?] Hg; apply andb_prop in Hg as [Hq Hl]; cbn in Hq, Hl; try discriminate Hq;
  cbv beta iota zeta.

(** The answer of a status check in such a run. *)
Ltac status_answered label exists_ Hl :=
  let Hg := fresh "Hg" in let Hq := fresh "Hq" in
  intros [?|[label exists_]] Hg; apply andb_prop in Hg as [Hq Hl]; cbn in Hq, Hl;
  try discriminate Hq; cbv beta iota zeta; cbn [fst snd] in *.

Lemma recorded_one_append n st rsn l :
  recorded_one n l (set_results (fun rs => rs ++ [LotteryResult_ n st rsn]) l).
Proof.
  destruct l. unfold recorded_one. cbn. rewrite map_app. cbn.
  repeat split. apply union_subseteq_l.
Qed.

Lemma recorded_one_completed n st rsn l :
  recorded_one n l (set_results (fun rs => rs ++ [LotteryResult_ n st rsn])
                      (set_completed (fun c => c ∪ {[n]}) l)).
Proof.
  destruct l. unfold recorded_one. cbn. rewrite map_app. cbn.
  repeat split. reflexivity.
Qed.

Lemma restarted_now l : restarted l (set_retry_attempt S (set_reload_occurred true l)).
Proof. now destruct l. Qed.

Lemma after_failure_spec selected lottery_index l :
  wpg (W:=W) G (after_failure selected lottery_index)
      (fun r l' _ => (r = inr Continue /\ l' = l) \/ (r = inr Break /\ restarted l l')) l.
Proof.
  unfold after_failure, restart_after_reload. run_known. run_known.
  wp_branch.
  - repeat wp_step. right. split; [reflexivity|apply restarted_now].
  - run_known. wp_step. now left.
Qed.

Lemma restarted_after n st rsn l l' :
  restarted (set_results (fun rs => rs ++ [LotteryResult_ n st rsn]) l) l' -> restarted l l'.
Proof. now destruct l. Qed.

Lemma process_open_lottery_spec selected lottery_index lottery_number l :
  wpg (W:=W) G (process_open_lottery selected lottery_index lottery_number)
      (fun r l' _ =>
         (r = inr Continue /\ recorded_one lottery_number l l'
          /\ checked_count l' = checked_count l)
         \/ (r = inr Break /\ restarted l l')) l.
Proof.
  unfold process_open_lottery, restart_after_reload, append_result.
  wp_step. wp_step. wp_step. answered. wp_branch.
  - wp_step. wp_step. wp_step. wp_step. run_known. run_known. wp_branch.
    + repeat wp_step. right. split; [reflexivity|]. now destruct l.
    + run_known. wp_step. left. split; [reflexivity|].
      split; [apply recorded_one_completed|now destruct l].
  - wp_step. wp_step.
    eapply wpg_conseq; [apply after_failure_spec|].
    intros ? ? ? _ [[-> ->]|[-> Hr]]; cbv beta iota.
    + left. split; [reflexivity|]. split; [apply recorded_one_append|now destruct l].
    + right. split; [reflexivity|]. now apply restarted_after in Hr.
  - repeat wp_step. right. split; [reflexivity|apply restarted_now].
Qed.

Lemma classify_lottery_spec selected lottery_index lottery_number l :
  wpg (W:=W) G (classify_lottery selected lottery_index lottery_number)
      (fun r l' _ =>
         (r = inr Continue /\ recorded_one lottery_number l l'
          /\ checked_count l' = S (checked_count l))
         \/ (r = inr Break /\ restarted l l')) l.
Proof.
  unfold classify_lottery, append_result. wp_step. wp_step.
  status_answered label exists_ Hl. wp_step. wp_step.
  assert (Hone : forall st rsn,
             recorded_one lottery_number l
               (set_results (fun rs => rs ++ [LotteryResult_ lottery_number st rsn])
                            (set_checked_count S l))
             /\ checked_count
                  (set_results (fun rs => rs ++ [LotteryResult_ lottery_number st rsn])
                               (set_checked_count S l)) = S (checked_count l)).
  { intros st rsn. split; [|now destruct l].
    destruct l. unfold recorded_one. cbn. rewrite map_app. cbn.
    repeat split. apply union_subseteq_l. }
  destruct exists_; cbn [negb] in *.
  2:{ repeat wp_step. left. split; [reflexivity|apply Hone]. }
  cbn [negb orb] in Hl. rewrite Hl. cbn [negb].
  wp_branch; [repeat wp_step; left; split; [reflexivity|apply Hone]|].
  wp_branch.
  { repeat wp_step. left. split; [reflexivity|].
    split; [|now destruct l].
    destruct l. unfold recorded_one. cbn. rewrite map_app. cbn. repeat split. reflexivity. }
  wp_branch; [|repeat wp_step; left; split; [reflexivity|apply Hone]].
  run_known.
  eapply wpg_conseq; [apply process_open_lottery_spec|].
  intros ? ? ? _ [(-> & Hr & Hn)|[-> Hr]]; cbv beta iota.
  - left. split; [reflexivity|]. split; [now destruct l|]. rewrite Hn. now destruct l.
  - right. split; [reflexivity|]. now destruct l.
Qed.

(** A pass over [rest]: every item gets its entry, in order, unless a
    reload restarts the pass. *)
Lemma process_selected_spec selected rest : forall lottery_index l,
  NoDup rest ->
  (forall n, n ∈ rest -> n ∉ completed_lotteries l) ->
  wpg (W:=W) G (process_selected selected rest lottery_index)
      (fun r l' _ =>
         r = inr tt
         /\ ((map lottery (lottery_results l') = map lottery (lottery_results l) ++ rest
              /\ checked_count l' = (checked_count l + length rest)%nat
              /\ reload_occurred l' = reload_occurred l
              /\ retry_attempt l' = retry_attempt l)
             \/ restarted l l')) l.
Proof.
  induction rest as [|n rest IH]; intros idx l Hnd Hnew; cbn [process_selected].
  { wp_step. split; [reflexivity|]. left. rewrite app_nil_r. cbn.
    repeat split. lia. }
  apply NoDup_cons in Hnd as [Hn Hnd].
  run_known. run_known. wp_step. wp_step.
  rewrite bool_decide_eq_false_2 by (apply Hnew; left).
  eapply wpg_bind_spec; [apply classify_lottery_spec|].
  intros ? l1 ? _ [(-> & (Hres & Hcompl & Hrel & Hretry) & Hcount)|[-> Hr]]; cbv beta iota.
  - eapply wpg_conseq; [apply IH; [exact Hnd|]|].
    + intros x Hx Hin. apply Hcompl in Hin.
      apply elem_of_union in Hin as [Hin|Hin].
      * apply (Hnew x); [now right|exact Hin].
      * apply elem_of_singleton in Hin. subst x. contradiction.
    + intros ? l2 ? _ [-> [(Hres2 & Hcount2 & Hrel2 & Hretry2)|[Hr1 Hr2]]];
        (split; [reflexivity|]).
      * left. rewrite Hres2, Hres, <- app_assoc. cbn.
        repeat split; [lia|congruence|congruence].
      * right. split; [exact Hr1|congruence].
  - wp_step. split; [reflexivity|]. now right.
Qed.

Lemma keeps_entries_refl l : keeps_entries l l.
Proof. now split. Qed.

Lemma keeps_entries_trans l1 l2 l3 :
  keeps_entries l1 l2 -> keeps_entries l2 l3 -> keeps_entries l1 l3.
Proof. intros [? ?] [? ?]. split; congruence. Qed.

Lemma demote_success_lottery n rsn rs :
  map lottery (demote_success n rsn rs) = map lottery rs.
Proof.
  induction rs as [|result rs IH]; [reflexivity|]. cbn [demote_success].
  destruct (_ && _); cbn; [reflexivity|now rewrite IH].
Qed.

Lemma demote_first_lottery n rsn rs :
  map lottery (demote_first n rsn rs) = map lottery rs.
Proof.
  induction rs as [|result rs IH]; [reflexivity|]. cbn [demote_first].
  destruct (_ =? _); [now destruct (String.eqb _ _)|]. cbn. now rewrite IH.
Qed.

Lemma recheck_open_spec rest : forall has_open_lotteries l,
  wpg (W:=W) G (recheck_open rest has_open_lotteries)
      (fun r l' _ => (exists b, r = inr b) /\ keeps_entries l l') l.
Proof.
  induction rest as [|n rest IH]; intros b l; cbn [recheck_open].
  { wp_step. split; [eauto|apply keeps_entries_refl]. }
  run_known. wp_step. wp_step. status_answered label exists_ Hl. wp_branch.
  - wp_step. wp_step. wp_step. wp_branch.
    + wp_step. wp_step. wp_step.
      eapply wpg_conseq; [apply IH|]. intros ? ? ? _ [Hb Hk]. split; [exact Hb|].
      eapply keeps_entries_trans; [|exact Hk].
      destruct l. split; cbn; [apply demote_success_lottery|reflexivity].
    + wp_step. eapply wpg_conseq; [apply IH|]. auto.
  - eapply wpg_conseq; [apply IH|]. auto.
Qed.

Lemma verify_completed_spec rest : forall l,
  wpg (W:=W) G (verify_completed rest)
      (fun r l' _ => (exists b, r = inr b) /\ l' = l) l.
Proof.
  induction rest as [|n rest IH]; intros l; cbn [verify_completed].
  { wp_step. eauto. }
  run_known. wp_step. wp_step. status_answered label exists_ Hl. wp_branch; [wp_branch|].
  - wp_step. eauto.
  - apply IH.
  - apply IH.
Qed.

Lemma final_verify_spec rest : forall all_final_verified l,
  wpg (W:=W) G (final_verify rest all_final_verified)
      (fun r l' _ => (exists b, r = inr b) /\ keeps_entries l l') l.
Proof.
  induction rest as [|n rest IH]; intros b l; cbn [final_verify].
  { wp_step. split; [eauto|apply keeps_entries_refl]. }
  run_known. wp_step. wp_step. status_answered label exists_ Hl. wp_branch.
  - wp_step. wp_step. wp_step. wp_branch.
    + wp_step. wp_step. wp_step.
      eapply wpg_conseq; [apply IH|]. intros ? ? ? _ [Hb Hk]. split; [exact Hb|].
      eapply keeps_entries_trans; [|exact Hk].
      destruct l. split; cbn; [apply demote_first_lottery|reflexivity].
    + wp_step. wp_step. wp_step.
      eapply wpg_conseq; [apply IH|]. intros ? ? ? _ [Hb Hk]. split; [exact Hb|].
      eapply keeps_entries_trans; [|exact Hk].
      destruct l. split; cbn; [apply demote_first_lottery|reflexivity].
  - eapply wpg_conseq; [apply IH|]. auto.
Qed.

Lemma completion_block_spec selected l :
  wpg (W:=W) G (completion_block selected)
      (fun r l' _ =>
         exists c, r = inr c
                   /\ map lottery (lottery_results l') = map lottery (lottery_results l)
                   /\ (c <> LoopBreak -> (retry_attempt l' <= S (retry_attempt l))%nat)) l.
Proof.
  unfold completion_block.
  eapply wpg_bind_spec; [apply recheck_open_spec|].
  intros ? l1 ? _ [[b ->] [Hres Hretry]]. cbv beta iota. destruct b.
  { repeat wp_step. eexists. split; [reflexivity|]. destruct l1. cbn in *.
    split; [exact Hres|]. intros _. lia. }
  wp_step. wp_step. wp_branch.
  - eapply wpg_bind_spec; [apply verify_completed_spec|].
    intros ? ? ? _ [[b ->] ->]. cbv beta iota. destruct b.
    + repeat wp_step. eexists. split; [reflexivity|]. destruct l1. cbn in *.
      split; [exact Hres|]. intros Hc. now destruct Hc.
    + repeat wp_step. eexists. split; [reflexivity|]. destruct l1. cbn in *.
      split; [exact Hres|]. intros _. lia.
  - wp_step. eexists. split; [reflexivity|]. split; [exact Hres|]. intros _. lia.
Qed.

Lemma verdict_block_spec selected l :
  wpg (W:=W) G (verdict_block selected)
      (fun r l' _ =>
         exists c, r = inr c
                   /\ map lottery (lottery_results l') = map lottery (lottery_results l)
                   /\ (c <> LoopBreak -> (retry_attempt l' < max_retry_attempts)%nat)) l.
Proof.
  unfold verdict_block. wp_step. wp_step.
  destruct (determine_final_status (lottery_results l)) as [[st msg] leave].
  wp_step. wp_step.
  assert (Hbreak : forall l',
             map lottery (lottery_results l') = map lottery (lottery_results l) ->
             exists c, inr LoopBreak = inr (A:=exn) c
                       /\ map lottery (lottery_results l') = map lottery (lottery_results l)
                       /\ (c <> LoopBreak -> (retry_attempt l' < max_retry_attempts)%nat)).
  { intros l' Hl'. eexists. split; [reflexivity|]. split; [exact Hl'|]. intros Hc. now destruct Hc. }
  wp_branch; [wp_step; apply Hbreak; now destruct l|].
  wp_branch; [|wp_step; apply Hbreak; now destruct l].
  eapply wpg_bind_spec; [apply final_verify_spec|].
  intros ? l1 ? _ [[b ->] [Hres Hretry]]. cbv beta iota.
  assert (Hres1 : map lottery (lottery_results l1) = map lottery (lottery_results l))
    by (rewrite Hres; now destruct l).
  destruct b; [wp_step; now apply Hbreak|].
  wp_step. wp_step. wp_branch.
  - apply Nat.ltb_lt in Heqb1. unfold max_retry_attempts in *.
    repeat wp_step. eexists. split; [reflexivity|]. destruct l1. cbn in *.
    split; [exact Hres1|]. intros _. lia.
  - repeat wp_step. apply Hbreak. now destruct l1.
Qed.

Lemma one_pass_spec selected l :
  NoDup selected ->
  (forall n, n ∈ selected -> n ∉ completed_lotteries l) ->
  retry_attempt l = 0%nat ->
  wpg (W:=W) G (one_pass selected)
      (fun r l' _ =>
         exists c, r = inr c
                   /\ (c = LoopBreak ->
                       map lottery (lottery_results l')
                       = map lottery (lottery_results l) ++ selected)
                   /\ (c <> LoopBreak -> (retry_attempt l' < max_retry_attempts)%nat)) l.
Proof.
  intros Hnd Hnew Hzero. unfold one_pass. wp_step. wp_step. wp_step. wp_step. run_known.
  wp_step. wp_step. answered. run_known. run_known.
  eapply wpg_bind_spec;
    [apply process_selected_spec; [exact Hnd|intros n Hn; destruct l; now apply Hnew]|].
  intros ? l1 ? _ [-> [(Hres & Hcount & Hrel & Hretry)|[Hrel Hretry]]]; cbv beta iota;
    wp_step; wp_step.
  2:{ rewrite Hrel. wp_step. eexists. split; [reflexivity|]. split; [discriminate|].
      intros _. rewrite Hretry. destruct l. cbn in *. subst. unfold max_retry_attempts. lia. }
  assert (Hres1 : map lottery (lottery_results l1) = map lottery (lottery_results l) ++ selected)
    by (rewrite Hres; now destruct l).
  assert (Hretry1 : retry_attempt l1 = 0%nat) by (rewrite Hretry; now destruct l).
  assert (Hrel1 : reload_occurred l1 = false) by (rewrite Hrel; now destruct l).
  assert (Hcount1 : checked_count l1 = length selected) by (rewrite Hcount; now destruct l).
  rewrite Hrel1, Hcount1, Nat.leb_refl.
  eapply wpg_bind_spec; [apply completion_block_spec|].
  intros ? l2 ? _ (c & -> & Hres2 & Hretry2). cbv beta iota.
  destruct c.
  - specialize (Hretry2 ltac:(discriminate)). wp_step. wp_step. wp_branch.
    + eapply wpg_conseq; [apply verdict_block_spec|].
      intros ? l3 ? _ (c & -> & Hres3 & Hretry3). eexists. split; [reflexivity|].
      split; [intros _; congruence|exact Hretry3].
    + wp_step. eexists. split; [reflexivity|]. split; [discriminate|].
      intros _. unfold max_retry_attempts. lia.
  - wp_step. eexists. split; [reflexivity|]. split; [discriminate|].
    intros Hc. specialize (Hretry2 Hc). unfold max_retry_attempts. lia.
  - wp_step. eexists. split; [reflexivity|]. split; [intros _; congruence|].
    intros Hc. now destruct Hc.
Qed.

(** The retry loop, when it makes one pass only. *)
Lemma retry_loop_single_pass selected fuel l :
  NoDup selected ->
  (forall n, n ∈ selected -> n ∉ completed_lotteries l) ->
  retry_attempt l = 0%nat ->
  wpg (W:=W) G (retry_loop selected (S (S fuel)))
      (fun r l' t =>
         passes t = 1%nat ->
         r = inr tt
         /\ map lottery (lottery_results l') = map lottery (lottery_results l) ++ selected) l.
Proof.
  intros Hnd Hnew Hzero. cbn [retry_loop]. wp_step. wp_step.
  rewrite Hzero. cbn [Nat.ltb Nat.leb max_retry_attempts].
  eapply wpg_bind_spec;
    [apply wpg_conj; [apply (one_pass_starts G labelled_run_ok)
                     |apply (one_pass_spec _ _ Hnd Hnew Hzero)]|].
  intros ? l1 t1 _ [Hstart (c & -> & Hbreak & Hcont)]. cbv beta iota.
  assert (Hmore : c <> LoopBreak ->
            wpg (W:=W) G (retry_loop selected (S fuel))
                (fun r l' t =>
                   passes ([] ++ t1 ++ t) = 1%nat ->
                   r = inr tt
                   /\ map lottery (lottery_results l')
                      = map lottery (lottery_results l) ++ selected) l1).
  { intros Hc. eapply wpg_conseq;
      [apply (retry_loop_starts G labelled_run_ok); now apply Hcont|].
    intros ? ? t2 _ H2 Hone. unfold passes in *. rewrite !count_events_app in Hone.
    cbn in Hone. lia. }
  destruct c.
  - apply Hmore. discriminate.
  - apply Hmore. discriminate.
  - wp_step. intros _. split; [reflexivity|]. now apply Hbreak.
Qed.

End SinglePass.

Lemma sorted_set_NoDup xs : NoDup (sorted_set xs).
Proof.
  unfold sorted_set. rewrite merge_sort_Permutation. apply NoDup_elements.
Qed.

Lemma elem_of_sorted_set xs n : n ∈ sorted_set xs <-> n ∈ xs.
Proof.
  unfold sorted_set. rewrite merge_sort_Permutation, elem_of_elements.
  apply elem_of_list_to_set.
Qed.

Lemma sorted_set_Sorted xs : Sorted Z.le (sorted_set xs).
Proof. apply Sorted_merge_sort. apply _. Qed.

(** ** The fuel of the retry loop *)

Section Fuel.
Context {W : Type} `{!World W}.

Local Abbreviation G := any_event.

(** A call leaves the locals of the caller as they are. *)
Lemma wpg_call_frame {L L0 A} (l0 : L0) (m : PyM W L0 A) (l : L) :
  wpg G (call_with l0 m) (fun _ l' _ => l' = l) l.
Proof. apply wpg_call_with. eapply wpg_conseq; [apply wpg_true|]. auto. Qed.

Ltac call_frame :=
  lazymatch goal with
  | |- wpg _ (bind (call_with _ _) _) _ _ =>
      eapply wpg_bind_spec; [apply wpg_call_frame|];
      intros [?|?] ? ? _ ->; cbv beta iota zeta
  end.

Lemma same_counters_refl l : same_counters l l.
Proof. now repeat split. Qed.

Lemma same_counters_trans l1 l2 l3 :
  same_counters l1 l2 -> same_counters l2 l3 -> same_counters l1 l3.
Proof. intros (? & ? & ?) (? & ? & ?). repeat split; congruence. Qed.

Lemma same_counters_results f l : same_counters l (set_results f l).
Proof. now destruct l. Qed.

Lemma same_counters_completed f l : same_counters l (set_completed f l).
Proof. now destruct l. Qed.

Lemma same_counters_final st msg l : same_counters l (set_final st msg l).
Proof. now destruct l. Qed.

Lemma restarted_from l0 l :
  same_counters l0 l -> restarted l0 (set_retry_attempt S (set_reload_occurred true l)).
Proof.
  intros (_ & _ & Hr). destruct l. cbn in *. split; [reflexivity|]. cbn. now rewrite Hr.
Qed.

Lemma after_failure_step selected lottery_index l0 l :
  same_counters l0 l ->
  wpg (W:=W) G (after_failure selected lottery_index)
      (fun r l' _ => item_step l0 r l') l.
Proof.
  intros Hl. unfold after_failure, restart_after_reload.
  call_frame; [exact Hl|]. call_frame; [exact Hl|].
  wp_branch.
  - repeat wp_step. now apply restarted_from.
  - call_frame; [exact Hl|]. wp_step. exact Hl.
Qed.

Lemma process_open_lottery_step selected lottery_index lottery_number l :
  wpg (W:=W) G (process_open_lottery selected lottery_index lottery_number)
      (fun r l' _ => item_step l r l') l.
Proof.
  unfold process_open_lottery, append_result.
  eapply wpg_try_spec with
    (S := fun r l' _ => item_step l r l').
  - wp_step. wp_step. intros [e|result] _; cbv beta iota.
    { apply same_counters_refl. }
    destruct result.
    + wp_step. wp_step. wp_step. wp_step.
      call_frame; [apply same_counters_trans with (set_completed (fun c => c ∪ {[lottery_number]}) l);
                   [apply same_counters_completed|apply same_counters_results]|].
      call_frame; [apply same_counters_trans with (set_completed (fun c => c ∪ {[lottery_number]}) l);
                   [apply same_counters_completed|apply same_counters_results]|].
      wp_branch.
      * unfold restart_after_reload. repeat wp_step. apply restarted_from.
        apply same_counters_trans with (set_completed (fun c => c ∪ {[lottery_number]}) l);
          [apply same_counters_completed|apply same_counters_results].
      * call_frame; [|wp_step];
          (apply same_counters_trans with (set_completed (fun c => c ∪ {[lottery_number]}) l);
           [apply same_counters_completed|apply same_counters_results]).
    + wp_step. wp_step. apply after_failure_step, same_counters_results.
    + unfold restart_after_reload. repeat wp_step. apply restarted_from, same_counters_refl.
  - intros [e|c] l1 t1 _ H1; cbv beta iota; [|exact H1].
    cbn in H1. wp_branch.
    + wp_step. wp_step. wp_step. cbn.
      eapply same_counters_trans; [exact H1|apply same_counters_results].
    + wp_step. wp_step. apply after_failure_step.
      eapply same_counters_trans; [exact H1|apply same_counters_results].
Qed.

Lemma classify_lottery_step selected lottery_index lottery_number l :
  wpg (W:=W) G (classify_lottery selected lottery_index lottery_number)
      (fun r l' _ => item_checked l r l') l.
Proof.
  unfold classify_lottery, append_result. wp_step. wp_step.
  intros [e|[label exists_]] _; cbv beta iota; [exact I|]. cbn [fst snd].
  wp_step. wp_step.
  assert (Hone : forall st rsn,
             same_counters (set_checked_count S l)
               (set_results (fun rs => rs ++ [LotteryResult_ lottery_number st rsn])
                            (set_checked_count S l)))
    by (intros; apply same_counters_results).
  wp_branch; [repeat wp_step; apply Hone|].
  wp_branch; [wp_step; apply same_counters_refl|].
  wp_branch; [repeat wp_step; apply Hone|].
  wp_branch.
  { repeat wp_step.
    apply (same_counters_trans _ (set_completed (fun c => c ∪ {[lottery_number]})
                                                 (set_checked_count S l)));
      [apply same_counters_completed|apply same_counters_results]. }
  wp_branch; [|repeat wp_step; apply Hone].
  call_frame; [exact I|].
  eapply wpg_conseq; [apply process_open_lottery_step|].
  intros [e|[| |[]]] l' ? _ Hs; cbn in *; try exact I; exact Hs.
Qed.

Lemma process_selected_step selected rest : forall lottery_index l,
  wpg (W:=W) G (process_selected selected rest lottery_index)
      (fun r l' _ => match r with
                     | inl _ => True
                     | inr _ => pass_counted l (length rest) l'
                     end) l.
Proof.
  induction rest as [|n rest IH]; intros idx l; cbn [process_selected].
  { wp_step. left. cbn. repeat split. lia. }
  call_frame; [exact I|]. call_frame; [exact I|]. wp_step. wp_step. wp_branch.
  - wp_step. wp_step. eapply wpg_conseq; [apply IH|].
    intros [e|[]] l' ? _ Hs; [exact I|].
    destruct Hs as [(Hc & Hr & Ha)|[Hr Ha]]; [left|right]; destruct l; cbn in *.
    + repeat split; [lia|exact Hr|exact Ha].
    + split; [exact Hr|exact Ha].
  - eapply wpg_bind_spec; [apply classify_lottery_step|].
    intros [e|[| |[]]] l1 ? _ H1; cbn in H1; cbv beta iota; try exact I; try contradiction.
    + eapply wpg_conseq; [apply IH|].
      intros [e|[]] l' ? _ Hs; [exact I|].
      destruct H1 as (Hc1 & Hr1 & Ha1).
      destruct Hs as [(Hc & Hr & Ha)|[Hr Ha]]; [left|right]; destruct l; cbn in *.
      * split; [lia|]. split; [now rewrite Hr|now rewrite Ha].
      * split; [exact Hr|now rewrite Ha, Ha1].
    + wp_step. now right.
Qed.

Lemma recheck_open_counters rest : forall has_open_lotteries l,
  wpg (W:=W) G (recheck_open rest has_open_lotteries)
      (fun _ l' _ => same_counters l l') l.
Proof.
  induction rest as [|n rest IH]; intros b l; cbn [recheck_open].
  { wp_step. apply same_counters_refl. }
  call_frame; [apply same_counters_refl|]. wp_step. wp_step.
  intros [e|checked] _; cbv beta iota; [apply same_counters_refl|].
  wp_branch; [|apply IH].
  wp_step. wp_step. wp_step. wp_branch.
  - wp_step. wp_step. wp_step. eapply wpg_conseq; [apply IH|].
    intros ? ? ? _ Hs. eapply same_counters_trans; [|exact Hs]. now destruct l.
  - wp_step. apply IH.
Qed.

Lemma verify_completed_counters rest : forall l,
  wpg (W:=W) G (verify_completed rest) (fun _ l' _ => same_counters l l') l.
Proof.
  induction rest as [|n rest IH]; intros l; cbn [verify_completed].
  { wp_step. apply same_counters_refl. }
  call_frame; [apply same_counters_refl|]. wp_step. wp_step.
  intros [e|checked] _; cbv beta iota; [apply same_counters_refl|].
  repeat wp_branch; try apply IH. wp_step. apply same_counters_refl.
Qed.

Lemma final_verify_counters rest : forall all_final_verified l,
  wpg (W:=W) G (final_verify rest all_final_verified)
      (fun _ l' _ => same_counters l l') l.
Proof.
  induction rest as [|n rest IH]; intros b l; cbn [final_verify].
  { wp_step. apply same_counters_refl. }
  call_frame; [apply same_counters_refl|]. wp_step. wp_step.
  intros [e|checked] _; cbv beta iota; [apply same_counters_refl|].
  wp_branch; [|apply IH].
  wp_step. wp_step. wp_step. wp_branch; wp_step; wp_step; wp_step.
  - eapply wpg_conseq; [apply IH|].
    intros ? ? ? _ Hs. eapply same_counters_trans; [|exact Hs]. now destruct l.
  - eapply wpg_conseq; [apply IH|].
    intros ? ? ? _ Hs. eapply same_counters_trans; [|exact Hs]. now destruct l.
Qed.

Lemma completion_block_flow selected l :
  wpg (W:=W) G (completion_block selected)
      (fun r l' _ => block_flow (same_counters l l') l r l') l.
Proof.
  unfold completion_block.
  eapply wpg_bind_spec; [apply recheck_open_counters|].
  intros [e|b] l1 ? _ H1; cbv beta iota; [exact I|]. destruct b.
  { repeat wp_step. cbn. destruct H1 as (_ & _ & Ha). destruct l1. cbn in *. now rewrite Ha. }
  wp_step. wp_step. wp_branch; [|wp_step; exact H1].
  eapply wpg_bind_spec; [apply verify_completed_counters|].
  intros [e|b] l2 ? _ H2; cbv beta iota; [exact I|]. destruct b.
  - repeat wp_step. exact I.
  - repeat wp_step. cbn. destruct H1 as (_ & _ & Ha1), H2 as (_ & _ & Ha2).
    destruct l2. cbn in *. congruence.
Qed.

Lemma verdict_block_flow selected l :
  wpg (W:=W) G (verdict_block selected) (fun r l' _ => block_flow False l r l') l.
Proof.
  unfold verdict_block. wp_step. wp_step.
  destruct (determine_final_status (lottery_results l)) as [[st msg] leave].
  wp_step. wp_step.
  wp_branch; [wp_step; exact I|]. wp_branch; [|wp_step; exact I].
  eapply wpg_bind_spec; [apply final_verify_counters|].
  intros [e|b] l1 ? _ H1; cbv beta iota; [exact I|]. destruct b; [wp_step; exact I|].
  wp_step. wp_step. wp_branch; repeat wp_step; [|exact I].
  cbn. destruct H1 as (_ & _ & Ha). destruct l1, l. cbn in *. congruence.
Qed.

(** A pass ends the loop, raises, or counts as one more attempt. *)
Lemma one_pass_flow selected l :
  wpg (W:=W) G (one_pass selected) (fun r l' _ => block_flow False l r l') l.
Proof.
  unfold one_pass. wp_step. wp_step. wp_step. wp_step.
  call_frame; [exact I|]. wp_step. wp_step. intros [e|b] _; cbv beta iota; [exact I|].
  call_frame; [exact I|]. call_frame; [exact I|].
  eapply wpg_bind_spec; [apply process_selected_step|].
  intros [e|[]] l1 ? _ H1; cbv beta iota; [exact I|]. wp_step. wp_step.
  assert (Hcases : (checked_count l1 = length selected /\ reload_occurred l1 = false
                    /\ retry_attempt l1 = retry_attempt l)
                   \/ restarted l l1).
  { destruct H1 as [(Hc & Hr & Ha)|[Hr Ha]]; [left|right]; destruct l; cbn in *.
    - now repeat split.
    - now split. }
  clear H1. destruct Hcases as [(Hc & Hr & Ha)|[Hr Ha]].
  2:{ rewrite Hr. wp_step. exact Ha. }
  rewrite Hr, Hc, Nat.leb_refl.
  eapply wpg_bind_spec; [apply completion_block_flow|].
  intros [e|c] l2 ? _ H2; cbv beta iota; [exact I|]. destruct c; cbn in H2.
  - destruct H2 as (Hc2 & _ & Ha2). wp_step. wp_step. rewrite Hc2, Hc, Nat.leb_refl.
    eapply wpg_conseq; [apply verdict_block_flow|].
    intros [e|[| |]] l3 ? _ H3; cbn in *; try exact I; [contradiction|congruence].
  - wp_step. cbn. congruence.
  - wp_step. exact I.
Qed.

End Fuel.

(** The fuel [S max_retry_attempts] given to the retry loop is never used
    up: with more fuel the loop does the same. *)
Lemma retry_loop_fuel_enough {W : Type} `{!World W} selected fuel :
  forall (l : locals) (w : W),
    (max_retry_attempts - retry_attempt l < fuel)%nat ->
    retry_loop selected (S fuel) l w = retry_loop selected fuel l w.
Proof.
  induction fuel as [|fuel IH]; intros l w Hfuel; [lia|].
  pose (body := fun k : PyM W locals unit =>
                  (l <- get_locals ;;
                   if (retry_attempt l <? max_retry_attempts)%nat then
                     c <- one_pass selected ;;
                     match c with
                     | LoopBreak => ret tt
                     | _ => k
                     end
                   else ret tt)).
  change (body (retry_loop selected (S fuel)) l w = body (retry_loop selected fuel) l w).
  cbv [body bind get_locals].
  destruct (retry_attempt l <? max_retry_attempts)%nat eqn:Hlt; [|reflexivity].
  apply Nat.ltb_lt in Hlt.
  pose proof (one_pass_flow selected l w) as Hflow.
  destruct (one_pass selected l w) as [[[[e|c] l1] w1] t1]; [reflexivity|].
  specialize (Hflow (forallb_any t1)). cbn in Hflow.
  destruct c; [contradiction| |reflexivity].
  rewrite IH by lia. reflexivity.
Qed.

Lemma retry_loop_fuel_irrelevant {W : Type} `{!World W} selected more :
  forall (l : locals) (w : W),
    retry_loop selected (more + S max_retry_attempts) l w
    = retry_loop selected (S max_retry_attempts) l w.
Proof.
  induction more as [|more IH]; intros l w; [reflexivity|].
  cbn [Nat.add]. rewrite retry_loop_fuel_enough by lia. apply IH.
Qed.

(** * The claims *)

Lemma count_polls t : count_events is_poll t = length (poll_answers t).
Proof.
  unfold poll_answers. induction t as [|[A o r] t IH]; [reflexivity|].
  cbn [count_events map concat]. rewrite length_app, <- IH.
  destruct o; reflexivity.
Qed.

(** Evaluates a closed run [prog] by the virtual machine: [E] is the
    equation between the run and its value, whose components are named
    [r], [l'], [w'] and [t]. *)
Ltac run_concretely prog E :=
  let v := eval vm_compute in prog in
  lazymatch v with
  | (?rv, ?lv, ?wv, ?tv) =>
      pose (r := rv); pose (l' := lv); pose (w' := wv); pose (t := tv);
      assert (E : prog = (r, l', w', t)) by (vm_compute; reflexivity)
  end.

(** ** C7: the solver and the sequence processing, processing, ready *)

(** C7, the claim as stated fails: when the result endpoint answers
    processing, processing, ready("T"), [solve_recaptcha] returns "T",
    and it has polled the result endpoint three times, not two. *)
Lemma solve_recaptcha_polls_three_times :
  match run_script (override calm (two_processing_then_ready "T"))
                   (solve_recaptcha (Some "KEY") "6Lc_site_key_of_the_page" CAPTCHA_BASE_URL
                                    true 5 0.9%float None) with
  | (r, t) =>
      poll_answers t = [inr processing; inr processing; inr (ready "T")]
      /\ r = inr "T"
      /\ count_events is_submission t = 1%nat
      /\ count_events is_poll t <> 2%nat
  end.
Proof. vm_compute. repeat split; try reflexivity. discriminate. Qed.

(** C7, amended: if the first three answers of the result endpoint are
    processing, processing, ready with the non-empty token [tok], then
    [solve_recaptcha] returns [tok], and it has polled the result endpoint
    exactly three times: twice answered processing, and the third poll
    that brings the token. *)
Theorem solve_recaptcha_returns_token_at_third_poll
        {W : Type} `{!World W} api_key site_key url driver max_retries min_score page_action
        (tok : string) (p1 p2 rdy : response task_result_data) (w : W) r l' w' t :
  solve_recaptcha api_key site_key url driver max_retries min_score page_action tt w
  = (r, l', w', t) ->
  tok <> "" -> is_processing p1 -> is_processing p2 -> is_ready tok rdy ->
  firstn 3 (poll_answers t) = [inr p1; inr p2; inr rdy] ->
  r = inr tok /\ count_events is_poll t = 3%nat.
Proof.
  intros E Htok Hp1 Hp2 Hrdy Hfirst.
  pose proof (wpg_run _ _ _ _ _ _ _ _ _
                (solve_recaptcha_takes tok Htok api_key site_key url driver
                                       max_retries min_score page_action)
                E (forallb_any t)) as H.
  cbv beta in H.
  destruct (H [p1; p2] rdy [] (skipn 3 (poll_answers t))) as [(ps1 & ps2 & Hps & Ht)|[Hr Ht]].
  - repeat constructor; assumption.
  - exact Hrdy.
  - rewrite app_nil_r. rewrite <- (firstn_skipn 3 (poll_answers t)) at 1.
    now rewrite Hfirst.
  - exfalso. apply (f_equal (@length _)) in Hfirst, Hps.
    rewrite Ht, length_firstn, length_map in Hfirst.
    rewrite length_app in Hps. cbn [length] in Hfirst, Hps. lia.
  - split; [exact Hr|]. now rewrite count_polls, Ht.
Qed.

Lemma solve_recaptcha_returns_token_at_third_poll_witness :
  match run_script (override calm (two_processing_then_ready "T"))
                   (solve_recaptcha (Some "KEY") "6Lc_site_key_of_the_page" CAPTCHA_BASE_URL
                                    true 5 0.9%float None) with
  | (r, t) =>
      firstn 3 (poll_answers t) = [inr processing; inr processing; inr (ready "T")]
      /\ r = inr "T" /\ count_events is_poll t = 3%nat
  end.
Proof.
  unfold run_script.
  run_concretely
    (solve_recaptcha (Some "KEY") "6Lc_site_key_of_the_page" CAPTCHA_BASE_URL
                     true 5 0.9%float None tt
                     (fresh (override calm (two_processing_then_ready "T")))) E.
  rewrite E.
  assert (Hfirst : firstn 3 (poll_answers t)
                   = [inr processing; inr processing; inr (ready "T")])
    by (vm_compute; reflexivity).
  split; [exact Hfirst|].
  refine (solve_recaptcha_returns_token_at_third_poll
            _ _ _ _ _ _ _ "T" processing processing (ready "T") _ _ _ _ _ E _ _ _ _ Hfirst).
  - discriminate.
  - eexists; split; reflexivity.
  - eexists; split; reflexivity.
  - eexists _, _; repeat split; reflexivity.
Defined.

(** ** C9: a minScore outside the allowed set *)

(** C9: a [min_score] that is none of 0.3, 0.7, 0.9 is replaced by 0.9:
    the call behaves in every world exactly as the call with 0.9 does (so
    it is not rejected on account of the score), and every task it
    submits asks for the score 0.9. *)
Theorem out_of_set_min_score_is_coerced
        {W : Type} `{!World W} api_key site_key url driver max_retries page_action
        (min_score : float) :
  min_score_allowed min_score = false ->
  (forall l (w : W),
      solve_recaptcha api_key site_key url driver max_retries min_score page_action l w
      = solve_recaptcha api_key site_key url driver max_retries 0.9%float page_action l w)
  /\ emits (W:=W) (submits_min_score 0.9%float)
           (solve_recaptcha api_key site_key url driver max_retries min_score page_action).
Proof.
  intros H. split.
  - intros l w. unfold solve_recaptcha. now rewrite H.
  - pose proof (solve_recaptcha_submits (W:=W) api_key site_key url driver max_retries
                                        min_score page_action) as Hs.
    now rewrite H in Hs.
Qed.

Lemma out_of_set_min_score_is_coerced_witness :
  min_score_allowed 0.5%float = false
  /\ (forall l w,
        solve_recaptcha (W:=scripted calm) (Some "KEY") "6Lc_site_key_of_the_page"
                        CAPTCHA_BASE_URL true 5 0.5%float None l w
        = solve_recaptcha (Some "KEY") "6Lc_site_key_of_the_page"
                          CAPTCHA_BASE_URL true 5 0.9%float None l w).
Proof.
  split; [reflexivity|].
  exact (proj1 (out_of_set_min_score_is_coerced
                  (W:=scripted calm) (Some "KEY") "6Lc_site_key_of_the_page"
                  CAPTCHA_BASE_URL true 5%nat None 0.5%float eq_refl)).
Defined.

(** ** C10: no selection *)


(** ** C1: the final verdict *)

Lemma scan_results_flags rs f :
  let f' := fold_left scan_result rs f in
  has_interrupted f' = has_interrupted f || existsb (String.eqb INTERRUPTED) (map status rs)
  /\ has_failure f' = has_failure f || existsb (String.eqb FAILURE) (map status rs)
  /\ has_skipped_closed f'
     = has_skipped_closed f || existsb (String.eqb SKIPPED_CLOSED) (map status rs)
  /\ has_not_exist f' = has_not_exist f || existsb (String.eqb NOT_EXIST) (map status rs).
Proof.
  revert f. induction rs as [|result rs IH]; intros f.
  - cbn. now rewrite !orb_false_r.
  - cbn [fold_left map existsb]. destruct (IH (scan_result f result)) as (H1 & H2 & H3 & H4).
    cbv zeta. rewrite H1, H2, H3, H4. clear.
    unfold scan_result.
    repeat match goal with
           | |- context [String.eqb (status result) ?s] =>
               destruct (String.eqb_spec (status result) s) as [->|?]
           end; cbn [has_interrupted has_failure has_skipped_closed has_not_exist];
      repeat match goal with
             | |- context [String.eqb ?a ?b] =>
                 destruct (String.eqb_spec a b) as [?|?]; try congruence; try discriminate
             end;
      rewrite ?orb_true_r, ?orb_false_r; cbn; repeat split; reflexivity.
Qed.

Lemma all_success_or_completed_forallb rs :
  all_success_or_completed rs
  = forallb (fun st => String.eqb SUCCESS st || String.eqb SKIPPED_COMPLETED st)
            (map status rs).
Proof.
  induction rs as [|result rs IH]; [reflexivity|].
  cbn [all_success_or_completed map forallb]. rewrite IH.
  rewrite (String.eqb_sym SUCCESS), (String.eqb_sym SKIPPED_COMPLETED).
  now destruct (_ || _).
Qed.

Lemma existsb_orb3 {A} (p q s : A -> bool) l :
  existsb (fun x => p x || q x || s x) l = existsb p l || existsb q l || existsb s l.
Proof.
  induction l as [|x l IH]; [reflexivity|]. cbn. rewrite IH.
  destruct (p x), (q x), (s x), (existsb p l), (existsb q l); reflexivity.
Qed.

(** The verdict block computes its status from the recorded statuses
    alone, by the precedence of the specification: Interrupted if any
    result is Interrupted; else Failure if any result is Failure,
    SkippedClosed or NotExist; else Success if every result is Success or
    SkippedCompleted; else Failure.  What a batch returns is the subject
    of the last part of this file. *)
Lemma verdict_block_follows_precedence (lottery_results : list LotteryResult) :
  fst (fst (determine_final_status lottery_results))
  = verdict_of_statuses (map status lottery_results).
Proof.
  unfold determine_final_status, verdict_of_statuses, scan_results.
  destruct (scan_results_flags lottery_results no_flags) as (H1 & H2 & H3 & H4).
  cbv zeta in H1, H2, H3, H4. cbn [no_flags has_interrupted has_failure
    has_skipped_closed has_not_exist orb] in H1, H2, H3, H4.
  rewrite H1, H2, H3, H4, existsb_orb3, all_success_or_completed_forallb.
  destruct (existsb (String.eqb INTERRUPTED) _); [reflexivity|].
  destruct (_ || _ || _); [reflexivity|].
  now destruct (forallb _ _).
Qed.


(** ** C3: cancellation while an item is processed *)

(** C3, the code at the failing input: items 1, 2 and 3 are open and the
    stop request arrives during the submission of item 2.  The body of
    [_process_all_lotteries] records Success for item 1 and Interrupted
    for item 2 in [lottery_results] and re-raises [StopIteration]; item 3
    is never attempted; but [lottery_begin] then returns the status
    Interrupted with an empty results list. *)
Lemma cancellation_loses_recorded_results :
  match process_all_lotteries_body [1; 2; 3] initial_locals
                                   (fresh (override calm stop_during_item_2)) with
  | (r, l, _, t) =>
      (exists e, r = inl e /\ is_stop e = true)
      /\ map (fun x => (lottery x, status x)) (lottery_results l)
         = [(1, SUCCESS); (2, INTERRUPTED)]
      /\ count_events (is_entry 3) t = 0%nat
  end
  /\ match run_script (override calm stop_during_item_2)
                      (lottery_begin "user@example.com" [1; 2; 3]) with
     | (r, t) =>
         r = inr (SessionOutcome_ [] INTERRUPTED "ユーザーによって中断されました")
         /\ count_events (is_entry 2) t = 1%nat
         /\ count_events (is_entry 3) t = 0%nat
     end.
Proof. vm_compute. repeat split; try reflexivity. eexists; split; reflexivity. Qed.

(** ** C5: the number of reload attempts *)

(** C5, the code at the failing input: pop04 keeps showing the exception
    message after every reload.  The recovery loop of [lottery_begin]
    reloads the page six times before it gives up; the handler
    [_check_and_handle_pop_exceptions] stops after five. *)
Lemma lottery_begin_reloads_six_times :
  match pop04_at_start_loop max_reload_attempts_at_start 0 false
                            (fresh (override calm pop04_exception_persists)) with
  | (r, pop04_reloaded, _, t) =>
      r = inr tt /\ pop04_reloaded = true /\ count_events is_refresh t = 6%nat
  end
  /\ match run_script (override calm pop04_exception_persists)
                      (lottery_begin "user@example.com" [1]) with
     | (r, t) => count_events is_reload t = 6%nat
     end
  /\ match run_script (override calm pop04_exception_persists)
                      (_check_and_handle_pop_exceptions 5) with
     | (r, t) => r = inr true /\ count_events is_reload t = 5%nat
     end.
Proof. vm_compute. repeat split; reflexivity. Qed.

(** ** C6: two matching checks, then a clear one *)

(** C6: in a run of the handler in which nothing raises and nobody asks to
    stop, if the checks of pop04 see the exception message twice and see
    it gone at the third check, the handler has reloaded the page exactly
    twice and returns [True] (a reload occurred). *)
Theorem handler_reloads_twice_and_reports_reload
        {W : Type} `{!World W} max_reload_attempts (w : W) r l' w' t :
  _check_and_handle_pop_exceptions max_reload_attempts tt w = (r, l', w', t) ->
  quiet t = true ->
  pop04_checks t = [Matches; Matches; Cleared] ->
  r = inr true /\ count_events is_reload t = 2%nat.
Proof.
  intros E Hq Hchecks.
  refine (wpg_run answered_ok _
            (fun r _ t => pop04_checks t = [Matches; Matches; Cleared] ->
                          r = inr true /\ count_events is_reload t = 2%nat)
            _ _ _ _ _ _ _ E Hq Hchecks).
  clear. unfold _check_and_handle_pop_exceptions.
  wp_step. wp_step. wp_step. quiet_branch. destruct a.
  - eapply wpg_bind_spec.
    { apply wpg_any_weaken, wpg_conj;
        [apply handle_pop05_no_pop04|apply handle_overlay_none]. }
    intros [e|[b|]] [] t5 _ [Hno Hnone]; cbv beta iota.
    + wp_step. observe. discriminate.
    + wp_step. observe. discriminate.
    + specialize (Hnone eq_refl).
      eapply wpg_conseq; [apply check_pop04_quiet|].
      intros r4 [] t4 _ H4. cbv beta iota. destruct r4 as [e|b4].
      * wp_step. observe. rewrite app_nil_r. intros Hch. now destruct (H4 Hch).
      * observe. intros Hch. destruct (H4 Hch) as [-> ->]. split; reflexivity.
  - wp_step. wp_step.
    eapply wpg_conseq; [apply check_pop04_quiet|].
    intros r4 [] t4 _ H4. cbv beta iota. destruct r4 as [e|b4].
    + wp_step. observe. rewrite app_nil_r. intros Hch. now destruct (H4 Hch).
    + observe. intros Hch. destruct (H4 Hch) as [-> ->]. split; reflexivity.
Qed.

Lemma handler_reloads_twice_and_reports_reload_witness :
  match run_script (override calm pop04_exception_twice)
                   (_check_and_handle_pop_exceptions 5) with
  | (r, t) =>
      quiet t = true
      /\ pop04_checks t = [Matches; Matches; Cleared]
      /\ r = inr true /\ count_events is_reload t = 2%nat
  end.
Proof.
  unfold run_script.
  run_concretely (_check_and_handle_pop_exceptions
                    5 tt (fresh (override calm pop04_exception_twice))) E.
  rewrite E.
  assert (Hq : quiet t = true) by (vm_compute; reflexivity).
  assert (Hc : pop04_checks t = [Matches; Matches; Cleared]) by (vm_compute; reflexivity).
  split; [exact Hq|]. split; [exact Hc|].
  exact (handler_reloads_twice_and_reports_reload 5%nat _ _ _ _ _ E Hq Hc).
Defined.

(** ** C4: the login attempts are exhausted *)

(** C4: if the login loop of [lottery_begin] has made its three attempts
    and ends without an authenticated state (and nobody asked to stop),
    then [lottery_begin] ends right there: it returns an outcome with the
    final status Failure and an empty list of results, and the run holds no
    event on a lottery item. *)
Theorem login_exhaustion_aborts_batch
        {W : Type} `{!World W} EMAIL selected (w : W) r0 w0 t0 :
  login_loop EMAIL max_login_attempts 1 tt w = (r0, tt, w0, t0) ->
  count_events is_login_attempt t0 = max_login_attempts ->
  r0 <> inr true ->
  (forall e, r0 = inl e -> is_stop e = false) ->
  exists msg,
    lottery_begin EMAIL selected tt w
    = (inr (SessionOutcome_ [] FAILURE ("ログインエラー: " +:+ msg)), tt, w0, t0)
    /\ count_events is_item_event t0 = 0%nat.
Proof.
  intros E _ Hnot Hstop.
  assert (Hr : r0 <> inr false).
  { refine (wpg_run any_event _ (fun r _ _ => r <> inr false) _ _ _ _ _ _ _ E
                    (forallb_any t0)).
    apply login_loop_never_false; [reflexivity|unfold max_login_attempts; lia]. }
  assert (Hitems : Forall no_item_event t0).
  { exact (wpg_run any_event _ (fun _ _ t => Forall no_item_event t) _ _ _ _ _ _
                   (login_loop_no_item EMAIL _ _ tt) E (forallb_any t0)). }
  destruct r0 as [e|[|]]; [|congruence|congruence].
  exists (Str.slice_to 100 (exn_str e)). split; [|now apply no_item_events].
  unfold lottery_begin, lottery_begin_body, call_with, try_except, bind.
  rewrite E. cbv beta iota. rewrite (Hstop e eq_refl). cbn.
  now rewrite app_nil_r.
Qed.

Lemma login_exhaustion_aborts_batch_witness :
  let w := fresh (override calm login_always_fails) in
  exists r0 w0 t0,
    login_loop "user@example.com" max_login_attempts 1 tt w = (r0, tt, w0, t0)
    /\ count_events is_login_attempt t0 = max_login_attempts
    /\ exists msg,
        lottery_begin "user@example.com" [1; 2] tt w
        = (inr (SessionOutcome_ [] FAILURE ("ログインエラー: " +:+ msg)), tt, w0, t0)
        /\ count_events is_item_event t0 = 0%nat.
Proof.
  intros w.
  run_concretely (login_loop "user@example.com" max_login_attempts 1 tt w) E.
  assert (E' : login_loop "user@example.com" max_login_attempts 1 tt w = (r, tt, w', t))
    by (rewrite E; reflexivity).
  assert (Hn : count_events is_login_attempt t = max_login_attempts)
    by (vm_compute; reflexivity).
  assert (Hnot : r <> inr true) by (vm_compute; discriminate).
  assert (Hstop : forall e, r = inl e -> is_stop e = false).
  { intros e He. vm_compute in He. injection He as <-. reflexivity. }
  exists r, w', t. split; [exact E'|]. split; [exact Hn|].
  exact (login_exhaustion_aborts_batch _ [1; 2] w r w' t E' Hn Hnot Hstop).
Defined.

(** ** C8: every selected item is already completed *)

(** C8: in a run of [_process_all_lotteries] in which nothing raises and
    nobody asks to stop, if every status check finds the label 受付完了,
    the function returns with the final status 成功 and the message 成功,
    whatever the selection is. *)
Theorem all_completed_batch_succeeds
        {W : Type} `{!World W} selected_lotteries (w : W) r l' w' t :
  _process_all_lotteries selected_lotteries tt w = (r, l', w', t) ->
  quiet t = true ->
  all_completed t = true ->
  exists o, r = inr o /\ outcome_final_status o = SUCCESS /\ message o = "成功".
Proof.
  intros E Hq Hc.
  assert (HG : forallb completed_run t = true).
  { unfold completed_run. rewrite forallb_andb. unfold quiet in Hq. unfold all_completed in Hc.
    now rewrite Hq, Hc. }
  refine (wpg_run completed_run _
            (fun r _ _ => exists o, r = inr o /\ outcome_final_status o = SUCCESS
                                    /\ message o = "成功")
            _ _ _ _ _ _ _ E HG).
  unfold _process_all_lotteries, process_all_lotteries_body. wp_step.
  eapply wpg_bind_spec;
    [apply retry_loop_completed; cbn; unfold max_retry_attempts; lia|].
  intros ? ? ? _ (-> & Hs & Hm). cbv beta iota. wp_step. wp_step. wp_step.
  eexists. split; [reflexivity|]. now split.
Qed.

Lemma all_completed_batch_succeeds_witness :
  match run_script calm (_process_all_lotteries (Some [3; 1; 2; 3])) with
  | (r, t) =>
      quiet t = true /\ all_completed t = true
      /\ exists o, r = inr o /\ outcome_final_status o = SUCCESS /\ message o = "成功"
  end.
Proof.
  unfold run_script.
  run_concretely (_process_all_lotteries (Some [3; 1; 2; 3]) tt (fresh calm)) E.
  rewrite E.
  assert (Hq : quiet t = true) by (vm_compute; reflexivity).
  assert (Hc : all_completed t = true) by (vm_compute; reflexivity).
  split; [exact Hq|]. split; [exact Hc|].
  exact (all_completed_batch_succeeds (Some [3; 1; 2; 3]) _ _ _ _ _ E Hq Hc).
Defined.

(** ** C2: one result per selected item *)

(** C2, the claim as stated fails, both ways.  When the status element of
    the selected item 1 exists but carries no text, the item is checked
    and skipped without an entry: the batch ends with no result for it.
    When item 1 fails in the first pass and succeeds in the second, the
    batch ends with two results for it. *)
Lemma results_omit_and_repeat_items :
  match run_script (override calm empty_labels) (_process_all_lotteries (Some [1])) with
  | (r, t) =>
      exists o, r = inr o /\ entries_of 1 o = 0%nat
                /\ count_events is_item_event t = 3%nat
  end
  /\ match run_script (override calm fails_then_succeeds) (_process_all_lotteries (Some [1])) with
     | (r, t) => exists o, r = inr o /\ entries_of 1 o = 2%nat
     end.
Proof. vm_compute. split; eexists; repeat split; reflexivity. Qed.

(** C2, amended: in a run of [_process_all_lotteries] in which nothing
    raises and nobody asks to stop, if every status check finds a label
    or finds that the item does not exist, and the retry loop makes one
    pass only, the function returns and the items of its results are the
    selected numbers, each once, in ascending order. *)
Theorem single_pass_records_each_selected_once
        {W : Type} `{!World W} selected_lotteries (w : W) r l' w' t :
  _process_all_lotteries selected_lotteries tt w = (r, l', w', t) ->
  quiet t = true ->
  all_labelled t = true ->
  passes t = 1%nat ->
  exists o,
    r = inr o
    /\ map lottery (results o) = normalise_selection selected_lotteries
    /\ NoDup (map lottery (results o))
    /\ Sorted Z.le (map lottery (results o))
    /\ forall selected, selected_lotteries = Some selected -> selected <> [] ->
       forall n, n ∈ map lottery (results o) <-> n ∈ selected.
Proof.
  intros E Hq Hl Hone.
  assert (HG : forallb labelled_run t = true).
  { unfold labelled_run. rewrite forallb_andb. unfold quiet in Hq. unfold all_labelled in Hl.
    now rewrite Hq, Hl. }
  assert (Hmap : exists o, r = inr o
                           /\ map lottery (results o) = normalise_selection selected_lotteries).
  { revert Hone.
    refine (wpg_run labelled_run _
              (fun r _ t => passes t = 1%nat ->
                            exists o, r = inr o
                                      /\ map lottery (results o)
                                         = normalise_selection selected_lotteries)
              _ _ _ _ _ _ _ E HG).
    unfold _process_all_lotteries, process_all_lotteries_body. wp_step.
    eapply wpg_bind_spec;
      [apply (retry_loop_single_pass (normalise_selection selected_lotteries));
       [apply sorted_set_NoDup|intros n _; apply not_elem_of_empty|reflexivity]|].
    intros [e|[]] l1 t1 _ H1; cbv beta iota.
    - intros Hp. now destruct (H1 Hp).
    - wp_step. wp_step. wp_step. intros Hp. rewrite !app_nil_r in Hp.
      destruct (H1 Hp) as [_ Hres]. eexists. split; [reflexivity|exact Hres]. }
  destruct Hmap as (o & -> & Hres). exists o. split; [reflexivity|].
  split; [exact Hres|]. rewrite Hres. split; [apply sorted_set_NoDup|].
  split; [apply sorted_set_Sorted|].
  intros selected -> Hne n. unfold normalise_selection.
  destruct selected; [contradiction|]. apply elem_of_sorted_set.
Qed.

Lemma single_pass_records_each_selected_once_witness :
  match run_script (override calm mixed_items) (_process_all_lotteries (Some [3; 1; 2; 3])) with
  | (r, t) =>
      quiet t = true /\ all_labelled t = true /\ passes t = 1%nat
      /\ exists o,
          r = inr o
          /\ map lottery (results o) = normalise_selection (Some [3; 1; 2; 3])
          /\ NoDup (map lottery (results o))
          /\ Sorted Z.le (map lottery (results o))
          /\ forall selected, Some [3; 1; 2; 3] = Some selected -> selected <> [] ->
             forall n, n ∈ map lottery (results o) <-> n ∈ selected
  end.
Proof.
  unfold run_script.
  run_concretely (_process_all_lotteries (Some [3; 1; 2; 3]) tt
                    (fresh (override calm mixed_items))) E.
  rewrite E.
  assert (Hq : quiet t = true) by (vm_compute; reflexivity).
  assert (Hl : all_labelled t = true) by (vm_compute; reflexivity).
  assert (Hp : passes t = 1%nat) by (vm_compute; reflexivity).
  split; [exact Hq|]. split; [exact Hl|]. split; [exact Hp|].
  exact (single_pass_records_each_selected_once (Some [3; 1; 2; 3]) _ _ _ _ _ E Hq Hl Hp).
Defined.

(** * Further properties of the code *)

(** ** The solver: what it returns *)

Section SolverResult.
Context {W : Type} `{!World W}.

(** Symbolic execution where only the result matters: stop checks and
    waits are passed over. *)
Ltac result_explore :=
  repeat first
         [ lazymatch goal with
           | |- wpg _ (bind check_stop _) _ _ => wp_skip
           | |- wpg _ (bind (wait_checking _) _) _ _ => wp_skip
           end
         | wp_step | wp_branch ].

Lemma truthy_nonempty s : Str.truthy (Some s) = true -> s <> "".
Proof. cbn. intros H ->. discriminate H. Qed.

Lemma poll_body_token max_retries api_key attempt task_id :
  wpg (W:=W) any_event (poll_body max_retries api_key attempt task_id)
      (fun r _ _ => forall s, r = inr (Return s) -> s <> "") tt.
Proof.
  unfold poll_body, try_request. result_explore.
  all: try (intros ? [=]; fail).
  intros ? [= <-]. now apply truthy_nonempty.
Qed.

Lemma poll_loop_token max_retries api_key attempt remaining task_id :
  wpg (W:=W) any_event (poll_loop max_retries api_key attempt remaining task_id)
      (fun r _ _ => forall s, r = inr (Some s) -> s <> "") tt.
Proof.
  induction remaining as [|n IH]; cbn [poll_loop].
  { result_explore; intros ? [=]. }
  eapply wpg_bind_spec; [apply poll_body_token|].
  intros [e|[| |s]] [] ? _ Hs; cbv beta iota.
  - intros ? [=].
  - eapply wpg_conseq; [apply IH|]. auto.
  - wp_step. intros ? [=].
  - wp_step. intros ? [= <-]. now apply Hs.
Qed.

Lemma attempt_try_block_token site_key url max_retries min_score page_action api_key attempt :
  wpg (W:=W) any_event
      (attempt_try_block site_key url max_retries min_score page_action api_key attempt)
      (fun r _ _ => forall s, r = inr (Some s) -> s <> "") tt.
Proof.
  unfold attempt_try_block, try_request. result_explore.
  all: try (intros ? [=]; fail).
  eapply wpg_conseq; [apply poll_loop_token|]. auto.
Qed.

Lemma attempt_body_token site_key url max_retries min_score page_action api_key attempt :
  wpg (W:=W) any_event
      (attempt_body site_key url max_retries min_score page_action api_key attempt)
      (fun r _ _ => forall s, r = inr (Some s) -> s <> "") tt.
Proof.
  unfold attempt_body.
  eapply wpg_try_spec; [apply attempt_try_block_token|].
  intros [e|a] [] ? _ Hs; cbv beta iota; [|exact Hs].
  result_explore; intros ? [=].
Qed.

Lemma solve_attempts_token site_key url max_retries min_score page_action api_key remaining :
  forall attempt,
    wpg (W:=W) any_event
        (solve_attempts site_key url max_retries min_score page_action api_key
                        remaining attempt)
        (fun r _ _ => forall s, r = inr s -> s <> "") tt.
Proof.
  induction remaining as [|n IH]; intros attempt; cbn [solve_attempts].
  { wp_step. intros ? [=]. }
  eapply wpg_bind_spec; [apply attempt_body_token|].
  intros [e|[s|]] [] ? _ Hs; cbv beta iota.
  - intros ? [=].
  - wp_step. intros ? [= <-]. now apply Hs.
  - eapply wpg_conseq; [apply IH|]. auto.
Qed.

Lemma solve_recaptcha_token key site_key url driver max_retries min_score page_action :
  wpg (W:=W) any_event
      (solve_recaptcha key site_key url driver max_retries min_score page_action)
      (fun r _ _ => forall s, r = inr s -> s <> "") tt.
Proof.
  unfold solve_recaptcha.
  wp_branch; [wp_step; intros ? [=]|]. wp_branch; [wp_step; intros ? [=]|].
  wp_skip; [intros ? [=]|].
  eapply wpg_conseq; [apply solve_attempts_token|]. auto.
Qed.

End SolverResult.

(** [solve_recaptcha] never returns an empty token: whatever the provider
    answers, a run that returns, returns a non-empty string. *)
Theorem solve_recaptcha_token_nonempty
        {W : Type} `{!World W} key site_key url driver max_retries min_score page_action
        (w : W) s l' w' t :
  solve_recaptcha key site_key url driver max_retries min_score page_action tt w
  = (inr s, l', w', t) ->
  s <> "".
Proof.
  intros E.
  exact (wpg_run any_event _ (fun r _ _ => forall s, r = inr s -> s <> "") _ _ _ _ _ _
                 (solve_recaptcha_token _ _ _ _ _ _ _) E (forallb_any t) s eq_refl).
Qed.

Lemma solve_recaptcha_token_nonempty_witness :
  exists s l' w' t,
    solve_recaptcha (Some "KEY") "6Lc_site_key_of_the_page" CAPTCHA_BASE_URL
                    true 5 0.9%float None tt
                    (fresh (override calm (two_processing_then_ready "T")))
    = (inr s, l', w', t)
    /\ s <> "".
Proof.
  run_concretely (solve_recaptcha (Some "KEY") "6Lc_site_key_of_the_page" CAPTCHA_BASE_URL
                    true 5 0.9%float None tt
                    (fresh (override calm (two_processing_then_ready "T")))) E.
  exists "T", l', w', t. split; [exact E|].
  exact (solve_recaptcha_token_nonempty _ _ _ _ _ _ _ _ _ _ _ _ E).
Defined.

(** ** The solver: how many requests it makes *)

Create HintDb counts discriminated.

(** Uses a proved bound, from the hint database [counts], for the
    program in front. *)
Ltac count_known :=
  lazymatch goal with
  | |- wpg _ (bind (call_with _ _) _) _ _ =>
      apply wpg_bind; apply wpg_call_with; eapply wpg_conseq; [solve [eauto with counts]|]
  | |- wpg _ (bind _ _) _ _ =>
      eapply wpg_bind_spec; [solve [eauto with counts]|]
  | |- wpg _ (try_except _ _) _ _ =>
      eapply wpg_try_spec; [solve [eauto with counts]|]
  end;
  let HS := fresh "HS" in
  intros [?|?] ? ? _ HS; cbv beta in HS;
  repeat match type of HS with
         | _ /\ _ => let H1 := fresh "HS" in destruct HS as [H1 HS]
         end;
  cbv beta iota zeta; destruct_units.

Ltac count_leaf :=
  intros; cbv beta in *; rewrite ?app_nil_r; rewrite ?count_events_app; cbn; try split; lia.

Ltac count_auto := repeat first [count_known | wp_step | wp_branch]; try solve [count_leaf].

Section SolverRequests.
Context {W : Type} `{!World W}.

Local Abbreviation requests a b :=
  (fun (_ : exn + _) (_ : unit) t =>
     (count_events is_submission t <= a)%nat /\ (count_events is_poll t <= b)%nat).

Lemma check_stop_requests : wpg (W:=W) any_event check_stop (requests 0 0) tt.
Proof. unfold check_stop. count_auto. Qed.
Hint Resolve check_stop_requests : counts.

Lemma wait_checking_requests n : wpg (W:=W) any_event (wait_checking n) (requests 0 0) tt.
Proof.
  induction n as [|n IH]; cbn [wait_checking]; count_auto.
  eapply wpg_conseq; [apply IH|]. count_leaf.
Qed.
Hint Resolve wait_checking_requests : counts.

Lemma poll_body_requests max_retries api_key attempt task_id :
  wpg (W:=W) any_event (poll_body max_retries api_key attempt task_id) (requests 0 1) tt.
Proof. unfold poll_body, try_request. count_auto. Qed.
Hint Resolve poll_body_requests : counts.

Lemma poll_loop_requests max_retries api_key attempt remaining task_id :
  wpg (W:=W) any_event (poll_loop max_retries api_key attempt remaining task_id)
      (requests 0 remaining) tt.
Proof.
  induction remaining as [|n IH]; cbn [poll_loop]; count_auto.
  eapply wpg_conseq; [apply IH|]. count_leaf.
Qed.
Hint Resolve poll_loop_requests : counts.

Lemma attempt_try_block_requests site_key url max_retries min_score page_action api_key attempt :
  wpg (W:=W) any_event
      (attempt_try_block site_key url max_retries min_score page_action api_key attempt)
      (requests 1 60) tt.
Proof.
  unfold attempt_try_block, try_request. count_auto.
  eapply wpg_conseq; [apply poll_loop_requests|]. count_leaf.
Qed.
Hint Resolve attempt_try_block_requests : counts.

Lemma attempt_body_requests site_key url max_retries min_score page_action api_key attempt :
  wpg (W:=W) any_event
      (attempt_body site_key url max_retries min_score page_action api_key attempt)
      (requests 1 60) tt.
Proof. unfold attempt_body. count_auto. Qed.
Hint Resolve attempt_body_requests : counts.

Lemma solve_attempts_requests site_key url max_retries min_score page_action api_key remaining :
  forall attempt,
    wpg (W:=W) any_event
        (solve_attempts site_key url max_retries min_score page_action api_key
                        remaining attempt)
        (requests remaining (60 * remaining)) tt.
Proof.
  induction remaining as [|n IH]; intros attempt; cbn [solve_attempts]; count_auto.
  eapply wpg_conseq; [apply IH|]. count_leaf.
Qed.

Lemma solve_recaptcha_requests key site_key url driver max_retries min_score page_action :
  wpg (W:=W) any_event
      (solve_recaptcha key site_key url driver max_retries min_score page_action)
      (requests max_retries (60 * max_retries)) tt.
Proof.
  unfold solve_recaptcha. wp_branch; [count_auto|]. wp_branch; [count_auto|].
  wp_step. wp_branch.
  - wp_step. intros [e|a] _; [count_leaf|].
    eapply wpg_conseq; [apply solve_attempts_requests|]. count_leaf.
  - wp_step. eapply wpg_conseq; [apply solve_attempts_requests|]. count_leaf.
Qed.

End SolverRequests.

(** Whatever the provider answers, a run of [solve_recaptcha] submits at
    most [max_retries] tasks and polls the result endpoint at most 60
    times per task. *)
Theorem solve_recaptcha_requests_bounded
        {W : Type} `{!World W} key site_key url driver max_retries min_score page_action
        (w : W) :
  match solve_recaptcha key site_key url driver max_retries min_score page_action tt w with
  | (_, _, _, t) =>
      (count_events is_submission t <= max_retries)%nat
      /\ (count_events is_poll t <= 60 * max_retries)%nat
  end.
Proof.
  pose proof (solve_recaptcha_requests key site_key url driver max_retries min_score
                page_action w) as H.
  destruct (solve_recaptcha _ _ _ _ _ _ _ tt w) as [[[r l'] w'] t].
  apply H, forallb_any.
Qed.

(** ** The solver: cancellation *)

Create HintDb halts discriminated.

Lemma stop_requested_app t1 t2 :
  stop_requested (t1 ++ t2) = stop_requested t1 || stop_requested t2.
Proof. apply existsb_app. Qed.

Lemma halts_nil {A} (r : exn + A) : halts_on_request r [].
Proof. intros H. discriminate H. Qed.

Lemma halts_quiet {A} (r : exn + A) t : stop_requested t = false -> halts_on_request r t.
Proof. intros H H'. congruence. Qed.

Lemma halts_inl {A B} e t :
  halts_on_request (inl e : exn + A) t -> halts_on_request (inl e : exn + B) t.
Proof.
  intros H Hreq. destruct (H Hreq) as (He & Ht). injection He as ->. now split.
Qed.

(** A run that went on after [t1] had no stop request in [t1]. *)
Lemma halts_app {A B} (a : A) (r : exn + B) t1 t2 :
  halts_on_request (inr a : exn + A) t1 -> halts_on_request r t2 ->
  halts_on_request r (t1 ++ t2).
Proof.
  intros H1 H2 Hreq.
  assert (H1' : stop_requested t1 = false).
  { destruct (stop_requested t1) eqn:E; [|reflexivity].
    destruct (H1 E) as [Hx _]. discriminate Hx. }
  rewrite stop_requested_app, H1' in Hreq. cbn in Hreq.
  destruct (H2 Hreq) as (-> & t0 & -> & H0). split; [reflexivity|].
  exists (t1 ++ t0). split; [now rewrite app_assoc|].
  now rewrite stop_requested_app, H1', H0.
Qed.

Section SolverStops.
Context {W : Type} `{!World W}.

Local Abbreviation halting := (fun (r : exn + _) (_ : unit) t => halts_on_request r t).

Lemma halting_bind {A B} (m : PyM W unit A) (k : A -> PyM W unit B) :
  wpg any_event m halting tt -> (forall a, wpg any_event (k a) halting tt) ->
  wpg any_event (bind m k) halting tt.
Proof.
  intros Hm Hk. eapply wpg_bind_spec; [exact Hm|].
  intros [e|a] [] t1 _ H1; cbv beta iota; [exact (halts_inl e t1 H1)|].
  eapply wpg_conseq; [apply Hk|]. intros r [] t2 _ H2. cbv beta.
  exact (halts_app a r t1 t2 H1 H2).
Qed.

(** A handler that lets [StopIteration] through keeps the property. *)
Lemma halting_try {A} (m : PyM W unit A) (h : exn -> PyM W unit A) :
  wpg any_event m halting tt ->
  h stopped = raise stopped ->
  (forall e, wpg any_event (h e) halting tt) ->
  wpg any_event (try_except m h) halting tt.
Proof.
  intros Hm Hstop Hh. eapply wpg_try_spec; [exact Hm|].
  intros [e|a] [] t1 _ H1; cbv beta iota; [|exact H1].
  destruct (stop_requested t1) eqn:Hreq.
  - destruct (H1 Hreq) as (He & _). injection He as ->. rewrite Hstop. wp_step.
    rewrite app_nil_r. exact (halts_inl stopped t1 H1).
  - eapply wpg_conseq; [apply Hh|]. intros r [] t2 _ H2 Hreq2. cbv beta in *.
    rewrite stop_requested_app, Hreq in Hreq2. cbn in Hreq2.
    destruct (H2 Hreq2) as (-> & t0 & -> & H0). split; [reflexivity|].
    exists (t1 ++ t0). split; [now rewrite app_assoc|].
    now rewrite stop_requested_app, Hreq, H0.
Qed.

Lemma halting_ret {A} (a : A) : wpg (W:=W) any_event (ret a) halting tt.
Proof. wp_step. apply halts_nil. Qed.

Lemma halting_raise {A} e : wpg (W:=W) any_event (raise (A:=A) e) halting tt.
Proof. wp_step. apply halts_nil. Qed.

Lemma halting_perform {A} (o : op A) :
  (forall r, is_stop_request (Ev o r) = false) ->
  wpg (W:=W) any_event (perform o) halting tt.
Proof.
  intros Ho. wp_step. intros r _. apply halts_quiet.
  unfold stop_requested. cbn [existsb]. now rewrite Ho.
Qed.

Lemma check_stop_halting : wpg (W:=W) any_event check_stop halting tt.
Proof.
  unfold check_stop. wp_step. wp_step. intros [e|[|]] _; cbv beta iota.
  - now apply halts_quiet.
  - wp_step. now apply halts_quiet.
  - wp_step. intros _. split; [reflexivity|]. exists []. now split.
Qed.

Lemma wait_checking_halting n : wpg (W:=W) any_event (wait_checking n) halting tt.
Proof.
  induction n as [|n IH]; cbn [wait_checking]; [apply halting_ret|].
  apply halting_bind; [apply check_stop_halting|intros _; apply IH].
Qed.

Hint Resolve halting_ret halting_raise check_stop_halting wait_checking_halting : halts.

(** Structural proof of the property for a loop-free program. *)
Ltac halting_auto :=
  repeat first
         [ solve [eauto with halts]
         | apply halting_perform; intros; reflexivity
         | apply halting_bind; [|intros ?]
         | apply halting_try; [|reflexivity|intros ?]
         | lazymatch goal with
           | |- wpg _ (if ?b then _ else _) _ _ => destruct b
           | |- wpg _ (match ?x with _ => _ end) _ _ => destruct x
           end ].

Lemma poll_body_halting max_retries api_key attempt task_id :
  wpg (W:=W) any_event (poll_body max_retries api_key attempt task_id) halting tt.
Proof. unfold poll_body, try_request. halting_auto. Qed.
Hint Resolve poll_body_halting : halts.

Lemma poll_loop_halting max_retries api_key attempt remaining task_id :
  wpg (W:=W) any_event (poll_loop max_retries api_key attempt remaining task_id) halting tt.
Proof. induction remaining as [|n IH]; cbn [poll_loop]; halting_auto. Qed.
Hint Resolve poll_loop_halting : halts.

Lemma attempt_body_halting site_key url max_retries min_score page_action api_key attempt :
  wpg (W:=W) any_event
      (attempt_body site_key url max_retries min_score page_action api_key attempt)
      halting tt.
Proof. unfold attempt_body, attempt_try_block, try_request. halting_auto. Qed.
Hint Resolve attempt_body_halting : halts.

Lemma solve_attempts_halting site_key url max_retries min_score page_action api_key remaining :
  forall attempt,
    wpg (W:=W) any_event
        (solve_attempts site_key url max_retries min_score page_action api_key
                        remaining attempt)
        halting tt.
Proof.
  induction remaining as [|n IH]; intros attempt; cbn [solve_attempts]; halting_auto.
Qed.
Hint Resolve solve_attempts_halting : halts.

Lemma solve_recaptcha_halting key site_key url driver max_retries min_score page_action :
  wpg (W:=W) any_event
      (solve_recaptcha key site_key url driver max_retries min_score page_action)
      halting tt.
Proof. unfold solve_recaptcha. halting_auto. Qed.

End SolverStops.

(** [solve_recaptcha] honours the first stop request: when a stop check
    of a run finds the stop requested, the run ends right there by raising
    [StopIteration]; no request is made after it. *)
Theorem solve_recaptcha_stops_at_first_request
        {W : Type} `{!World W} key site_key url driver max_retries min_score page_action
        (w : W) r l' w' t :
  solve_recaptcha key site_key url driver max_retries min_score page_action tt w
  = (r, l', w', t) ->
  stop_requested t = true ->
  r = inl stopped
  /\ exists t0, t = t0 ++ [stop_request] /\ stop_requested t0 = false.
Proof.
  intros E.
  exact (wpg_run any_event _ (fun r _ t => halts_on_request r t) _ _ _ _ _ _
                 (solve_recaptcha_halting _ _ _ _ _ _ _) E (forallb_any t)).
Qed.

Lemma solve_recaptcha_stops_at_first_request_witness :
  exists r l' w' t,
    solve_recaptcha (Some "KEY") "6Lc_site_key_of_the_page" CAPTCHA_BASE_URL
                    true 5 0.9%float None tt
                    (fresh (override (override calm (two_processing_then_ready "T"))
                                     (stop_after 4)))
    = (r, l', w', t)
    /\ stop_requested t = true
    /\ r = inl stopped
    /\ exists t0, t = t0 ++ [stop_request] /\ stop_requested t0 = false.
Proof.
  run_concretely (solve_recaptcha (Some "KEY") "6Lc_site_key_of_the_page" CAPTCHA_BASE_URL
                    true 5 0.9%float None tt
                    (fresh (override (override calm (two_processing_then_ready "T"))
                                     (stop_after 4)))) E.
  assert (Hreq : stop_requested t = true) by (vm_compute; reflexivity).
  exists r, l', w', t. split; [exact E|]. split; [exact Hreq|].
  exact (solve_recaptcha_stops_at_first_request _ _ _ _ _ _ _ _ _ _ _ _ E Hreq).
Defined.

(** ** The popup handler: how often it reloads *)

Section HandlerReloads.
Context {W : Type} `{!World W}.

Local Abbreviation reloads a b :=
  (fun (_ : exn + _) (_ : unit) t =>
     (count_events is_refresh t <= a)%nat /\ (count_events is_reload t <= b)%nat).

Lemma check_stop_reloads : wpg (W:=W) any_event check_stop (reloads 0 0) tt.
Proof. unfold check_stop. count_auto. Qed.
Hint Resolve check_stop_reloads : counts.

Lemma wait_checking_reloads n : wpg (W:=W) any_event (wait_checking n) (reloads 0 0) tt.
Proof.
  induction n as [|n IH]; cbn [wait_checking]; count_auto.
  eapply wpg_conseq; [apply IH|]. count_leaf.
Qed.
Hint Resolve wait_checking_reloads : counts.

Lemma try_close_reloads id : wpg (W:=W) any_event (try_close id) (reloads 0 0) tt.
Proof. unfold try_close. count_auto. Qed.
Hint Resolve try_close_reloads : counts.

Lemma reload_page_reloads : wpg (W:=W) any_event reload_page (reloads 1 3) tt.
Proof. unfold reload_page. count_auto. Qed.
Hint Resolve reload_page_reloads : counts.

Lemma recheck_after_reload_reloads id message max_reload_attempts reload_attempt :
  wpg (W:=W) any_event
      (recheck_after_reload id message max_reload_attempts reload_attempt)
      (reloads 0 0) tt.
Proof. unfold recheck_after_reload. count_auto. Qed.
Hint Resolve recheck_after_reload_reloads : counts.

Lemma reload_loop_reloads id message max_reload_attempts remaining :
  forall reload_attempt,
    wpg (W:=W) any_event
        (reload_loop id message max_reload_attempts remaining reload_attempt)
        (reloads remaining (3 * remaining)) tt.
Proof.
  induction remaining as [|n IH]; intros k; cbn [reload_loop]; count_auto.
  all: eapply wpg_conseq; [apply IH|]; count_leaf.
Qed.
Hint Resolve reload_loop_reloads : counts.

Lemma handle_overlay_reloads id message max_reload_attempts :
  wpg (W:=W) any_event (handle_overlay id message max_reload_attempts)
      (reloads max_reload_attempts (3 * max_reload_attempts)) tt.
Proof.
  unfold handle_overlay. count_auto.
  eapply wpg_conseq; [apply reload_loop_reloads|].
  intros [?|?] [] ? _ [? ?]; cbv beta iota; count_auto.
Qed.

Hint Resolve handle_overlay_reloads : counts.

(** Both halves of the handler together stay within one budget: the
    first half leaves the matter to the second only if it has not
    reloaded. *)
Lemma handler_reloads max_reload_attempts :
  wpg (W:=W) any_event (_check_and_handle_pop_exceptions max_reload_attempts)
      (reloads max_reload_attempts (3 * max_reload_attempts)) tt.
Proof.
  unfold _check_and_handle_pop_exceptions. wp_step. wp_step. wp_step.
  intros [e|pop05] _; cbv beta iota; [count_auto|].
  eapply wpg_bind_spec with
    (S := fun r _ t =>
            ((count_events is_refresh t <= max_reload_attempts)%nat
             /\ (count_events is_reload t <= 3 * max_reload_attempts)%nat)
            /\ (r = inr None -> count_events is_reload t = 0%nat)).
  { destruct pop05.
    - apply wpg_conj; [apply handle_overlay_reloads|apply handle_overlay_none].
    - wp_step. cbn. repeat split; lia. }
  intros [e|[b|]] [] t5 _ [[Hr Hl] Hnone]; cbv beta iota.
  - count_auto.
  - count_auto.
  - specialize (Hnone eq_refl).
    assert (Hnone' : count_events is_refresh t5 = 0%nat).
    { clear -Hnone. induction t5 as [|[A o r] t5 IH]; [reflexivity|].
      cbn in *. destruct o; cbn in *; try discriminate; auto. }
    unfold check_pop04. count_auto.
Qed.

End HandlerReloads.

(** Whatever the page does, a run of [_check_and_handle_pop_exceptions]
    calls [driver.refresh()] at most [max_reload_attempts] times, and
    requests at most three reload mechanisms per attempt. *)
Theorem handler_reloads_bounded
        {W : Type} `{!World W} max_reload_attempts (w : W) :
  match _check_and_handle_pop_exceptions max_reload_attempts tt w with
  | (_, _, _, t) =>
      (count_events is_refresh t <= max_reload_attempts)%nat
      /\ (count_events is_reload t <= 3 * max_reload_attempts)%nat
  end.
Proof.
  pose proof (handler_reloads max_reload_attempts w) as H.
  destruct (_check_and_handle_pop_exceptions max_reload_attempts tt w) as [[[r l'] w'] t].
  apply H, forallb_any.
Qed.

(** ** The popup handler: what its answer means *)

Section HandlerAnswer.
Context {W : Type} `{!World W}.

(** Symbolic execution where stop checks and waits are passed over. *)
Ltac answer_explore :=
  repeat first
         [ lazymatch goal with
           | |- wpg _ (bind check_stop _) _ _ => wp_skip
           | |- wpg _ (bind (wait_checking _) _) _ _ => wp_skip
           | |- wpg _ (bind (try_close _) _) _ _ => wp_skip
           end
         | wp_step | wp_branch ].

Ltac done_leaf :=
  intros; try discriminate; rewrite ?count_events_app; cbn; lia.

Lemma reload_page_done :
  wpg (W:=W) any_event reload_page
      (fun r _ t => r = inr true -> (1 <= count_events is_reload_done t)%nat) tt.
Proof. unfold reload_page. answer_explore. all: done_leaf. Qed.

Lemma reload_loop_done id message max_reload_attempts remaining :
  forall reload_attempt,
    wpg (W:=W) any_event
        (reload_loop id message max_reload_attempts remaining reload_attempt)
        (fun r _ t => r = inr (Some true) -> (1 <= count_events is_reload_done t)%nat) tt.
Proof.
  induction remaining as [|n IH]; intros k; cbn [reload_loop].
  { wp_step. discriminate. }
  wp_skip; [discriminate|]. wp_step. wp_step. intros [e|url] _; cbv beta iota; [discriminate|].
  eapply wpg_bind_spec; [apply reload_page_done|].
  intros [?|[|]] [] ? _ H1; cbv beta iota; [discriminate| |].
  - specialize (H1 eq_refl).
    eapply wpg_conseq; [apply wpg_true|]. intros ? ? ? _ _ _.
    rewrite !count_events_app. lia.
  - wp_branch.
    + eapply wpg_conseq; [apply IH|]. intros ? ? ? _ H Hr.
      specialize (H Hr). rewrite !count_events_app. lia.
    + unfold try_close. answer_explore. all: done_leaf.
Qed.

Lemma handle_overlay_done id message max_reload_attempts :
  wpg (W:=W) any_event (handle_overlay id message max_reload_attempts)
      (fun r _ t => r = inr (Some true) -> (1 <= count_events is_reload_done t)%nat) tt.
Proof.
  unfold handle_overlay. wp_step. wp_step. wp_step.
  intros [e|text] _; cbv beta iota.
  { answer_explore. all: done_leaf. }
  wp_branch.
  - eapply wpg_conseq; [apply reload_loop_done|].
    intros [?|?] [] ? _ H; cbv beta iota.
    + answer_explore. all: done_leaf.
    + intros Hr. specialize (H Hr). rewrite !count_events_app. lia.
  - answer_explore. all: done_leaf.
Qed.

Lemma handler_done max_reload_attempts :
  wpg (W:=W) any_event (_check_and_handle_pop_exceptions max_reload_attempts)
      (fun r _ t => exists b, r = inr b
                              /\ (b = true -> (1 <= count_events is_reload_done t)%nat)) tt.
Proof.
  assert (Hfalse : forall t : list event,
             exists b, inr false = inr (A:=exn) b
                       /\ (b = true -> (1 <= count_events is_reload_done t)%nat)).
  { intros t. exists false. split; [reflexivity|discriminate]. }
  assert (Hany : forall (b : bool) (t t' : list event),
             (b = true -> (1 <= count_events is_reload_done t)%nat) ->
             exists b', inr b = inr (A:=exn) b'
                        /\ (b' = true -> (1 <= count_events is_reload_done (t' ++ t))%nat)).
  { intros b t t' H. exists b. split; [reflexivity|]. intros Hb.
    specialize (H Hb). rewrite count_events_app. lia. }
  unfold _check_and_handle_pop_exceptions. wp_step. wp_step. wp_step.
  intros [e|pop05] _; cbv beta iota; [wp_step; apply Hfalse|].
  eapply wpg_bind_spec with
    (S := fun r _ t => r = inr (Some true) -> (1 <= count_events is_reload_done t)%nat).
  { destruct pop05; [apply handle_overlay_done|wp_step; discriminate]. }
  intros [?|[b|]] [] ? _ H5; cbv beta iota.
  - wp_step. apply Hfalse.
  - wp_step. rewrite app_nil_r. apply Hany. intros ->. now apply H5.
  - unfold check_pop04. wp_step. wp_step. intros [e|n] _; cbv beta iota; [wp_step; apply Hfalse|].
    wp_skip; [wp_step; apply Hfalse|]. wp_step. wp_step.
    intros [e|pop04] _; cbv beta iota; [wp_step; apply Hfalse|].
    destruct pop04; [|wp_step; apply Hfalse].
    eapply wpg_bind_spec; [apply handle_overlay_done|].
    intros [?|r4] [] ? _ H4; cbv beta iota; [wp_step; apply Hfalse|].
    wp_step. rewrite !app_nil_r, !app_assoc. apply Hany.
    destruct r4 as [[|]|]; cbn; try discriminate. intros _. now apply H4.
Qed.

End HandlerAnswer.

(** [_check_and_handle_pop_exceptions] never raises, not even when the
    stop is requested while it runs, and it answers [True] only if a
    reload of the page went through. *)
Theorem handler_answers_true_only_after_reload
        {W : Type} `{!World W} max_reload_attempts (w : W) :
  match _check_and_handle_pop_exceptions max_reload_attempts tt w with
  | (r, _, _, t) =>
      exists b, r = inr b /\ (b = true -> (1 <= count_events is_reload_done t)%nat)
  end.
Proof.
  pose proof (handler_done max_reload_attempts w) as H.
  destruct (_check_and_handle_pop_exceptions max_reload_attempts tt w) as [[[r l'] w'] t].
  apply H, forallb_any.
Qed.

Lemma check_stop_untouched {W : Type} `{!World W} G :
  wpg (W:=W) G check_stop
      (fun _ _ t => count_events is_reload t = 0%nat /\ count_events is_click t = 0%nat) tt.
Proof.
  unfold check_stop. wp_step. wp_step. intros [e|[|]] _; cbv beta iota; [now split| |];
    wp_step; now split.
Qed.

(** When no check finds an overlay displayed, the handler answers
    [False] and has neither reloaded the page nor clicked anything. *)
Theorem handler_leaves_clear_page_alone
        {W : Type} `{!World W} max_reload_attempts (w : W) r l' w' t :
  _check_and_handle_pop_exceptions max_reload_attempts tt w = (r, l', w', t) ->
  forallb no_overlay_shown t = true ->
  r = inr false
  /\ count_events is_reload t = 0%nat
  /\ count_events is_click t = 0%nat.
Proof.
  intros E Hclear.
  refine (wpg_run no_overlay_shown _
            (fun r _ t => r = inr false /\ count_events is_reload t = 0%nat
                          /\ count_events is_click t = 0%nat)
            _ _ _ _ _ _ _ E Hclear).
  clear. unfold _check_and_handle_pop_exceptions, check_pop04.
  repeat wp_step. intros [e|[|]] Hg; try discriminate Hg; cbv beta iota.
  { wp_step. now repeat split. }
  repeat wp_step. intros [e|n] _; cbv beta iota.
  { wp_step. now repeat split. }
  eapply wpg_bind_spec; [apply check_stop_untouched|].
  intros [e|[]] [] ts _ [Hr Hc]; cbv beta iota.
  { wp_step. rewrite !count_events_app, Hr, Hc. now repeat split. }
  repeat wp_step. intros [e|[|]] Hg'; try discriminate Hg'; cbv beta iota.
  - wp_step. rewrite !count_events_app, Hr, Hc. now repeat split.
  - wp_step. rewrite !count_events_app, Hr, Hc. now repeat split.
Qed.

Lemma handler_leaves_clear_page_alone_witness :
  exists r l' w' t,
    _check_and_handle_pop_exceptions 5 tt (fresh calm) = (r, l', w', t)
    /\ forallb no_overlay_shown t = true
    /\ r = inr false
    /\ count_events is_reload t = 0%nat
    /\ count_events is_click t = 0%nat.
Proof.
  run_concretely (_check_and_handle_pop_exceptions 5 tt (fresh calm)) E.
  assert (Hclear : forallb no_overlay_shown t = true) by (vm_compute; reflexivity).
  exists r, l', w', t. split; [exact E|]. split; [exact Hclear|].
  exact (handler_leaves_clear_page_alone 5%nat _ _ _ _ _ E Hclear).
Defined.

(** ** The operations that the item phase performs *)

Section Footprint.
Context {W : Type} `{!World W}.
Variable P : event -> Prop.
Hypothesis P_page : forall A (o : op A) r, page_op o = true -> P (Ev o r).

Ltac footprint_leaf :=
  intros; rewrite ?app_nil_r; rewrite ?Forall_app, ?Forall_cons, ?Forall_nil;
  repeat split; try assumption; try (apply P_page; reflexivity).

Ltac footprint := repeat first [emits_known | wp_step | wp_branch]; try solve [footprint_leaf].

Lemma check_stop_page : emits (W:=W) P check_stop.
Proof. apply check_stop_emits. intros r. now apply P_page. Qed.
Hint Resolve check_stop_page : emits.

Lemma wait_checking_page n : emits (W:=W) P (wait_checking n).
Proof. apply wait_checking_emits. intros r. now apply P_page. Qed.
Hint Resolve wait_checking_page : emits.

Lemma try_close_page id : emits (W:=W) P (try_close id).
Proof. intros []. unfold try_close. footprint. Qed.
Hint Resolve try_close_page : emits.

Lemma reload_page_page : emits (W:=W) P reload_page.
Proof. intros []. unfold reload_page. footprint. Qed.
Hint Resolve reload_page_page : emits.

Lemma recheck_after_reload_page id message max_reload_attempts reload_attempt :
  emits (W:=W) P (recheck_after_reload id message max_reload_attempts reload_attempt).
Proof. intros []. unfold recheck_after_reload. footprint. Qed.
Hint Resolve recheck_after_reload_page : emits.

Lemma reload_loop_page id message max_reload_attempts remaining :
  forall reload_attempt,
    emits (W:=W) P (reload_loop id message max_reload_attempts remaining reload_attempt).
Proof.
  induction remaining as [|n IH]; intros k []; cbn [reload_loop]; footprint.
Qed.
Hint Resolve reload_loop_page : emits.

Lemma handle_overlay_page id message max_reload_attempts :
  emits (W:=W) P (handle_overlay id message max_reload_attempts).
Proof. intros []. unfold handle_overlay. footprint. Qed.
Hint Resolve handle_overlay_page : emits.

Lemma handler_page max_reload_attempts :
  emits (W:=W) P (_check_and_handle_pop_exceptions max_reload_attempts).
Proof. intros []. unfold _check_and_handle_pop_exceptions, check_pop04. footprint. Qed.
Hint Resolve handler_page : emits.

Lemma ensure_apply_page_page waits : emits (W:=W) P (ensure_apply_page waits).
Proof. intros []. unfold ensure_apply_page. footprint. Qed.
Hint Resolve ensure_apply_page_page : emits.

Lemma back_to_apply_page_page selected lottery_index :
  emits (W:=W) P (back_to_apply_page selected lottery_index).
Proof. intros []. unfold back_to_apply_page. footprint. Qed.
Hint Resolve back_to_apply_page_page : emits.

Lemma after_failure_page selected lottery_index :
  emits (W:=W) P (L:=locals) (after_failure selected lottery_index).
Proof. intros l. unfold after_failure, restart_after_reload. footprint. Qed.
Hint Resolve after_failure_page : emits.

(** The checks made after a pass add the status checks. *)
Hypothesis P_status : forall n r, P (Ev (CheckLotteryStatus n) r).

Ltac checks_leaf :=
  intros; rewrite ?app_nil_r; rewrite ?Forall_app, ?Forall_cons, ?Forall_nil;
  repeat split; try assumption; try (apply P_page; reflexivity); try apply P_status.

Ltac checks := repeat first [emits_known | wp_step | wp_branch]; try solve [checks_leaf].

Lemma recheck_open_items rest :
  forall has_open_lotteries, emits (W:=W) P (recheck_open rest has_open_lotteries).
Proof. induction rest as [|n rest IH]; intros b l; cbn [recheck_open]; checks. Qed.
Hint Resolve recheck_open_items : emits.

Lemma verify_completed_items rest : emits (W:=W) P (verify_completed rest).
Proof. induction rest as [|n rest IH]; intros l; cbn [verify_completed]; checks. Qed.
Hint Resolve verify_completed_items : emits.

Lemma final_verify_items rest :
  forall all_final_verified, emits (W:=W) P (final_verify rest all_final_verified).
Proof. induction rest as [|n rest IH]; intros b l; cbn [final_verify]; checks. Qed.
Hint Resolve final_verify_items : emits.

Lemma completion_block_items selected : emits (W:=W) P (completion_block selected).
Proof. intros l. unfold completion_block. checks. Qed.
Hint Resolve completion_block_items : emits.

Lemma verdict_block_items selected : emits (W:=W) P (verdict_block selected).
Proof.
  intros l. unfold verdict_block. wp_step. wp_step.
  destruct (determine_final_status (lottery_results l)) as [[st msg] leave]. checks.
Qed.
Hint Resolve verdict_block_items : emits.

(** The loop over the items adds the entries. *)
Hypothesis P_entry : forall n r, P (Ev (ProcessLotteryEntry n) r).

Ltac items_leaf :=
  intros; rewrite ?app_nil_r; rewrite ?Forall_app, ?Forall_cons, ?Forall_nil;
  repeat split; try assumption; try (apply P_page; reflexivity);
  try apply P_status; try apply P_entry.

Ltac items := repeat first [emits_known | wp_step | wp_branch]; try solve [items_leaf].

Lemma process_open_lottery_items selected lottery_index lottery_number :
  emits (W:=W) P (process_open_lottery selected lottery_index lottery_number).
Proof.
  intros l. unfold process_open_lottery, restart_after_reload, append_result. items.
Qed.
Hint Resolve process_open_lottery_items : emits.

Lemma classify_lottery_items selected lottery_index lottery_number :
  emits (W:=W) P (classify_lottery selected lottery_index lottery_number).
Proof. intros l. unfold classify_lottery, append_result. items. Qed.
Hint Resolve classify_lottery_items : emits.

Lemma process_selected_items selected rest :
  forall lottery_index, emits (W:=W) P (process_selected selected rest lottery_index).
Proof.
  induction rest as [|n rest IH]; intros idx l; cbn [process_selected]; items.
Qed.
Hint Resolve process_selected_items : emits.

(** What follows the CAPTCHA check in a pass. *)
Lemma pass_items selected :
  emits (W:=W) P
        (call check_stop ;;
         call (ensure_apply_page 5) ;;
         process_selected selected selected 0 ;;
         l <- get_locals ;;
         if reload_occurred l then ret LoopContinue
         else
           c <- (if (length selected <=? checked_count l)%nat
                 then completion_block selected
                 else ret FallThrough) ;;
           match c with
           | FallThrough =>
               l <- get_locals ;;
               if (length selected <=? checked_count l)%nat
               then verdict_block selected
               else ret FallThrough
           | _ => ret c
           end).
Proof. intros l. items. Qed.

(** The whole batch adds the CAPTCHA check of the apply page. *)
Hypothesis P_captcha : forall r, P (Ev CheckAndSolveCaptchaOnApplyPage r).

Lemma one_pass_batch selected : emits (W:=W) P (one_pass selected).
Proof.
  intros l. unfold one_pass. wp_step. wp_step. wp_step. wp_step.
  emits_known; [items_leaf|]. wp_step. wp_step. intros r _.
  destruct r as [e|b]; [items_leaf; apply P_captcha|].
  eapply wpg_conseq; [apply pass_items|]. items_leaf. apply P_captcha.
Qed.
Hint Resolve one_pass_batch : emits.

Lemma retry_loop_batch selected fuel : emits (W:=W) P (retry_loop selected fuel).
Proof. induction fuel as [|n IH]; intros l; cbn [retry_loop]; items. Qed.
Hint Resolve retry_loop_batch : emits.

Lemma process_all_lotteries_batch selected_lotteries :
  emits (W:=W) P (_process_all_lotteries selected_lotteries).
Proof.
  intros []. unfold _process_all_lotteries, process_all_lotteries_body. items.
Qed.

End Footprint.

(** ** The batch: how many passes it makes *)

Lemma count_events_none p t :
  Forall (fun e => p e = false) t -> count_events p t = 0%nat.
Proof.
  induction 1 as [|e t He _ IH]; [reflexivity|]. cbn. now rewrite He, IH.
Qed.

Lemma page_op_no_pass_start A (o : op A) r :
  page_op o = true -> is_pass_start (Ev o r) = false.
Proof. destruct o; intros H; try discriminate H; reflexivity. Qed.

Section Passes.
Context {W : Type} `{!World W}.

Local Abbreviation no_start := (fun e : event => is_pass_start e = false).

Lemma one_pass_once selected l :
  wpg (W:=W) any_event (one_pass selected) (fun _ _ t => (passes t <= 1)%nat) l.
Proof.
  unfold one_pass. wp_step. wp_step. wp_step. wp_step.
  eapply wpg_bind_spec;
    [apply emits_call, (check_stop_page no_start page_op_no_pass_start)|].
  intros [e|[]] l1 t1 _ H1%count_events_none; cbv beta iota;
    [unfold passes; rewrite !count_events_app, H1; cbn; lia|].
  wp_step. wp_step. intros r _.
  assert (Hr : (passes [Ev CheckAndSolveCaptchaOnApplyPage r] <= 1)%nat) by (cbn; lia).
  destruct r as [e|b];
    [unfold passes in *; rewrite !count_events_app, H1; cbn; lia|].
  eapply wpg_conseq;
    [apply (pass_items no_start page_op_no_pass_start); intros; reflexivity|].
  intros ? ? ? _ H2%count_events_none. unfold passes in *.
  rewrite !count_events_app, H1, H2. cbn. lia.
Qed.

Lemma retry_loop_passes selected fuel :
  forall l,
    wpg (W:=W) any_event (retry_loop selected fuel)
        (fun _ _ t => (passes t <= max_retry_attempts - retry_attempt l)%nat) l.
Proof.
  induction fuel as [|n IH]; intros l; cbn [retry_loop].
  { wp_step. unfold passes. cbn [count_events]. lia. }
  wp_step. wp_step. destruct (retry_attempt l <? max_retry_attempts)%nat eqn:Hlt;
    [|wp_step; unfold passes; cbn [count_events app]; lia].
  apply Nat.ltb_lt in Hlt.
  eapply wpg_bind_spec; [apply wpg_conj; [apply one_pass_once|apply one_pass_flow]|].
  intros [e|c] l1 t1 _ [H1 Hflow]; cbv beta iota; unfold passes in *.
  { rewrite !count_events_app. cbn [count_events]. lia. }
  destruct c; cbn in Hflow.
  - contradiction.
  - eapply wpg_conseq; [apply IH|]. intros ? ? t2 _ H2. cbv beta in H2.
    rewrite !count_events_app. cbn [count_events]. rewrite Hflow in H2. lia.
  - wp_step. rewrite !count_events_app. cbn [count_events]. lia.
Qed.

End Passes.

(** Whatever the session does, a run of [_process_all_lotteries] starts at
    most [max_retry_attempts] (10) passes over the selected items. *)
Theorem batch_passes_bounded
        {W : Type} `{!World W} selected_lotteries (w : W) :
  match _process_all_lotteries selected_lotteries tt w with
  | (_, _, _, t) => (passes t <= max_retry_attempts)%nat
  end.
Proof.
  assert (H : wpg (W:=W) any_event (_process_all_lotteries selected_lotteries)
                  (fun _ _ t => (passes t <= max_retry_attempts)%nat) tt).
  { unfold _process_all_lotteries, process_all_lotteries_body. wp_step.
    eapply wpg_bind_spec; [apply retry_loop_passes|].
    intros [e|[]] l1 t1 _ H1; cbv beta iota;
      change (retry_attempt initial_locals) with 0%nat in H1;
      rewrite Nat.sub_0_r in H1; [exact H1|].
    wp_step. wp_step. wp_step. now rewrite !app_nil_r. }
  specialize (H w).
  destruct (_process_all_lotteries selected_lotteries tt w) as [[[r l'] w'] t].
  apply H, forallb_any.
Qed.

(** ** The batch: which items it submits *)

Lemma page_op_no_entry n A (o : op A) r : page_op o = true -> is_entry n (Ev o r) = false.
Proof. destruct o; intros H; try discriminate H; reflexivity. Qed.

Lemma emits_none {W : Type} `{!World W} p {L A} (m : PyM W L A) :
  emits (fun e => p e = false) m ->
  forall l, wpg any_event m (fun _ _ t => count_events p t = 0%nat) l.
Proof.
  intros H l. eapply wpg_conseq; [apply H|]. intros r l' t _ Ht.
  now apply count_events_none.
Qed.

Section Entries.
Context {W : Type} `{!World W}.
Variable n : Z.

Local Abbreviation no_entry := (fun e : event => is_entry n e = false).
Local Abbreviation entries t := (count_events (is_entry n) t).
Local Abbreviation opens t := (count_events (is_open_answer n) t).

Lemma process_open_lottery_entries selected lottery_index k l :
  wpg (W:=W) any_event (process_open_lottery selected lottery_index k)
      (fun _ _ t => (entries t <= if (k =? n)%Z then 1 else 0)%nat) l.
Proof.
  assert (Hpage : forall A (m : PyM W unit A) (l : locals),
             emits no_entry m ->
             wpg any_event (call m) (fun _ _ t => entries t = 0%nat) l).
  { intros A m l0 Hm. apply emits_none. now apply emits_call. }
  assert (Hafter : forall l, wpg (W:=W) any_event (after_failure selected lottery_index)
                                 (fun _ _ t => entries t = 0%nat) l).
  { apply emits_none. apply after_failure_page. apply page_op_no_entry. }
  assert (Hstop := fun l => Hpage _ _ l (check_stop_page no_entry (page_op_no_entry n))).
  assert (Hhandler := fun l => Hpage _ _ l (handler_page no_entry (page_op_no_entry n) 5)).
  unfold process_open_lottery, restart_after_reload, append_result.
  wp_step. wp_step. wp_step. intros r _.
  assert (Hr : (entries [Ev (ProcessLotteryEntry k) r] <= if (k =? n)%Z then 1 else 0)%nat).
  { cbn. destruct (k =? n); lia. }
  revert Hr. generalize [Ev (ProcessLotteryEntry k) r]. intros t0 H0.
  assert (Hfail : forall (t1 : list event) st rsn l1,
             entries t1 = 0%nat ->
             wpg any_event
               (append_result k st rsn ;; after_failure selected lottery_index)
               (fun _ _ t2 => (entries ((t0 ++ t1) ++ t2) <= if (k =? n)%Z then 1 else 0)%nat) l1).
  { intros t1 st rsn l1 H1. unfold append_result. wp_step. wp_step.
    eapply wpg_conseq; [apply Hafter|]. intros ? ? t2 _ H2. cbv beta in H2.
    rewrite !count_events_app, H1, H2. cbn [count_events]. lia. }
  destruct r as [e|result]; cbv beta iota.
  { destruct (is_stop e).
    - repeat wp_step. rewrite !count_events_app. cbn [count_events]. lia.
    - eapply wpg_conseq; [apply (Hfail []); reflexivity|].
      intros ? ? t2 _ H2. now rewrite app_nil_r in H2. }
  destruct result.
  - wp_step. wp_step. wp_step. wp_step.
    eapply wpg_bind_spec; [apply Hstop|].
    intros [e|[]] l1 t1 _ H1; cbv beta iota.
    { destruct (is_stop e).
      + repeat wp_step. rewrite !count_events_app, H1. cbn [count_events]. lia.
      + eapply wpg_conseq; [apply (Hfail ([] ++ [] ++ t1)); now rewrite !count_events_app, H1|].
        intros ? ? t2 _ H2. exact H2. }
    eapply wpg_bind_spec; [apply Hhandler|].
    intros [e|b] l2 t2 _ H2; cbv beta iota.
    { destruct (is_stop e).
      + repeat wp_step. rewrite !count_events_app, H1, H2. cbn [count_events]. lia.
      + eapply wpg_conseq;
          [apply (Hfail ([] ++ [] ++ t1 ++ t2)); now rewrite !count_events_app, H1, H2|].
        intros ? ? t3 _ H3. exact H3. }
    destruct b.
    + repeat wp_step. rewrite !count_events_app, H1, H2. cbn [count_events]. lia.
    + eapply wpg_bind_spec; [apply Hstop|].
      intros [e|[]] l3 t3 _ H3; cbv beta iota.
      { destruct (is_stop e).
        - repeat wp_step. rewrite !count_events_app, H1, H2, H3. cbn [count_events]. lia.
        - eapply wpg_conseq;
            [apply (Hfail ([] ++ [] ++ t1 ++ t2 ++ t3));
             now rewrite !count_events_app, H1, H2, H3|].
          intros ? ? t4 _ H4. exact H4. }
      wp_step. rewrite !count_events_app, H1, H2, H3. cbn [count_events]. lia.
  - wp_step. wp_step.
    eapply wpg_conseq; [apply Hafter|]. intros [e|c] ? t1 _ H1; cbv beta iota.
    { destruct (is_stop e).
      + repeat wp_step. rewrite !count_events_app, H1. cbn [count_events]. lia.
      + eapply wpg_conseq; [apply (Hfail ([] ++ t1)); now rewrite !count_events_app, H1|].
        intros ? ? t2 _ H2. exact H2. }
    rewrite !count_events_app, H1. cbn [count_events]. lia.
  - repeat wp_step. rewrite !count_events_app. cbn [count_events]. lia.
Qed.

Local Abbreviation balanced :=
  (fun (_ : exn + _) (_ : locals) t => (entries t <= opens t)%nat).

Lemma page_call {A} (m : PyM W unit A) (l : locals) :
  emits no_entry m -> wpg any_event (call m) (fun _ _ t => entries t = 0%nat) l.
Proof. intros Hm. apply emits_none. now apply emits_call. Qed.

Lemma no_entry_status k r : no_entry (Ev (CheckLotteryStatus k) r).
Proof. reflexivity. Qed.

Lemma classify_lottery_balanced selected lottery_index k l :
  wpg (W:=W) any_event (classify_lottery selected lottery_index k) balanced l.
Proof.
  unfold classify_lottery, append_result. wp_step. wp_step.
  intros [e|[label exists_]] _; cbv beta iota; [cbn; lia|]. cbn [fst snd].
  wp_step. wp_step.
  destruct exists_; cbn [negb]; [|repeat wp_step; cbn; lia].
  wp_branch; [wp_step; cbn; lia|].
  wp_branch; [repeat wp_step; cbn; lia|].
  wp_branch; [repeat wp_step; cbn; lia|].
  wp_branch; [|repeat wp_step; cbn; lia].
  apply bool_decide_eq_true_1 in Heqb2. subst label.
  eapply wpg_bind_spec;
    [apply page_call, (check_stop_page no_entry (page_op_no_entry n))|].
  intros [e|[]] l1 t1 _ H1; cbv beta iota.
  { rewrite !count_events_app, H1. cbn. lia. }
  eapply wpg_conseq; [apply process_open_lottery_entries|].
  intros ? ? t2 _ H2. cbv beta in H2. rewrite !count_events_app, H1.
  cbn. destruct (k =? n); cbn; lia.
Qed.

Lemma process_selected_balanced selected rest :
  forall lottery_index l,
    wpg (W:=W) any_event (process_selected selected rest lottery_index) balanced l.
Proof.
  induction rest as [|k rest IH]; intros idx l; cbn [process_selected].
  { wp_step. cbn. lia. }
  eapply wpg_bind_spec;
    [apply page_call, (check_stop_page no_entry (page_op_no_entry n))|].
  intros [e|[]] l1 t1 _ H1; cbv beta iota; [rewrite H1; lia|].
  eapply wpg_bind_spec;
    [apply page_call, (ensure_apply_page_page no_entry (page_op_no_entry n))|].
  intros [e|[]] l2 t2 _ H2; cbv beta iota; [rewrite !count_events_app, H1, H2; lia|].
  wp_step. wp_step. wp_branch.
  - wp_step. wp_step. eapply wpg_conseq; [apply IH|].
    intros ? ? t3 _ H3. cbv beta in H3. rewrite !count_events_app, H1, H2. cbn. lia.
  - eapply wpg_bind_spec; [apply classify_lottery_balanced|].
    intros [e|c] l3 t3 _ H3; cbv beta iota; [rewrite !count_events_app, H1, H2; cbn; lia|].
    destruct c.
    + eapply wpg_conseq; [apply IH|].
      intros ? ? t4 _ H4. cbv beta in H4. rewrite !count_events_app, H1, H2. cbn. lia.
    + wp_step. rewrite !count_events_app, H1, H2. cbn. lia.
    + wp_step. rewrite !count_events_app, H1, H2. cbn. lia.
Qed.

(** The checks made after the loop over the items submit nothing. *)
Lemma after_items_balanced selected l :
  wpg (W:=W) any_event
      (c <- (if (length selected <=? checked_count l)%nat
             then completion_block selected
             else ret FallThrough) ;;
       match c with
       | FallThrough =>
           l <- get_locals ;;
           if (length selected <=? checked_count l)%nat
           then verdict_block selected
           else ret FallThrough
       | _ => ret c
       end) balanced l.
Proof.
  eapply wpg_conseq.
  - apply emits_none with (p := is_entry n). intros l0.
    assert (Hc := completion_block_items no_entry (page_op_no_entry n) no_entry_status).
    assert (Hv := verdict_block_items no_entry (page_op_no_entry n) no_entry_status).
    repeat first [emits_known | wp_step | wp_branch].
    all: intros; rewrite ?app_nil_r; rewrite ?Forall_app; repeat split;
      try assumption; try constructor.
  - intros ? ? t _ H. cbv beta in *. rewrite H. lia.
Qed.

Lemma one_pass_balanced selected l :
  wpg (W:=W) any_event (one_pass selected) balanced l.
Proof.
  unfold one_pass. wp_step. wp_step. wp_step. wp_step.
  eapply wpg_bind_spec;
    [apply page_call, (check_stop_page no_entry (page_op_no_entry n))|].
  intros [e|[]] l1 t1 _ H1; cbv beta iota; [rewrite !count_events_app, H1; cbn; lia|].
  wp_step. wp_step. intros [e|b] _; cbv beta iota;
    [rewrite !count_events_app, H1; cbn; lia|].
  eapply wpg_bind_spec;
    [apply page_call, (check_stop_page no_entry (page_op_no_entry n))|].
  intros [e|[]] l2 t2 _ H2; cbv beta iota; [rewrite !count_events_app, H1, H2; cbn; lia|].
  eapply wpg_bind_spec;
    [apply page_call, (ensure_apply_page_page no_entry (page_op_no_entry n))|].
  intros [e|[]] l3 t3 _ H3; cbv beta iota;
    [rewrite !count_events_app, H1, H2, H3; cbn; lia|].
  eapply wpg_bind_spec; [apply process_selected_balanced|].
  intros [e|[]] l4 t4 _ H4; cbv beta iota;
    [rewrite !count_events_app, H1, H2, H3; cbn; lia|].
  wp_step. wp_step. wp_branch.
  - wp_step. rewrite !count_events_app, H1, H2, H3. cbn. lia.
  - eapply wpg_conseq; [apply after_items_balanced|].
    intros ? ? t5 _ H5. cbv beta in H5. rewrite !count_events_app, H1, H2, H3. cbn. lia.
Qed.

Lemma retry_loop_balanced selected fuel :
  forall l, wpg (W:=W) any_event (retry_loop selected fuel) balanced l.
Proof.
  induction fuel as [|f IH]; intros l; cbn [retry_loop]; [wp_step; cbn; lia|].
  wp_step. wp_step. wp_branch; [|wp_step; cbn; lia].
  eapply wpg_bind_spec; [apply one_pass_balanced|].
  intros [e|c] l1 t1 _ H1; cbv beta iota; [rewrite !count_events_app; cbn; lia|].
  destruct c; try (wp_step; rewrite !count_events_app; cbn; lia).
  all: eapply wpg_conseq; [apply IH|]; intros ? ? t2 _ H2; cbv beta in H2;
    rewrite !count_events_app; cbn; lia.
Qed.

End Entries.

(** Whatever the session does, [_process_all_lotteries] submits an entry
    for an item only after a status check that found that item open
    (受付中): for every item, a run holds at most as many entries as
    status checks of the item that read 受付中. *)
Theorem entries_only_for_items_seen_open
        {W : Type} `{!World W} selected_lotteries (n : Z) (w : W) :
  match _process_all_lotteries selected_lotteries tt w with
  | (_, _, _, t) =>
      (count_events (is_entry n) t <= count_events (is_open_answer n) t)%nat
  end.
Proof.
  assert (H : wpg (W:=W) any_event (_process_all_lotteries selected_lotteries)
                  (fun _ _ t => (count_events (is_entry n) t
                                 <= count_events (is_open_answer n) t)%nat) tt).
  { unfold _process_all_lotteries, process_all_lotteries_body. wp_step.
    eapply wpg_bind_spec; [apply retry_loop_balanced|].
    intros [e|[]] l1 t1 _ H1; cbv beta iota; [exact H1|].
    wp_step. wp_step. wp_step. now rewrite !app_nil_r. }
  specialize (H w).
  destruct (_process_all_lotteries selected_lotteries tt w) as [[[r l'] w'] t].
  apply H, forallb_any.
Qed.

(** ** The batch: what it returns *)

Lemma determine_final_status_verdict rs :
  Forall (fun result => status result <> INTERRUPTED) rs ->
  let st := fst (fst (determine_final_status rs)) in st = SUCCESS \/ st = FAILURE.
Proof.
  intros Hrs. unfold determine_final_status, scan_results.
  destruct (scan_results_flags rs no_flags) as (H1 & _). cbv zeta in H1.
  rewrite H1. cbn [no_flags has_interrupted orb].
  replace (existsb (String.eqb INTERRUPTED) (map status rs)) with false.
  - repeat match goal with |- context [if ?b then _ else _] => destruct b end; cbn; auto.
  - symmetry. apply not_true_is_false. intros (st & Hin & Heq)%existsb_exists.
    apply String.eqb_eq in Heq. subst st.
    apply in_map_iff in Hin as (result & Hst & Hin).
    rewrite Forall_forall in Hrs. apply (Hrs result); [|exact Hst].
    now apply list_elem_of_In.
Qed.

Section Sound.
Context {W : Type} `{!World W}.
Variable selected : list Z.

Local Abbreviation sound := (sound_locals selected).

Ltac frame_call :=
  lazymatch goal with
  | |- wpg _ (bind (call_with _ _) _) _ _ =>
      eapply wpg_bind_spec; [apply wpg_call_frame|];
      intros [?|?] ? ? _ ->; cbv beta iota zeta
  end.

Ltac sound_explore := repeat first [frame_call | wp_step | wp_branch].

Lemma sound_append n st rsn l :
  n ∈ selected -> st <> INTERRUPTED -> sound l ->
  sound (set_results (fun rs => rs ++ [LotteryResult_ n st rsn]) l).
Proof.
  intros Hn Hst [Hrs Hfin]. destruct l. split; [|exact Hfin]. cbn in *.
  apply Forall_app. split; [exact Hrs|]. repeat constructor; assumption.
Qed.

Lemma sound_demote_success n rsn rs :
  Forall (sound_entry selected) rs -> Forall (sound_entry selected) (demote_success n rsn rs).
Proof.
  induction 1 as [|result rs [Hin Hst] Hrs IH]; [constructor|]. cbn [demote_success].
  destruct (_ && _); constructor; try assumption.
  - split; [exact Hin|discriminate].
  - now split.
Qed.

Lemma sound_demote_first n rsn rs :
  Forall (sound_entry selected) rs -> Forall (sound_entry selected) (demote_first n rsn rs).
Proof.
  induction 1 as [|result rs [Hin Hst] Hrs IH]; [constructor|]. cbn [demote_first].
  destruct (_ =? _); [destruct (String.eqb _ _)|]; constructor; try assumption.
  - split; [exact Hin|discriminate].
  - now split.
  - now split.
Qed.

(** Changes of the other locals. *)
Lemma sound_other l l' :
  lottery_results l' = lottery_results l -> final_status l' = final_status l ->
  sound l -> sound l'.
Proof. intros Hr Hf [? ?]. split; congruence. Qed.

Ltac sound_leaf :=
  first [ assumption
        | exact I
        | eapply sound_other; [| |eassumption]; reflexivity
        | apply sound_append; [assumption|discriminate|];
          first [assumption | eapply sound_other; [| |eassumption]; reflexivity] ].

Lemma after_failure_sound lottery_index l :
  sound l ->
  wpg (W:=W) any_event (after_failure selected lottery_index) (fun _ l' _ => sound l') l.
Proof.
  intros Hl. unfold after_failure, restart_after_reload. sound_explore.
  all: sound_leaf.
Qed.

Lemma process_open_lottery_sound lottery_index k l :
  k ∈ selected -> sound l ->
  wpg (W:=W) any_event (process_open_lottery selected lottery_index k)
      (fun r l' _ => match r with inl _ => True | inr _ => sound l' end) l.
Proof.
  intros Hk Hl. unfold process_open_lottery.
  eapply wpg_try_spec with (S := fun _ l' _ => sound l').
  - unfold restart_after_reload, append_result. wp_step. wp_step.
    intros [e|result] _; cbv beta iota; [exact Hl|].
    destruct result.
    + sound_explore. all: sound_leaf.
    + wp_step. wp_step. apply after_failure_sound. sound_leaf.
    + sound_explore. all: sound_leaf.
  - intros [e|c] l1 ? _ H1; cbv beta iota; [|exact H1].
    unfold append_result. wp_branch.
    + repeat wp_step. exact I.
    + wp_step. wp_step.
      eapply wpg_conseq; [apply after_failure_sound; sound_leaf|].
      intros [?|?] ? ? _ H; exact I || exact H.
Qed.

Lemma classify_lottery_sound lottery_index k l :
  k ∈ selected -> sound l ->
  wpg (W:=W) any_event (classify_lottery selected lottery_index k)
      (fun r l' _ => match r with inl _ => True | inr _ => sound l' end) l.
Proof.
  intros Hk Hl. unfold classify_lottery, append_result. wp_step. wp_step.
  intros [e|[label exists_]] _; cbv beta iota; [exact I|]. cbn [fst snd].
  wp_step. wp_step.
  wp_branch; [repeat wp_step; sound_leaf|].
  wp_branch; [repeat wp_step; sound_leaf|].
  wp_branch; [repeat wp_step; sound_leaf|].
  wp_branch; [repeat wp_step; sound_leaf|].
  wp_branch; [|repeat wp_step; sound_leaf].
  frame_call; [exact I|]. apply process_open_lottery_sound; [exact Hk|sound_leaf].
Qed.

Lemma process_selected_sound rest :
  forall lottery_index l,
    (forall k, k ∈ rest -> k ∈ selected) -> sound l ->
    wpg (W:=W) any_event (process_selected selected rest lottery_index)
        (fun r l' _ => match r with inl _ => True | inr _ => sound l' end) l.
Proof.
  induction rest as [|k rest IH]; intros idx l Hrest Hl; cbn [process_selected].
  { wp_step. exact Hl. }
  frame_call; [exact I|]. frame_call; [exact I|]. wp_step. wp_step. wp_branch.
  - wp_step. wp_step. apply IH; [intros; apply Hrest; now right|sound_leaf].
  - eapply wpg_bind_spec; [apply classify_lottery_sound; [apply Hrest; left|exact Hl]|].
    intros [e|c] l1 ? _ H1; cbv beta iota; [exact I|].
    destruct c; [apply IH; [intros; apply Hrest; now right|exact H1]| |]; wp_step; exact H1.
Qed.

Lemma recheck_open_sound rest :
  forall has_open_lotteries l,
    sound l ->
    wpg (W:=W) any_event (recheck_open rest has_open_lotteries) (fun _ l' _ => sound l') l.
Proof.
  induction rest as [|k rest IH]; intros b l Hl; cbn [recheck_open].
  { wp_step. exact Hl. }
  frame_call; [exact Hl|]. wp_step. wp_step. intros [e|checked] _; cbv beta iota; [exact Hl|].
  wp_branch; [|now apply IH].
  wp_step. wp_step. wp_step. wp_branch.
  - wp_step. wp_step. wp_step. apply IH. destruct Hl as [Hrs Hf]. destruct l. split; [|exact Hf].
    cbn in *. now apply sound_demote_success.
  - wp_step. now apply IH.
Qed.

Lemma verify_completed_sound rest :
  forall l, sound l ->
    wpg (W:=W) any_event (verify_completed rest) (fun _ l' _ => sound l') l.
Proof.
  induction rest as [|k rest IH]; intros l Hl; cbn [verify_completed].
  { wp_step. exact Hl. }
  frame_call; [exact Hl|]. wp_step. wp_step. intros [e|checked] _; cbv beta iota; [exact Hl|].
  repeat wp_branch; try (now apply IH). wp_step. exact Hl.
Qed.

Lemma final_verify_sound rest :
  forall all_final_verified l,
    sound l ->
    wpg (W:=W) any_event (final_verify rest all_final_verified) (fun _ l' _ => sound l') l.
Proof.
  induction rest as [|k rest IH]; intros b l Hl; cbn [final_verify].
  { wp_step. exact Hl. }
  frame_call; [exact Hl|]. wp_step. wp_step. intros [e|checked] _; cbv beta iota; [exact Hl|].
  wp_branch; [|now apply IH].
  assert (Hdemote : forall c rsn,
             sound (set_results (demote_first k rsn) (set_completed c l))).
  { intros c rsn. destruct Hl as [Hrs Hf]. destruct l. split; [|exact Hf].
    cbn in *. now apply sound_demote_first. }
  assert (Hdemote' : forall rsn, sound (set_results (demote_first k rsn) l)).
  { intros rsn. destruct Hl as [Hrs Hf]. destruct l. split; [|exact Hf].
    cbn in *. now apply sound_demote_first. }
  wp_step. wp_step. wp_step. wp_branch; wp_step; wp_step; wp_step; apply IH; auto.
Qed.

Lemma completion_block_sound l :
  sound l ->
  wpg (W:=W) any_event (completion_block selected) (fun _ l' _ => sound l') l.
Proof.
  intros Hl. unfold completion_block.
  eapply wpg_bind_spec; [now apply recheck_open_sound|].
  intros [e|b] l1 ? _ H1; cbv beta iota; [exact H1|]. destruct b.
  { repeat wp_step. sound_leaf. }
  wp_step. wp_step. wp_branch; [|wp_step; exact H1].
  eapply wpg_bind_spec; [now apply verify_completed_sound|].
  intros [e|b] l2 ? _ H2; cbv beta iota; [exact H2|].
  destruct b; repeat wp_step; [|sound_leaf].
  destruct H2 as [Hrs _]. destruct l2. split; [exact Hrs|now left].
Qed.

Lemma verdict_block_sound l :
  sound l ->
  wpg (W:=W) any_event (verdict_block selected) (fun _ l' _ => sound l') l.
Proof.
  intros Hl. unfold verdict_block. wp_step. wp_step.
  assert (Hst := determine_final_status_verdict (lottery_results l)).
  destruct (determine_final_status (lottery_results l)) as [[st msg] leave].
  cbv zeta in Hst. cbn [fst] in Hst.
  assert (Hl1 : sound (set_final st msg l)).
  { destruct Hl as [Hrs _]. destruct l. split; [exact Hrs|]. cbn. apply Hst.
    cbn in Hrs. eapply Forall_impl; [exact Hrs|]. now intros ? [_ ?]. }
  wp_step. wp_step. wp_branch; [wp_step; exact Hl1|].
  wp_branch; [|wp_step; exact Hl1].
  eapply wpg_bind_spec; [now apply final_verify_sound|].
  intros [e|b] l2 ? _ H2; cbv beta iota; [exact H2|].
  destruct b; [wp_step; exact H2|]. wp_step. wp_step. wp_branch; repeat wp_step.
  - sound_leaf.
  - destruct H2 as [Hrs _]. destruct l2. split; [exact Hrs|now right].
Qed.

Lemma one_pass_sound l :
  (forall k, k ∈ selected -> k ∈ selected) -> sound l ->
  wpg (W:=W) any_event (one_pass selected)
      (fun r l' _ => match r with inl _ => True | inr _ => sound l' end) l.
Proof.
  intros _ Hl. unfold one_pass. wp_step. wp_step. wp_step. wp_step.
  frame_call; [exact I|]. wp_step. wp_step. intros [e|b] _; cbv beta iota; [exact I|].
  frame_call; [exact I|]. frame_call; [exact I|].
  eapply wpg_bind_spec; [apply process_selected_sound; [auto|sound_leaf]|].
  intros [e|[]] l1 ? _ H1; cbv beta iota; [exact I|].
  wp_step. wp_step. wp_branch; [wp_step; exact H1|].
  eapply wpg_bind_spec with (S := fun r l' _ => sound l').
  { wp_branch; [now apply completion_block_sound|wp_step; exact H1]. }
  intros [e|c] l2 ? _ H2; cbv beta iota; [exact I|].
  destruct c; try (wp_step; exact H2).
  wp_step. wp_step. wp_branch; [|wp_step; exact H2].
  eapply wpg_conseq; [now apply verdict_block_sound|].
  intros [?|?] ? ? _ H; exact I || exact H.
Qed.

Lemma retry_loop_sound fuel :
  forall l, sound l ->
    wpg (W:=W) any_event (retry_loop selected fuel)
        (fun r l' _ => match r with inl _ => True | inr _ => sound l' end) l.
Proof.
  induction fuel as [|f IH]; intros l Hl; cbn [retry_loop]; [wp_step; exact Hl|].
  wp_step. wp_step. wp_branch; [|wp_step; exact Hl].
  eapply wpg_bind_spec; [apply one_pass_sound; auto|].
  intros [e|c] l1 ? _ H1; cbv beta iota; [exact I|].
  destruct c; try (now apply IH). wp_step. exact H1.
Qed.

End Sound.

Lemma process_all_lotteries_sound {W : Type} `{!World W} selected_lotteries :
  wpg (W:=W) any_event (_process_all_lotteries selected_lotteries)
      (fun r _ _ =>
         forall o, r = inr o ->
           (outcome_final_status o = SUCCESS \/ outcome_final_status o = FAILURE)
           /\ Forall (sound_entry (normalise_selection selected_lotteries)) (results o)) tt.
Proof.
  unfold _process_all_lotteries, process_all_lotteries_body. wp_step.
  eapply wpg_bind_spec.
  { apply retry_loop_sound. split; [constructor|now right]. }
  intros [e|[]] l1 ? _ H1; cbv beta iota; [intros ? [=]|].
  wp_step. wp_step. wp_step. intros o [= <-]. cbn. destruct H1 as [Hrs Hf]. now split.
Qed.

(** A batch that returns never reports 中断: whatever the session does,
    when [_process_all_lotteries] returns, its final status is 成功 or
    失敗, and every entry of its results is about a selected item and has
    a status other than 中断. *)
Theorem returned_batch_is_never_interrupted
        {W : Type} `{!World W} selected_lotteries (w : W) o l' w' t :
  _process_all_lotteries selected_lotteries tt w = (inr o, l', w', t) ->
  (outcome_final_status o = SUCCESS \/ outcome_final_status o = FAILURE)
  /\ Forall (sound_entry (normalise_selection selected_lotteries)) (results o).
Proof.
  intros E.
  exact (wpg_run any_event _ _ _ _ _ _ _ _
                 (process_all_lotteries_sound selected_lotteries) E (forallb_any t)
                 o eq_refl).
Qed.

Lemma returned_batch_is_never_interrupted_witness :
  exists o l' w' t,
    _process_all_lotteries (Some [3; 1; 2; 3]) tt (fresh (override calm mixed_items))
    = (inr o, l', w', t)
    /\ (outcome_final_status o = SUCCESS \/ outcome_final_status o = FAILURE)
    /\ Forall (sound_entry (normalise_selection (Some [3; 1; 2; 3]))) (results o).
Proof.
  run_concretely (_process_all_lotteries (Some [3; 1; 2; 3]) tt
                    (fresh (override calm mixed_items))) E.
  lazymatch eval cbv delta [r] in r with
  | inr ?o => exists o, l', w', t
  end.
  split; [exact E|].
  exact (returned_batch_is_never_interrupted _ _ _ _ _ _ E).
Defined.

(** ** The session: what [lottery_begin] returns *)

Lemma lottery_begin_outcome {W : Type} `{!World W} EMAIL selected :
  wpg (W:=W) any_event (lottery_begin EMAIL selected)
      (fun r _ _ =>
         exists o, r = inr o
           /\ (outcome_final_status o = SUCCESS \/ outcome_final_status o = FAILURE
               \/ outcome_final_status o = INTERRUPTED)
           /\ (outcome_final_status o = INTERRUPTED ->
               results o = [] /\ message o = "ユーザーによって中断されました")) tt.
Proof.
  unfold lottery_begin. wp_step.
  eapply wpg_try_spec with
    (S := fun r _ _ =>
            forall o, r = inr o ->
              outcome_final_status o = SUCCESS \/ outcome_final_status o = FAILURE).
  - unfold lottery_begin_body.
    repeat (wp_skip; [intros ? [=]|]).
    apply wpg_call_with. eapply wpg_conseq; [apply process_all_lotteries_sound|].
    intros r [] t _ H o Ho. now destruct (H o Ho).
  - intros [e|o] l1 t1 _ H1; cbv beta iota.
    + destruct (is_stop e); wp_step; eexists; (split; [reflexivity|]); cbn.
      * split; [auto|]. intros _. now split.
      * split; [auto|]. intros Hi. discriminate Hi.
    + exists o. split; [reflexivity|]. destruct (H1 o eq_refl) as [Hs|Hs].
      * split; [auto|]. rewrite Hs. intros Hi. discriminate Hi.
      * split; [auto|]. rewrite Hs. intros Hi. discriminate Hi.
Qed.

(** [lottery_begin] always returns an outcome, whatever the session does:
    it never raises.  The final status of the outcome is 成功, 失敗 or
    中断, and an outcome with the status 中断 has no results. *)
Theorem lottery_begin_always_returns
        {W : Type} `{!World W} EMAIL selected (w : W) :
  match lottery_begin EMAIL selected tt w with
  | (r, _, _, _) =>
      exists o, r = inr o
        /\ (outcome_final_status o = SUCCESS \/ outcome_final_status o = FAILURE
            \/ outcome_final_status o = INTERRUPTED)
        /\ (outcome_final_status o = INTERRUPTED ->
            results o = [] /\ message o = "ユーザーによって中断されました")
  end.
Proof.
  pose proof (lottery_begin_outcome EMAIL selected w) as H.
  destruct (lottery_begin EMAIL selected tt w) as [[[r l'] w'] t].
  apply H, forallb_any.
Qed.

(** ** The session: how often it logs in *)

Section AfterLogin.
Context {W : Type} `{!World W}.
Variable P : event -> Prop.
Hypothesis P_other : forall A (o : op A) r, login_op o = false -> P (Ev o r).

Lemma P_other_page A (o : op A) r : page_op o = true -> P (Ev o r).
Proof. intros H. apply P_other. destruct o; try discriminate H; reflexivity. Qed.

Ltac other_leaf :=
  intros; rewrite ?app_nil_r; rewrite ?Forall_app, ?Forall_cons, ?Forall_nil;
  repeat split; try assumption; try (apply P_other; reflexivity).

Ltac other := repeat first [emits_known | wp_step | wp_branch]; try solve [other_leaf].

Lemma check_stop_other : emits (W:=W) P check_stop.
Proof. apply check_stop_page, P_other_page. Qed.
Hint Resolve check_stop_other : emits.

Lemma wait_checking_other n : emits (W:=W) P (wait_checking n).
Proof. apply wait_checking_page, P_other_page. Qed.
Hint Resolve wait_checking_other : emits.

Lemma try_close_other id : emits (W:=W) P (try_close id).
Proof. apply try_close_page, P_other_page. Qed.
Hint Resolve try_close_other : emits.

Lemma verify_login_other EMAIL : emits (W:=W) P (verify_login EMAIL).
Proof. intros []. unfold verify_login. other. Qed.

Lemma go_to_apply_page_other : emits (W:=W) P go_to_apply_page.
Proof. intros []. unfold go_to_apply_page. other. Qed.

Lemma wait_for_reload_other n : emits (W:=W) P (wait_for_reload n).
Proof. induction n as [|n IH]; intros []; cbn [wait_for_reload]; other. Qed.
Hint Resolve wait_for_reload_other : emits.

Lemma reload_page_at_start_other : emits (W:=W) P reload_page_at_start.
Proof. intros l. unfold reload_page_at_start. other. Qed.
Hint Resolve reload_page_at_start_other : emits.

Lemma close_normal_pop04_other : emits (W:=W) P close_normal_pop04.
Proof. intros []. unfold close_normal_pop04. other. Qed.
Hint Resolve close_normal_pop04_other : emits.

Lemma pop04_at_start_body_other reload_attempt :
  emits (W:=W) P (pop04_at_start_body reload_attempt).
Proof. intros l. unfold pop04_at_start_body. other. Qed.
Hint Resolve pop04_at_start_body_other : emits.

Lemma pop04_at_start_loop_other remaining :
  forall reload_attempt, emits (W:=W) P (pop04_at_start_loop remaining reload_attempt).
Proof.
  induction remaining as [|n IH]; intros k l; cbn [pop04_at_start_loop]; other.
Qed.

Lemma final_pop04_check_other : emits (W:=W) P final_pop04_check.
Proof. intros []. unfold final_pop04_check. other. Qed.

Lemma process_all_lotteries_other selected_lotteries :
  emits (W:=W) P (_process_all_lotteries selected_lotteries).
Proof.
  apply process_all_lotteries_batch; intros; apply P_other; try reflexivity.
  destruct o; try discriminate; reflexivity.
Qed.

Lemma ensure_apply_page_other waits : emits (W:=W) P (ensure_apply_page waits).
Proof. apply ensure_apply_page_page, P_other_page. Qed.

(** What [lottery_begin] does once the login loop is over. *)
Lemma after_login_other EMAIL selected :
  emits (W:=W) P
        (call (verify_login EMAIL) ;;
         call go_to_apply_page ;;
         pop04_at_start_loop max_reload_attempts_at_start 0 ;;
         call check_stop ;;
         call final_pop04_check ;;
         pop04_reloaded <- get_locals ;;
         (if (pop04_reloaded : bool) then call check_stop else ret tt) ;;
         call check_stop ;;
         call (ensure_apply_page 5) ;;
         call check_stop ;;
         call (_process_all_lotteries (Some selected))).
Proof.
  pose proof (verify_login_other EMAIL). pose proof go_to_apply_page_other.
  pose proof (pop04_at_start_loop_other max_reload_attempts_at_start 0).
  pose proof final_pop04_check_other. pose proof (ensure_apply_page_other 5).
  pose proof (process_all_lotteries_other (Some selected)).
  intros l. other.
Qed.

End AfterLogin.

Section Logins.
Context {W : Type} `{!World W}.

Local Abbreviation logins a b :=
  (fun (_ : exn + _) (_ : unit) t =>
     (count_events is_login_attempt t <= a)%nat /\ (count_events is_otp_fetch t <= b)%nat).

Lemma check_stop_logins : wpg (W:=W) any_event check_stop (logins 0 0) tt.
Proof. unfold check_stop. count_auto. Qed.
Hint Resolve check_stop_logins : counts.

Lemma wait_checking_logins n : wpg (W:=W) any_event (wait_checking n) (logins 0 0) tt.
Proof.
  induction n as [|n IH]; cbn [wait_checking]; count_auto.
  eapply wpg_conseq; [apply IH|]. count_leaf.
Qed.
Hint Resolve wait_checking_logins : counts.

Lemma otp_body_logins otp_retry : wpg (W:=W) any_event (otp_body otp_retry) (logins 0 1) tt.
Proof. unfold otp_body, retry_or_break. count_auto. Qed.
Hint Resolve otp_body_logins : counts.

Lemma otp_loop_logins remaining :
  forall otp_retry,
    wpg (W:=W) any_event (otp_loop remaining otp_retry) (logins 0 remaining) tt.
Proof.
  induction remaining as [|n IH]; intros k; cbn [otp_loop]; count_auto.
  eapply wpg_conseq; [apply IH|]. count_leaf.
Qed.
Hint Resolve otp_loop_logins : counts.

Lemma login_attempt_logins EMAIL attempt :
  wpg (W:=W) any_event (login_attempt EMAIL attempt) (logins 1 max_otp_retries) tt.
Proof. unfold login_attempt, retry_or_fail, max_otp_retries. count_auto. Qed.
Hint Resolve login_attempt_logins : counts.

Lemma login_loop_logins EMAIL remaining :
  forall attempt,
    wpg (W:=W) any_event (login_loop EMAIL remaining attempt)
        (logins remaining (max_otp_retries * remaining)) tt.
Proof.
  induction remaining as [|n IH]; intros k; cbn [login_loop]; count_auto.
  all: unfold max_otp_retries in *; try solve [count_leaf].
  eapply wpg_conseq; [apply IH|]. count_leaf.
Qed.

End Logins.

Lemma login_op_no_login A (o : op A) r :
  login_op o = false ->
  is_login_attempt (Ev o r) = false /\ is_otp_fetch (Ev o r) = false.
Proof. destruct o; intros H; try discriminate H; now split. Qed.

(** Whatever the session does, [lottery_begin] submits the login form at
    most [max_login_attempts] (3) times and fetches a passcode from the
    mailbox at most [max_otp_retries] (2) times per login attempt; once
    the login loop is over it never logs in again. *)
Theorem lottery_begin_logins_bounded
        {W : Type} `{!World W} EMAIL selected (w : W) :
  match lottery_begin EMAIL selected tt w with
  | (_, _, _, t) =>
      (count_events is_login_attempt t <= max_login_attempts)%nat
      /\ (count_events is_otp_fetch t <= max_otp_retries * max_login_attempts)%nat
  end.
Proof.
  assert (H : wpg (W:=W) any_event (lottery_begin EMAIL selected)
                  (fun _ _ t =>
                     (count_events is_login_attempt t <= max_login_attempts)%nat
                     /\ (count_events is_otp_fetch t
                         <= max_otp_retries * max_login_attempts)%nat) tt).
  { assert (Hnone : forall t : list event,
               Forall (fun e => is_login_attempt e = false /\ is_otp_fetch e = false) t ->
               count_events is_login_attempt t = 0%nat
               /\ count_events is_otp_fetch t = 0%nat).
    { intros t Ht. split; apply count_events_none; eapply Forall_impl; try exact Ht;
        cbv beta; intros ? [? ?]; assumption. }
    unfold lottery_begin. wp_step.
    eapply wpg_try_spec with
      (S := fun _ _ t =>
              (count_events is_login_attempt t <= max_login_attempts)%nat
              /\ (count_events is_otp_fetch t <= max_otp_retries * max_login_attempts)%nat).
    - unfold lottery_begin_body.
      eapply wpg_bind_spec with
        (S := fun _ _ t =>
                (count_events is_login_attempt t <= max_login_attempts)%nat
                /\ (count_events is_otp_fetch t
                    <= max_otp_retries * max_login_attempts)%nat);
        [apply wpg_call_with, (login_loop_logins EMAIL max_login_attempts 1)|].
      intros [e|b] l1 t1 _ [H1 H2]; cbv beta iota; [now split|].
      eapply wpg_conseq;
        [apply (after_login_other
                  (fun e => is_login_attempt e = false /\ is_otp_fetch e = false)
                  login_op_no_login EMAIL selected)|].
      intros ? ? t2 _ [Ha Ho]%Hnone. rewrite !count_events_app, Ha, Ho. split; lia.
    - intros [e|o] l1 t1 _ [H1 H2]; cbv beta iota; [|now split].
      destruct (is_stop e); wp_step; rewrite app_nil_r; now split. }
  specialize (H w). destruct (lottery_begin EMAIL selected tt w) as [[[r l'] w'] t].
  apply H, forallb_any.
Qed.

(** ** The selection of items *)

Lemma sorted_set_perm xs ys : xs ≡ₚ ys -> sorted_set xs = sorted_set ys.
Proof.
  intros Hp. unfold sorted_set.
  now rewrite (list_to_set_perm_L (C:=gset Z) xs ys Hp).
Qed.

Lemma strictly_sorted xs :
  StronglySorted Z.le xs -> NoDup xs -> StronglySorted Z.lt xs.
Proof.
  induction 1 as [|x xs Hs IH Hx]; intros Hnd; constructor.
  - apply IH. now apply NoDup_cons in Hnd as [_ ?].
  - apply NoDup_cons in Hnd as [Hnotin _].
    rewrite List.Forall_forall in *. intros y Hy. specialize (Hx y Hy).
    assert (x <> y) by (intros ->; apply Hnotin; now apply list_elem_of_In). lia.
Qed.

Lemma normalise_selection_nonempty selected_lotteries :
  normalise_selection selected_lotteries <> [].
Proof.
  assert (Hne : forall xs, xs <> [] -> sorted_set xs <> []).
  { intros [|x xs] Hxs; [contradiction|]. intros Hs.
    assert (Hx : x ∈ sorted_set (x :: xs)) by (apply elem_of_sorted_set; left).
    rewrite Hs in Hx. now apply elem_of_nil in Hx. }
  unfold normalise_selection.
  destruct selected_lotteries as [[|x xs]|]; apply Hne; discriminate.
Qed.

(** The selection that [_process_all_lotteries] works on is never empty
    and is strictly ascending (sorted, without duplicates), and it holds
    exactly the numbers of a non-empty selection passed in. *)
Theorem selection_is_normalised (selected_lotteries : option (list Z)) :
  normalise_selection selected_lotteries <> []
  /\ StronglySorted Z.lt (normalise_selection selected_lotteries)
  /\ forall selected, selected_lotteries = Some selected -> selected <> [] ->
     forall n, n ∈ normalise_selection selected_lotteries <-> n ∈ selected.
Proof.
  assert (Hsorted : forall xs, StronglySorted Z.lt (sorted_set xs)).
  { intros xs. apply strictly_sorted; [|apply sorted_set_NoDup].
    apply StronglySorted_merge_sort; apply _. }
  split; [apply normalise_selection_nonempty|]. unfold normalise_selection. split.
  - apply Hsorted.
  - intros selected -> Hsel n. destruct selected; [contradiction|].
    apply elem_of_sorted_set.
Qed.

(** [set_selected_lotteries] followed by [_process_all_lotteries]: the
    batch works on the same selection as if the numbers had been passed
    to it directly; the duplicates that [set_selected_lotteries] keeps are
    dropped. *)
Theorem stored_selection_is_normalised_alike (lottery_numbers : option (list Z)) :
  normalise_selection (Some (set_selected_lotteries lottery_numbers))
  = normalise_selection lottery_numbers.
Proof.
  unfold normalise_selection, set_selected_lotteries.
  destruct lottery_numbers as [[|x xs]|]; try reflexivity.
  pose proof (merge_sort_Permutation Z.le (x :: xs)) as Hp.
  destruct (merge_sort Z.le (x :: xs)) as [|y ys] eqn:Hm.
  - symmetry in Hp. now apply Permutation_nil_r in Hp.
  - now apply sorted_set_perm.
Qed.

(** ** The batch: items without a label *)

Lemma filter_none {A} (P : A -> Prop) `{!forall x, Decision (P x)} (xs : list A) :
  (forall x, x ∈ xs -> ~ P x) -> filter P xs = [].
Proof.
  induction xs as [|x xs IH]; intros HP; [reflexivity|].
  rewrite filter_cons_False by (apply HP; left).
  apply IH. intros y Hy. apply HP. now right.
Qed.

Section Unlabelled.
Context {W : Type} `{!World W}.

Local Abbreviation G := unlabelled_run.

Lemma unlabelled_run_ok e : G e = true -> answered_ok e = true.
Proof. now intros [? _]%andb_prop. Qed.

Hint Resolve unlabelled_run_ok : runs.
Hint Resolve check_stop_returns wait_checking_returns ensure_apply_page_returns : runs.

(** The answer of a status check in such a run. *)
Ltac status_unlabelled label Hl :=
  let Hg := fresh "Hg" in
  intros [?|[label [|]]] Hg; apply andb_prop in Hg as [_ Hl]; cbn in Hl;
  try discriminate Hl; apply negb_true_iff in Hl; cbv beta iota zeta; cbn [fst snd].

Lemma not_open label : Str.truthy label = false -> bool_decide (label = Some LABEL_OPEN) = false.
Proof. intros H. apply bool_decide_eq_false_2. intros ->. discriminate H. Qed.

Lemma classify_lottery_unlabelled selected lottery_index lottery_number l :
  wpg (W:=W) G (classify_lottery selected lottery_index lottery_number)
      (fun r l' _ =>
         r = inr Continue /\ untouched l l' /\ checked_count l' = S (checked_count l)) l.
Proof.
  unfold classify_lottery. wp_step. wp_step. status_unlabelled label Hl.
  wp_step. wp_step. cbn [negb]. rewrite Hl. cbn [negb]. wp_step.
  split; [reflexivity|]. now destruct l.
Qed.

Lemma process_selected_unlabelled selected rest : forall lottery_index l,
  completed_lotteries l = ∅ ->
  wpg (W:=W) G (process_selected selected rest lottery_index)
      (fun r l' _ =>
         r = inr tt /\ untouched l l'
         /\ checked_count l' = (checked_count l + length rest)%nat) l.
Proof.
  induction rest as [|n rest IH]; intros idx l Hc; cbn [process_selected].
  { wp_step. split; [reflexivity|]. split; [now repeat split|cbn; lia]. }
  run_known. run_known. wp_step. wp_step.
  rewrite Hc, bool_decide_eq_false_2 by apply not_elem_of_empty.
  eapply wpg_bind_spec; [apply classify_lottery_unlabelled|].
  intros ? l1 ? _ (-> & (Hc1 & Hr1 & Hl1) & Hn1). cbv beta iota.
  eapply wpg_conseq; [apply IH; congruence|].
  intros ? l2 ? _ (-> & (Hc2 & Hr2 & Hl2) & Hn2).
  split; [reflexivity|]. split; [repeat split; congruence|]. rewrite Hn2, Hn1. cbn. lia.
Qed.

Lemma recheck_open_unlabelled rest : forall has_open_lotteries l,
  wpg (W:=W) G (recheck_open rest has_open_lotteries)
      (fun r l' _ => r = inr has_open_lotteries /\ l' = l) l.
Proof.
  induction rest as [|n rest IH]; intros b l; cbn [recheck_open]; [now wp_step|].
  run_known. wp_step. wp_step. status_unlabelled label Hl.
  rewrite (not_open _ Hl). cbn [andb]. apply IH.
Qed.

Lemma final_verify_unlabelled rest : forall all_final_verified l,
  wpg (W:=W) G (final_verify rest all_final_verified)
      (fun r l' _ => r = inr all_final_verified /\ l' = l) l.
Proof.
  induction rest as [|n rest IH]; intros b l; cbn [final_verify]; [now wp_step|].
  run_known. wp_step. wp_step. status_unlabelled label Hl.
  rewrite (not_open _ Hl). cbn [andb]. apply IH.
Qed.

Lemma one_pass_unlabelled selected l :
  selected <> [] -> completed_lotteries l = ∅ -> lottery_results l = [] ->
  wpg (W:=W) G (one_pass selected)
      (fun r l' _ =>
         r = inr LoopBreak /\ lottery_results l' = []
         /\ final_status l' = SUCCESS /\ final_message l' = "成功") l.
Proof.
  intros Hsel Hc Hr. unfold one_pass. wp_step. wp_step. wp_step. wp_step. run_known.
  wp_step. wp_step. intros [e|a] [Hq _]%andb_prop; [discriminate Hq|].
  run_known. run_known.
  eapply wpg_bind_spec;
    [apply process_selected_unlabelled; destruct l; exact Hc|].
  intros ? l1 ? _ (-> & (Hc1 & Hr1 & Hl1) & Hn1). cbv beta iota.
  assert (Hc1' : completed_lotteries l1 = ∅) by (rewrite Hc1; now destruct l).
  assert (Hr1' : lottery_results l1 = []) by (rewrite Hr1; now destruct l).
  assert (Hl1' : reload_occurred l1 = false) by (rewrite Hl1; now destruct l).
  assert (Hn1' : checked_count l1 = length selected) by (rewrite Hn1; now destruct l).
  wp_step. wp_step. rewrite Hl1', Hn1', Nat.leb_refl.
  unfold completion_block.
  eapply wpg_bind_spec; [eapply wpg_bind_spec; [apply recheck_open_unlabelled|]|].
  { intros ? ? ? _ [-> ->]. cbv beta iota. wp_step. wp_step.
    rewrite filter_none by (intros; rewrite Hc1'; apply not_elem_of_empty).
    destruct selected as [|x xs]; [contradiction|]. cbn [length Nat.leb].
    wp_step. instantiate (1 := fun r l' _ => r = inr FallThrough /\ l' = l1). now split. }
  intros ? ? ? _ [-> ->]. cbv beta iota. wp_step. wp_step.
  rewrite Hn1', Nat.leb_refl. unfold verdict_block. wp_step. wp_step.
  rewrite Hr1'. cbn [determine_final_status scan_results fold_left no_flags
                     has_interrupted has_failure has_skipped_closed has_not_exist orb
                     all_success_or_completed].
  wp_step. wp_step. cbn [String.eqb Ascii.eqb Bool.eqb SUCCESS andb].
  eapply wpg_bind_spec; [apply final_verify_unlabelled|].
  intros ? ? ? _ [-> ->]. cbv beta iota. wp_step.
  split; [reflexivity|]. destruct l1. cbn in *. now repeat split.
Qed.

Lemma retry_loop_unlabelled selected fuel l :
  selected <> [] -> completed_lotteries l = ∅ -> lottery_results l = [] ->
  (retry_attempt l < max_retry_attempts)%nat ->
  wpg (W:=W) G (retry_loop selected (S fuel))
      (fun r l' _ =>
         r = inr tt /\ lottery_results l' = []
         /\ final_status l' = SUCCESS /\ final_message l' = "成功") l.
Proof.
  intros Hsel Hc Hr Hlt. cbn [retry_loop]. wp_step. wp_step.
  apply Nat.ltb_lt in Hlt. rewrite Hlt.
  eapply wpg_bind_spec; [now apply one_pass_unlabelled|].
  intros ? ? ? _ (-> & H). cbv beta iota. now wp_step.
Qed.

End Unlabelled.

(** When no selected item has a readable status label, the batch reports
    success without having recorded anything: in a run in which nothing
    raises and nobody asks to stop, if every status check finds the item
    but no label, [_process_all_lotteries] returns the final status 成功
    and an empty list of results. *)
Theorem unlabelled_items_give_empty_success
        {W : Type} `{!World W} selected_lotteries (w : W) r l' w' t :
  _process_all_lotteries selected_lotteries tt w = (r, l', w', t) ->
  quiet t = true ->
  all_unlabelled t = true ->
  r = inr (SessionOutcome_ [] SUCCESS "成功").
Proof.
  intros E Hq Hu.
  assert (HG : forallb unlabelled_run t = true).
  { unfold unlabelled_run. rewrite forallb_andb. unfold quiet in Hq.
    unfold all_unlabelled in Hu. now rewrite Hq, Hu. }
  refine (wpg_run unlabelled_run _
            (fun r _ _ => r = inr (SessionOutcome_ [] SUCCESS "成功"))
            _ _ _ _ _ _ _ E HG).
  unfold _process_all_lotteries, process_all_lotteries_body. wp_step.
  eapply wpg_bind_spec;
    [apply retry_loop_unlabelled;
     [apply normalise_selection_nonempty|reflexivity|reflexivity
     |cbn; unfold max_retry_attempts; lia]|].
  intros ? l1 ? _ (-> & Hr & Hs & Hm). cbv beta iota. wp_step. wp_step. wp_step.
  now rewrite Hr, Hs, Hm.
Qed.

Lemma unlabelled_items_give_empty_success_witness :
  exists r l' w' t,
    _process_all_lotteries (Some [2; 1]) tt (fresh (override calm empty_labels))
    = (r, l', w', t)
    /\ quiet t = true
    /\ all_unlabelled t = true
    /\ r = inr (SessionOutcome_ [] SUCCESS "成功").
Proof.
  run_concretely (_process_all_lotteries (Some [2; 1]) tt
                    (fresh (override calm empty_labels))) E.
  assert (Hq : quiet t = true) by (vm_compute; reflexivity).
  assert (Hu : all_unlabelled t = true) by (vm_compute; reflexivity).
  exists r, l', w', t. split; [exact E|]. split; [exact Hq|]. split; [exact Hu|].
  exact (unlabelled_items_give_empty_success _ _ _ _ _ _ E Hq Hu).
Defined.

(** * Properties of [sheets_helper.py] *)

(** ** The scan of the rows *)

Lemma strip_empty : PyStr.strip "" = "".
Proof. reflexivity. Qed.

Lemma rows_after_end start_row end_ rows :
  forall i, end_ < i ->
    Forall (fun k => k = LeftOut) (row_kinds start_row (Some end_) i rows).
Proof.
  induction rows as [|row rows IH]; intros i Hi; cbn [row_kinds]; constructor.
  - unfold row_kind_of, in_row_range.
    replace (i <=? end_) with false by (symmetry; apply Z.leb_gt; lia).
    now rewrite andb_false_r.
  - apply IH. lia.
Qed.

Lemma omap_left_out ks : Forall (fun k => k = LeftOut) ks -> omap handed_on ks = [].
Proof. induction 1 as [|k ks -> _ IH]; [reflexivity|]. exact IH. Qed.

Lemma count_left_out p ks :
  p LeftOut = false -> Forall (fun k => k = LeftOut) ks -> length (filter (fun k => p k = true) ks) = 0%nat.
Proof.
  intros Hp. induction 1 as [|k ks -> _ IH]; [reflexivity|].
  rewrite filter_cons_False by (rewrite Hp; discriminate). exact IH.
Qed.

(** The loop, with its [continue]s and its [break], gathers what the
    kinds of the rows say. *)
Lemma scan_rows_kinds start_row end_row rows :
  forall i scan,
    let kinds := row_kinds start_row end_row i rows in
    scan_rows start_row end_row i rows scan
    = SheetScan (data_rows scan ++ omap handed_on kinds)
                (total_email_count scan
                 + Z.of_nat (length (filter (fun k => has_email k = true) kinds)))
                (skipped_count scan
                 + Z.of_nat (length (filter (fun k => is_done_already k = true) kinds))).
Proof.
  induction rows as [|row rows IH]; intros i scan; cbn zeta.
  { destruct scan. cbn. now rewrite app_nil_r, !Z.add_0_r. }
  cbn [scan_rows row_kinds]. cbv zeta.
  assert (Hleft : row_kind_of start_row end_row i row = LeftOut ->
                  scan_rows start_row end_row (i + 1) rows scan
                  = SheetScan
                      (data_rows scan
                       ++ omap handed_on (row_kind_of start_row end_row i row
                                          :: row_kinds start_row end_row (i + 1) rows))
                      (total_email_count scan
                       + Z.of_nat (length (filter (fun k => has_email k = true)
                                             (row_kind_of start_row end_row i row
                                              :: row_kinds start_row end_row (i + 1) rows))))
                      (skipped_count scan
                       + Z.of_nat (length (filter (fun k => is_done_already k = true)
                                             (row_kind_of start_row end_row i row
                                              :: row_kinds start_row end_row (i + 1) rows))))).
  { intros ->. rewrite IH. cbn [omap handed_on].
    rewrite !filter_cons_False by (cbn; discriminate). reflexivity. }
  destruct (match start_row with Some start => i <? start | None => false end) eqn:Hs.
  { apply Hleft. unfold row_kind_of, in_row_range.
    destruct start_row as [start|]; [|discriminate Hs].
    apply Z.ltb_lt in Hs. replace (start <=? i) with false by (symmetry; apply Z.leb_gt; lia).
    reflexivity. }
  destruct (match end_row with Some end_ => end_ <? i | None => false end) eqn:He.
  { destruct end_row as [end_|]; [|discriminate He]. apply Z.ltb_lt in He.
    pose proof (rows_after_end start_row end_ (row :: rows) i He) as Hout.
    cbn [row_kinds] in Hout.
    rewrite (omap_left_out _ Hout), !(count_left_out _ _ eq_refl Hout).
    destruct scan. cbn. now rewrite app_nil_r, !Z.add_0_r. }
  assert (Hrange : in_row_range start_row end_row i = true).
  { unfold in_row_range. apply andb_true_intro. split.
    - destruct start_row as [start|]; [|reflexivity].
      apply Z.ltb_ge in Hs. now apply Z.leb_le.
    - destruct end_row as [end_|]; [|reflexivity].
      apply Z.ltb_ge in He. now apply Z.leb_le. }
  destruct row as [|cell row'].
  { apply Hleft. unfold row_kind_of. now rewrite Hrange. }
  assert (Hkind : row_kind_of start_row end_row i (cell :: row')
                  = if String.eqb (PyStr.strip cell) "" then LeftOut
                    else if bool_decide (cell_stripped (cell :: row') 2 = Some "成功")
                         then DoneAlready
                         else HandedOn (i, PyStr.strip cell, cell_stripped (cell :: row') 1)).
  { unfold row_kind_of. now rewrite Hrange. }
  unfold Str.truthy.
  destruct (String.eqb_spec cell "") as [->|Hcell]; cbn [negb orb].
  { apply Hleft. now rewrite Hkind, strip_empty. }
  destruct (String.eqb (PyStr.strip cell) "") eqn:Hstrip; cbn [negb].
  { apply Hleft. now rewrite Hkind. }
  rewrite Hkind.
  destruct (bool_decide (cell_stripped (cell :: row') 2 = Some "成功")).
  - rewrite IH. cbn [data_rows total_email_count skipped_count omap handed_on].
    rewrite !filter_cons_True by reflexivity. cbn [length].
    f_equal; lia.
  - rewrite IH. cbn [data_rows total_email_count skipped_count omap handed_on].
    rewrite filter_cons_True by reflexivity.
    rewrite filter_cons_False by (cbn; discriminate). cbn [length].
    rewrite <- app_assoc. cbn [app]. f_equal; lia.
Qed.

Lemma kinds_accounted ks :
  length (filter (fun k => has_email k = true) ks)
  = (length (omap handed_on ks)
     + length (filter (fun k => is_done_already k = true) ks))%nat.
Proof.
  induction ks as [|k ks IH]; [reflexivity|].
  destruct k.
  - rewrite !filter_cons_False by (cbn; discriminate). exact IH.
  - rewrite !filter_cons_True by reflexivity.
    change (omap handed_on (DoneAlready :: ks)) with (omap handed_on ks).
    cbn [length]. lia.
  - rewrite filter_cons_True by reflexivity.
    rewrite filter_cons_False by (cbn; discriminate).
    change (omap handed_on (HandedOn entry :: ks)) with (entry :: omap handed_on ks).
    cbn [length]. lia.
Qed.

Lemma read_sheets_data_scan open_values spreadsheet_id worksheet_name start_row end_row result :
  read_sheets_data open_values spreadsheet_id worksheet_name start_row end_row = inr result ->
  exists all_values,
    open_values (extract_spreadsheet_id spreadsheet_id)
                (if Str.truthy worksheet_name then worksheet_name else None)
    = inr all_values
    /\ valid_row_range start_row end_row = true
    /\ let scan := scan_rows start_row end_row 1 all_values (SheetScan [] 0 0) in
       result = (data_rows scan, total_email_count scan, skipped_count scan).
Proof.
  unfold read_sheets_data, valid_row_range.
  destruct (open_values _ _) as [e|all_values]; [discriminate|].
  intros H. exists all_values. split; [reflexivity|].
  destruct start_row as [start|], end_row as [end_|]; cbn in *;
    try (injection H as <-; now split).
  destruct (end_ <? start) eqn:H1; [discriminate H|].
  destruct (start <? 1) eqn:H2; [discriminate H|].
  injection H as <-. split; [|reflexivity].
  apply Z.ltb_ge in H1, H2. apply andb_true_intro. split; now apply Z.leb_le.
Qed.

(** [read_sheets_data] loses no row and invents none: when the sheet can
    be read and the range of rows is valid, it returns, in the order of
    the sheet, exactly the rows of the range that have an e-mail address
    and are not marked 成功 in column C, with their row numbers, the
    number of rows of the range that have an e-mail address, and the
    number of those marked 成功. *)
Theorem read_sheets_data_gathers_the_rows
        open_values spreadsheet_id worksheet_name start_row end_row all_values :
  open_values (extract_spreadsheet_id spreadsheet_id)
              (if Str.truthy worksheet_name then worksheet_name else None)
  = inr all_values ->
  valid_row_range start_row end_row = true ->
  let kinds := row_kinds start_row end_row 1 all_values in
  read_sheets_data open_values spreadsheet_id worksheet_name start_row end_row
  = inr (omap handed_on kinds,
         Z.of_nat (length (filter (fun k => has_email k = true) kinds)),
         Z.of_nat (length (filter (fun k => is_done_already k = true) kinds))).
Proof.
  intros Hopen Hvalid kinds. unfold read_sheets_data. rewrite Hopen.
  assert (Herr : match start_row, end_row with
                 | Some start, Some end_ =>
                     if end_ <? start then
                       Some (Exception ("Start row (" +:+ pretty start
                                        +:+ ") must be less than or equal to end row ("
                                        +:+ pretty end_ +:+ ")"))
                     else if start <? 1 then
                       Some (Exception ("Start row must be at least 1, got " +:+ pretty start))
                     else None
                 | _, _ => None
                 end = None).
  { destruct start_row as [start|], end_row as [end_|]; try reflexivity.
    cbn in Hvalid. apply andb_prop in Hvalid as [H1%Z.leb_le H2%Z.leb_le].
    replace (end_ <? start) with false by (symmetry; apply Z.ltb_ge; lia).
    replace (start <? 1) with false by (symmetry; apply Z.ltb_ge; lia). reflexivity. }
  cbv zeta. rewrite Herr, scan_rows_kinds. reflexivity.
Qed.

Lemma read_sheets_data_gathers_the_rows_witness :
  read_sheets_data (fun _ _ => inr sample_sheet) "sheet-id" None (Some 2) (Some 7)
  = inr ([(3, "b@example.com", None); (6, "c@example.com", None)], 4, 2).
Proof.
  exact (read_sheets_data_gathers_the_rows
           (fun _ _ => inr sample_sheet) "sheet-id" None (Some 2) (Some 7) sample_sheet
           eq_refl eq_refl).
Defined.

(** The counts that [read_sheets_data] returns add up: the number of rows
    with an e-mail address is the number of rows returned plus the number
    of rows skipped. *)
Theorem read_sheets_data_counts_add_up
        open_values spreadsheet_id worksheet_name start_row end_row
        rows total skipped :
  read_sheets_data open_values spreadsheet_id worksheet_name start_row end_row
  = inr (rows, total, skipped) ->
  total = Z.of_nat (length rows) + skipped
  /\ 0 <= skipped.
Proof.
  intros (all_values & _ & _ & H)%read_sheets_data_scan. cbv zeta in H.
  rewrite scan_rows_kinds in H. cbn [data_rows total_email_count skipped_count] in H.
  injection H as -> -> ->. cbn [app]. rewrite kinds_accounted. lia.
Qed.

Lemma read_sheets_data_counts_add_up_witness :
  4 = Z.of_nat (length [(3, "b@example.com", None : option string);
                        (6, "c@example.com", None)]) + 2
  /\ 0 <= 2.
Proof.
  exact (read_sheets_data_counts_add_up
           (fun _ _ => inr sample_sheet) "sheet-id" None (Some 2) (Some 7)
           [(3, "b@example.com", None); (6, "c@example.com", None)] 4 2 eq_refl).
Defined.

(** A range of rows with [start_row > end_row] or [start_row < 1] makes
    [read_sheets_data] fail, whatever the sheet holds; like every failure
    of the function, it is an [Exception] whose message starts with
    "Error reading Google Sheets: ". *)
Theorem read_sheets_data_rejects_bad_range
        open_values spreadsheet_id worksheet_name start_row end_row :
  valid_row_range start_row end_row = false ->
  exists msg,
    read_sheets_data open_values spreadsheet_id worksheet_name start_row end_row
    = inl (Exception ("Error reading Google Sheets: " +:+ msg)).
Proof.
  unfold valid_row_range, read_sheets_data. intros Hvalid.
  destruct (open_values _ _) as [e|all_values]; [eexists; reflexivity|].
  destruct start_row as [start|], end_row as [end_|]; try discriminate Hvalid.
  destruct (end_ <? start) eqn:H1; [eexists; reflexivity|].
  destruct (start <? 1) eqn:H2; [eexists; reflexivity|].
  apply Z.ltb_ge in H1, H2. apply andb_false_iff in Hvalid as [H%Z.leb_gt|H%Z.leb_gt]; lia.
Qed.

Lemma read_sheets_data_rejects_bad_range_witness :
  exists msg,
    read_sheets_data (fun _ _ => inr sample_sheet) "sheet-id" None (Some 0) (Some 7)
    = inl (Exception ("Error reading Google Sheets: " +:+ msg)).
Proof.
  exact (read_sheets_data_rejects_bad_range
           (fun _ _ => inr sample_sheet) "sheet-id" None (Some 0) (Some 7) eq_refl).
Defined.

Lemma handed_on_row start_row end_row i row entry :
  row_kind_of start_row end_row i row = HandedOn entry ->
  in_row_range start_row end_row i = true
  /\ exists cell,
      row !! 0%nat = Some cell
      /\ entry = (i, PyStr.strip cell, cell_stripped row 1)
      /\ PyStr.strip cell <> ""
      /\ cell_stripped row 2 <> Some "成功".
Proof.
  unfold row_kind_of.
  destruct (in_row_range start_row end_row i); [|discriminate].
  destruct (row !! 0%nat) as [cell|]; [|discriminate].
  destruct (String.eqb (PyStr.strip cell) "") eqn:Hcell; [discriminate|].
  destruct (bool_decide (cell_stripped row 2 = Some "成功")) eqn:Hdone; [discriminate|].
  intros [= <-]. split; [reflexivity|]. exists cell. repeat split.
  - now apply String.eqb_neq.
  - now apply bool_decide_eq_false in Hdone.
Qed.

Lemma entry_of_sheet_later start_row end_row i row rows entry :
  entry_of_sheet start_row end_row (i + 1) rows entry ->
  entry_of_sheet start_row end_row i (row :: rows) entry /\ i < entry.1.1.
Proof.
  destruct entry as [[n email] password].
  intros (Hn & Hrange & r & cell & Hr & Hrest). split; [|cbn; lia].
  split; [lia|]. split; [exact Hrange|]. exists r, cell. split; [|exact Hrest].
  replace (Z.to_nat (n - i)) with (S (Z.to_nat (n - (i + 1)))) by lia. exact Hr.
Qed.

Lemma kinds_of_sheet start_row end_row rows :
  forall i,
    let entries := omap handed_on (row_kinds start_row end_row i rows) in
    Forall (entry_of_sheet start_row end_row i rows) entries
    /\ Forall (fun entry => i <= entry.1.1) entries
    /\ StronglySorted Z.lt (map (fun entry => entry.1.1) entries).
Proof.
  induction rows as [|row rows IH]; intros i; cbv zeta.
  { repeat split; constructor. }
  cbn [row_kinds]. destruct (IH (i + 1)) as (Hall & Hlow & Hsorted).
  assert (Hall' : Forall (entry_of_sheet start_row end_row i (row :: rows))
                         (omap handed_on (row_kinds start_row end_row (i + 1) rows))).
  { eapply Forall_impl; [exact Hall|]. intros entry H.
    exact (proj1 (entry_of_sheet_later _ _ _ _ _ _ H)). }
  assert (Hlow' : Forall (fun entry => i < entry.1.1)
                         (omap handed_on (row_kinds start_row end_row (i + 1) rows))).
  { eapply Forall_impl; [exact Hlow|]. cbn. intros; lia. }
  destruct (row_kind_of start_row end_row i row) as [| |entry] eqn:Hkind.
  - change (omap handed_on (LeftOut :: ?ks)) with (omap handed_on ks).
    repeat split; [exact Hall'| |exact Hsorted].
    eapply Forall_impl; [exact Hlow'|]. cbn. intros; lia.
  - change (omap handed_on (DoneAlready :: ?ks)) with (omap handed_on ks).
    repeat split; [exact Hall'| |exact Hsorted].
    eapply Forall_impl; [exact Hlow'|]. cbn. intros; lia.
  - change (omap handed_on (HandedOn entry :: ?ks)) with (entry :: omap handed_on ks).
    apply handed_on_row in Hkind as (Hrange & cell & Hcell & -> & Hemail & Hdone).
    repeat split.
    + constructor; [|exact Hall'].
      split; [lia|]. split; [exact Hrange|]. exists row, cell.
      replace (Z.to_nat (i - i)) with 0%nat by lia. now repeat split.
    + constructor; [cbn; lia|].
      eapply Forall_impl; [exact Hlow'|]. cbn. intros; lia.
    + cbn [map]. constructor; [exact Hsorted|].
      apply Forall_map. exact Hlow'.
Qed.

(** Every row that [read_sheets_data] returns is a row of the sheet, in
    the order of the sheet: the row numbers increase strictly, each is
    within the range of rows, the e-mail address is the stripped first
    cell of that row and is not empty, the password is the stripped second
    cell (or [None]), and the third cell is not 成功. *)
Theorem read_sheets_data_returns_rows_of_the_sheet
        open_values spreadsheet_id worksheet_name start_row end_row
        all_values rows total skipped :
  open_values (extract_spreadsheet_id spreadsheet_id)
              (if Str.truthy worksheet_name then worksheet_name else None)
  = inr all_values ->
  read_sheets_data open_values spreadsheet_id worksheet_name start_row end_row
  = inr (rows, total, skipped) ->
  StronglySorted Z.lt (map (fun entry => entry.1.1) rows)
  /\ Forall (entry_of_sheet start_row end_row 1 all_values) rows.
Proof.
  intros Hopen (all_values' & Hopen' & _ & H)%read_sheets_data_scan.
  rewrite Hopen in Hopen'. injection Hopen' as <-. cbv zeta in H.
  rewrite scan_rows_kinds in H. cbn [data_rows total_email_count skipped_count] in H.
  injection H as -> _ _. cbn [app].
  destruct (kinds_of_sheet start_row end_row all_values 1) as (Hall & _ & Hsorted).
  now split.
Qed.

Lemma read_sheets_data_returns_rows_of_the_sheet_witness :
  StronglySorted Z.lt (map (fun entry => entry.1.1)
                           [(3, "b@example.com", None : option string);
                            (6, "c@example.com", None)])
  /\ Forall (entry_of_sheet (Some 2) (Some 7) 1 sample_sheet)
            [(3, "b@example.com", None); (6, "c@example.com", None)].
Proof.
  exact (read_sheets_data_returns_rows_of_the_sheet
           (fun _ _ => inr sample_sheet) "sheet-id" None (Some 2) (Some 7)
           sample_sheet [(3, "b@example.com", None); (6, "c@example.com", None)] 4 2
           eq_refl eq_refl).
Defined.

(** ** Splitting a string *)

Lemma append_cons (x : ascii) (a b : string) : String x a +:+ b = String x (a +:+ b).
Proof. reflexivity. Qed.

Lemma append_assoc (a b c : string) : (a +:+ b) +:+ c = a +:+ (b +:+ c).
Proof. induction a as [|x a IH]; [reflexivity|]. rewrite !append_cons. now f_equal. Qed.

Lemma append_empty (a : string) : a +:+ "" = a.
Proof. induction a as [|x a IH]; [reflexivity|]. rewrite append_cons. now f_equal. Qed.

Lemma prefix_empty (s : string) : String.prefix "" s = true.
Proof. now destruct s. Qed.

Lemma prefix_other_start (c d : ascii) (sep rest : string) :
  c <> d -> String.prefix (String d sep) (String c rest) = false.
Proof. intros H. cbn. destruct (ascii_dec d c) as [->|_]; [now destruct H|reflexivity]. Qed.

Lemma prefix_same_start (c : ascii) (sep rest : string) :
  String.prefix (String c sep) (String c rest) = String.prefix sep rest.
Proof. cbn. destruct (ascii_dec c c) as [_|H]; [reflexivity|now destruct H]. Qed.

Lemma contains_char_cons (d c : ascii) (s : string) :
  Str.contains (String d "") (String c s) = false
  <-> c <> d /\ Str.contains (String d "") s = false.
Proof.
  cbn [Str.contains]. destruct (ascii_dec c d) as [->|Hne].
  - rewrite prefix_same_start, prefix_empty. cbn. split; [discriminate|]. intros [H _]. now destruct H.
  - rewrite prefix_other_start by exact Hne. cbn. tauto.
Qed.

Lemma contains_char_app (d : ascii) (a b : string) :
  Str.contains (String d "") a = false ->
  Str.contains (String d "") b = false ->
  Str.contains (String d "") (a +:+ b) = false.
Proof.
  intros Ha Hb. induction a as [|c a IH]; [exact Hb|].
  apply contains_char_cons in Ha as [Hc Ha].
  change (String c a +:+ b) with (String c (a +:+ b)).
  apply contains_char_cons. split; [exact Hc|]. now apply IH.
Qed.

(** A piece that holds no first byte of the separator is read through. *)
Lemma split_from_through (d : ascii) (sep piece : string) :
  Str.contains (String d "") piece = false ->
  forall cur tail,
    PyStr.split_from (String d sep) 0 cur (piece +:+ tail)
    = PyStr.split_from (String d sep) 0 (cur +:+ piece) tail.
Proof.
  induction piece as [|c piece IH]; intros Hpiece cur tail.
  { now rewrite append_empty. }
  apply contains_char_cons in Hpiece as [Hc Hpiece].
  change (String c piece +:+ tail) with (String c (piece +:+ tail)).
  cbn [PyStr.split_from]. rewrite prefix_other_start by exact Hc.
  rewrite IH by exact Hpiece. now rewrite append_assoc.
Qed.

(** The first piece of a split starts with what has been read. *)
Lemma split_from_first (sep : string) (s : string) :
  forall skip cur, exists more rest,
    PyStr.split_from sep skip cur s = (cur +:+ more) :: rest.
Proof.
  induction s as [|c s IH]; intros skip cur.
  { exists "", []. now rewrite append_empty. }
  cbn [PyStr.split_from]. destruct skip as [|k]; [|apply IH].
  destruct (String.prefix sep (String c s)).
  - eexists "", _. now rewrite append_empty.
  - destruct (IH 0%nat (cur +:+ String c "")) as (more & rest & ->).
    exists (String c more), rest. now rewrite append_assoc.
Qed.

Lemma prefix_contains (needle s : string) :
  String.prefix needle s = true -> Str.contains needle s = true.
Proof. destruct s; cbn [Str.contains]; [tauto|]. now intros ->. Qed.

Lemma prefix_app_contains (before needle : string) :
  forall s, String.prefix (before +:+ needle) s = true -> Str.contains needle s = true.
Proof.
  induction before as [|a before IH]; intros s; [apply prefix_contains|].
  destruct s as [|b s]; [discriminate|].
  change (String a before +:+ needle) with (String a (before +:+ needle)).
  cbn [String.prefix Str.contains]. destruct (ascii_dec a b); [|discriminate].
  intros H%IH. rewrite H. apply orb_true_r.
Qed.

Lemma contains_app_contains (before needle : string) :
  forall s, Str.contains (before +:+ needle) s = true -> Str.contains needle s = true.
Proof.
  induction s as [|c s IH]; cbn [Str.contains].
  - intros H%prefix_app_contains. exact H.
  - intros [H|H]%orb_prop.
    + apply prefix_app_contains in H. exact H.
    + rewrite (IH H). apply orb_true_r.
Qed.

(** A string that holds the separator splits in two pieces at least. *)
Lemma split_from_two (d : ascii) (sep : string) :
  forall s cur, Str.contains (String d sep) s = true ->
    exists first second rest,
      PyStr.split_from (String d sep) 0 cur s = first :: second :: rest.
Proof.
  induction s as [|c s IH]; intros cur; cbn [Str.contains PyStr.split_from];
    [discriminate|].
  destruct (String.prefix (String d sep) (String c s)).
  - intros _.
    destruct (split_from_first (String d sep) s (String.length (String d sep) - 1) "")
      as (more & rest & ->).
    now eexists _, _, _.
  - cbn [orb]. apply IH.
Qed.

(** The first piece of a split at a byte does not hold that byte. *)
Lemma split_from_head_clean (d : ascii) :
  forall s cur,
    Str.contains (String d "") cur = false ->
    Str.contains (String d "")
                 (default "" (head (PyStr.split_from (String d "") 0 cur s))) = false.
Proof.
  induction s as [|c s IH]; intros cur Hcur; cbn [PyStr.split_from]; [exact Hcur|].
  destruct (ascii_dec c d) as [->|Hne].
  - rewrite prefix_same_start, prefix_empty. exact Hcur.
  - rewrite prefix_other_start by exact Hne. apply IH.
    apply contains_char_app; [exact Hcur|].
    apply contains_char_cons. split; [exact Hne|reflexivity].
Qed.

(** ** [extract_spreadsheet_id] *)

Lemma split_url_prefix (rest : string) :
  Str.contains "docs.google.com/spreadsheets/d/"
               ("https://docs.google.com/spreadsheets/d/" +:+ rest) = true
  /\ PyStr.split "/d/" ("https://docs.google.com/spreadsheets/d/" +:+ rest)
     = "https://docs.google.com/spreadsheets" :: PyStr.split_from "/d/" 0 "" rest.
Proof.
  unfold PyStr.split. rewrite !append_cons. change ("" +:+ rest) with rest. split.
  - cbn. now rewrite prefix_empty.
  - cbn. rewrite prefix_empty. reflexivity.
Qed.

(** The id is read out of the address of a spreadsheet: from
    [https://docs.google.com/spreadsheets/d/<id>] or
    [https://docs.google.com/spreadsheets/d/<id>/...], with white space
    around it or not, [extract_spreadsheet_id] returns [<id>], for every
    [<id>] that holds no [/]. *)
Theorem extract_spreadsheet_id_of_address (spreadsheet_input id tail : string) :
  PyStr.strip spreadsheet_input
  = "https://docs.google.com/spreadsheets/d/" +:+ id +:+ tail ->
  Str.contains "/" id = false ->
  tail = "" \/ String.prefix "/" tail = true ->
  extract_spreadsheet_id spreadsheet_input = id.
Proof.
  intros Hinput Hid Htail. unfold extract_spreadsheet_id. cbv zeta. rewrite Hinput.
  destruct (split_url_prefix (id +:+ tail)) as [-> ->].
  rewrite (split_from_through _ _ _ Hid). change ("" +:+ id) with id.
  assert (Hpiece : exists more rest,
             PyStr.split_from "/d/" 0 id tail = (id +:+ more) :: rest
             /\ (more = "" \/ String.prefix "/" more = true)).
  { destruct Htail as [->|Htail].
    - exists "", []. split; [now rewrite append_empty|now left].
    - destruct tail as [|c tail]; [discriminate Htail|].
      cbn [PyStr.split_from]. destruct (String.prefix "/d/" (String c tail)).
      + eexists "", _. split; [now rewrite append_empty|now left].
      + destruct (split_from_first "/d/" tail 0 (id +:+ String c ""))
          as (more & rest & ->).
        exists (String c more), rest. split; [now rewrite append_assoc|].
        right. destruct (ascii_dec c "/") as [->|Hne].
        * rewrite prefix_same_start. apply prefix_empty.
        * rewrite prefix_other_start in Htail by exact Hne. discriminate Htail. }
  destruct Hpiece as (more & rest & -> & Hmore).
  unfold PyStr.split. rewrite (split_from_through _ _ _ Hid). change ("" +:+ id) with id.
  destruct Hmore as [->|Hmore]; [reflexivity|].
  destruct more as [|c more]; [reflexivity|].
  cbn [PyStr.split_from]. now rewrite Hmore.
Qed.

Lemma extract_spreadsheet_id_of_address_witness :
  extract_spreadsheet_id
    "  https://docs.google.com/spreadsheets/d/1BxiMVs0XRA5nFMdKvBdBZjgmUUqptlbs74OgvE2upms/edit#gid=0 "
  = "1BxiMVs0XRA5nFMdKvBdBZjgmUUqptlbs74OgvE2upms".
Proof.
  exact (extract_spreadsheet_id_of_address
           "  https://docs.google.com/spreadsheets/d/1BxiMVs0XRA5nFMdKvBdBZjgmUUqptlbs74OgvE2upms/edit#gid=0 "
           "1BxiMVs0XRA5nFMdKvBdBZjgmUUqptlbs74OgvE2upms" "/edit#gid=0"
           eq_refl eq_refl (or_intror eq_refl)).
Defined.

(** When the input is taken for an address, because it holds
    [docs.google.com/spreadsheets/d/], the id that
    [extract_spreadsheet_id] returns holds no [/]: it is never the
    address itself. *)
Theorem extract_spreadsheet_id_of_address_has_no_slash (spreadsheet_input : string) :
  Str.contains "docs.google.com/spreadsheets/d/" (PyStr.strip spreadsheet_input) = true ->
  Str.contains "/" (extract_spreadsheet_id spreadsheet_input) = false.
Proof.
  intros Hurl. unfold extract_spreadsheet_id. cbv zeta. rewrite Hurl.
  assert (Hsep : Str.contains "/d/" (PyStr.strip spreadsheet_input) = true).
  { apply (contains_app_contains "docs.google.com/spreadsheets" "/d/"). exact Hurl. }
  destruct (split_from_two _ _ _ "" Hsep) as (first & second & rest & Hsplit).
  unfold PyStr.split at 1. rewrite Hsplit.
  apply split_from_head_clean. reflexivity.
Qed.

Lemma extract_spreadsheet_id_of_address_has_no_slash_witness :
  Str.contains "/"
    (extract_spreadsheet_id "http://example.com/d/x/docs.google.com/spreadsheets/d/abc") = false.
Proof.
  exact (extract_spreadsheet_id_of_address_has_no_slash
           "http://example.com/d/x/docs.google.com/spreadsheets/d/abc" eq_refl).
Defined.

(** ** The escaping of the token *)

Lemma replace_byte_cons (old : ascii) (new : string) (c : ascii) (s : string) :
  PyStr.replace (String old "") new (String c s)
  = (if Ascii.eqb c old then new else String c "") +:+ PyStr.replace (String old "") new s.
Proof.
  unfold PyStr.replace. cbn [PyStr.replace_from].
  destruct (Ascii.eqb_spec c old) as [->|Hne].
  - rewrite prefix_same_start, prefix_empty. reflexivity.
  - rewrite prefix_other_start by exact Hne. reflexivity.
Qed.

Lemma replace_byte_app (old : ascii) (new a b : string) :
  PyStr.replace (String old "") new (a +:+ b)
  = PyStr.replace (String old "") new a +:+ PyStr.replace (String old "") new b.
Proof.
  induction a as [|c a IH]; [reflexivity|].
  rewrite append_cons, !replace_byte_cons, IH. now rewrite append_assoc.
Qed.

Lemma escaped_token_app (a b : string) :
  escaped_token (a +:+ b) = escaped_token a +:+ escaped_token b.
Proof. unfold escaped_token. cbv zeta. now rewrite !replace_byte_app. Qed.

Lemma escaped_token_byte (c : ascii) :
  escaped_token (String c "")
  = if Ascii.eqb c backslash || Ascii.eqb c double_quote || Ascii.eqb c single_quote
    then String backslash (String c "")
    else if Ascii.eqb c line_feed then String backslash "n"
    else if Ascii.eqb c carriage_return then String backslash "r"
    else String c "".
Proof.
  unfold escaped_token. cbv zeta. rewrite replace_byte_cons.
  change (PyStr.replace (String backslash "") (String backslash (String backslash "")) "")
    with "".
  destruct (Ascii.eqb_spec c backslash) as [->|H1]; [reflexivity|].
  cbn [orb]. rewrite append_cons. change ("" +:+ "") with "".
  rewrite replace_byte_cons.
  destruct (Ascii.eqb_spec c double_quote) as [->|H2]; [reflexivity|].
  cbn [orb]. rewrite append_cons. change ("" +:+ PyStr.replace ?a ?b "") with "".
  rewrite replace_byte_cons.
  destruct (Ascii.eqb_spec c single_quote) as [->|H3]; [reflexivity|].
  rewrite append_cons. change ("" +:+ PyStr.replace ?a ?b "") with "".
  rewrite replace_byte_cons.
  destruct (Ascii.eqb_spec c line_feed) as [->|H4]; [reflexivity|].
  rewrite append_cons. change ("" +:+ PyStr.replace ?a ?b "") with "".
  rewrite replace_byte_cons.
  destruct (Ascii.eqb_spec c carriage_return) as [->|H5]; reflexivity.
Qed.

(** The five replacements escape every byte of the token once, none of
    them touching what an earlier one has written: a backslash, a double
    quote and a single quote get a backslash before them, a line feed
    becomes [\n] and a carriage return [\r], and every other byte is
    kept. *)
Theorem escaped_token_escapes_each_byte_once (c : ascii) (token : string) :
  escaped_token (String c token)
  = (if Ascii.eqb c backslash || Ascii.eqb c double_quote || Ascii.eqb c single_quote
     then String backslash (String c "")
     else if Ascii.eqb c line_feed then String backslash "n"
     else if Ascii.eqb c carriage_return then String backslash "r"
     else String c "")
    +:+ escaped_token token.
Proof.
  change (String c token) with (String c "" +:+ token).
  now rewrite escaped_token_app, escaped_token_byte.
Qed.

(** Whatever the token, the escaped token holds no line feed and no
    carriage return: it cannot end the line of the script it is written
    into. *)
Theorem escaped_token_has_no_line_break (token : string) :
  Str.contains (String line_feed "") (escaped_token token) = false
  /\ Str.contains (String carriage_return "") (escaped_token token) = false.
Proof.
  induction token as [|c token [IHn IHr]]; [now split|].
  change (String c token) with (String c "" +:+ token).
  rewrite escaped_token_app, escaped_token_byte.
  split; (apply contains_char_app; [|assumption]).
  - destruct (Ascii.eqb_spec c backslash) as [->|H1]; [reflexivity|].
    destruct (Ascii.eqb_spec c double_quote) as [->|H2]; [reflexivity|].
    destruct (Ascii.eqb_spec c single_quote) as [->|H3]; [reflexivity|].
    cbn [orb].
    destruct (Ascii.eqb_spec c line_feed) as [->|H4]; [reflexivity|].
    destruct (Ascii.eqb_spec c carriage_return) as [->|H5]; [reflexivity|].
    apply contains_char_cons. now split.
  - destruct (Ascii.eqb_spec c backslash) as [->|H1]; [reflexivity|].
    destruct (Ascii.eqb_spec c double_quote) as [->|H2]; [reflexivity|].
    destruct (Ascii.eqb_spec c single_quote) as [->|H3]; [reflexivity|].
    cbn [orb].
    destruct (Ascii.eqb_spec c line_feed) as [->|H4]; [reflexivity|].
    destruct (Ascii.eqb_spec c carriage_return) as [->|H5]; [reflexivity|].
    apply contains_char_cons. now split.
Qed.

(** * C1: the final status of a batch *)

Section FinalStatus.
Context {W : Type} `{!World W}.

Ltac frame_call :=
  lazymatch goal with
  | |- wpg _ (bind (call_with _ _) _) _ _ =>
      eapply wpg_bind_spec; [apply wpg_call_frame|];
      intros [?|?] ? ? _ ->; cbv beta iota zeta
  end.

Ltac explore := repeat first [frame_call | wp_step | wp_branch].

Lemma keeps_final_refl l : keeps_final l l.
Proof. now split. Qed.

Lemma keeps_final_trans l1 l2 l3 :
  keeps_final l1 l2 -> keeps_final l2 l3 -> keeps_final l1 l3.
Proof. intros [? ?] [? ?]. split; congruence. Qed.

(** The loop over the items leaves the final status alone. *)
Lemma after_failure_final selected lottery_index l :
  wpg (W:=W) any_event (after_failure selected lottery_index)
      (fun _ l' _ => keeps_final l l') l.
Proof.
  unfold after_failure, restart_after_reload. explore; now destruct l.
Qed.

Lemma process_open_lottery_final selected lottery_index lottery_number l :
  wpg (W:=W) any_event (process_open_lottery selected lottery_index lottery_number)
      (fun _ l' _ => keeps_final l l') l.
Proof.
  unfold process_open_lottery, restart_after_reload, append_result, after_failure.
  explore; now destruct l.
Qed.

Lemma classify_lottery_final selected lottery_index lottery_number l :
  wpg (W:=W) any_event (classify_lottery selected lottery_index lottery_number)
      (fun _ l' _ => keeps_final l l') l.
Proof.
  unfold classify_lottery, append_result. wp_step. wp_step.
  intros [e|[label exists_]] _; cbv beta iota; [apply keeps_final_refl|]. cbn [fst snd].
  wp_step. wp_step.
  repeat wp_branch; try (repeat wp_step; now destruct l).
  frame_call; [now destruct l|].
  eapply wpg_conseq; [apply process_open_lottery_final|].
  intros ? ? ? _ Hk. now destruct l.
Qed.

Lemma process_selected_final selected rest : forall lottery_index l,
  wpg (W:=W) any_event (process_selected selected rest lottery_index)
      (fun _ l' _ => keeps_final l l') l.
Proof.
  induction rest as [|n rest IH]; intros idx l; cbn [process_selected].
  { wp_step. apply keeps_final_refl. }
  frame_call; [apply keeps_final_refl|]. frame_call; [apply keeps_final_refl|].
  wp_step. wp_step. wp_branch.
  - wp_step. wp_step. eapply wpg_conseq; [apply IH|].
    intros ? ? ? _ Hk. now destruct l.
  - eapply wpg_bind_spec; [apply classify_lottery_final|].
    intros [e|c] l1 ? _ H1; cbv beta iota; [exact H1|].
    destruct c as [| |[]]; [|wp_step; exact H1..].
    eapply wpg_conseq; [apply IH|].
    intros ? ? ? _ Hk. eapply keeps_final_trans; eassumption.
Qed.


(** The checks made after a pass: when they find nothing open, they have
    changed nothing. *)
Lemma recheck_open_unchanged rest : forall has_open_lotteries l,
  wpg (W:=W) any_event (recheck_open rest has_open_lotteries)
      (fun r l' _ => keeps_final l l'
                     /\ (r = inr false -> has_open_lotteries = false /\ l' = l)) l.
Proof.
  induction rest as [|n rest IH]; intros b l; cbn [recheck_open].
  { wp_step. split; [apply keeps_final_refl|]. now intros [= <-]. }
  frame_call; [split; [apply keeps_final_refl|discriminate]|].
  wp_step. wp_step.
  intros [e|checked] _; cbv beta iota; [split; [apply keeps_final_refl|discriminate]|].
  wp_branch; [|apply IH].
  wp_step. wp_step. wp_step. wp_branch.
  - wp_step. wp_step. wp_step. eapply wpg_conseq; [apply IH|].
    intros ? ? ? _ [Hk Hr]. split; [now destruct l|]. intros Hf. now destruct (Hr Hf).
  - wp_step. eapply wpg_conseq; [apply IH|].
    intros ? ? ? _ [Hk Hr]. split; [exact Hk|]. intros Hf. now destruct (Hr Hf).
Qed.

Lemma verify_completed_unchanged rest : forall l,
  wpg (W:=W) any_event (verify_completed rest) (fun _ l' _ => l' = l) l.
Proof.
  induction rest as [|n rest IH]; intros l; cbn [verify_completed].
  { now wp_step. }
  frame_call; [reflexivity|]. wp_step. wp_step.
  intros [e|checked] _; cbv beta iota; [reflexivity|].
  repeat wp_branch; try apply IH. now wp_step.
Qed.

Lemma final_verify_unchanged rest : forall all_final_verified l,
  wpg (W:=W) any_event (final_verify rest all_final_verified)
      (fun r l' _ => keeps_final l l'
                     /\ (r = inr true -> all_final_verified = true /\ l' = l)) l.
Proof.
  induction rest as [|n rest IH]; intros b l; cbn [final_verify].
  { wp_step. split; [apply keeps_final_refl|]. now intros [= <-]. }
  frame_call; [split; [apply keeps_final_refl|discriminate]|].
  wp_step. wp_step.
  intros [e|checked] _; cbv beta iota; [split; [apply keeps_final_refl|discriminate]|].
  wp_branch; [|apply IH].
  wp_step. wp_step. wp_step. wp_branch; wp_step; wp_step; wp_step;
    (eapply wpg_conseq; [apply IH|]);
    intros ? ? ? _ [Hk Hr]; (split; [now destruct l|]); intros Hf; now destruct (Hr Hf).
Qed.

Lemma filter_length_all (selected : list Z) (c : gset Z) :
  (length selected <= length (filter (fun n => n ∈ c) selected))%nat ->
  forall n, n ∈ selected -> n ∈ c.
Proof.
  induction selected as [|x xs IH]; intros Hlen n Hn; [now apply elem_of_nil in Hn|].
  destruct (decide (x ∈ c)) as [Hx|Hx].
  - rewrite filter_cons_True in Hlen by exact Hx. cbn [length] in Hlen.
    apply elem_of_cons in Hn as [->|Hn]; [exact Hx|]. apply IH; [lia|exact Hn].
  - rewrite filter_cons_False in Hlen by exact Hx. cbn [length] in Hlen.
    pose proof (length_filter (fun n => n ∈ c) xs). lia.
Qed.

(** The first block after a pass: it leaves the loop with 成功 only when
    every selected item is in [completed_lotteries], and then it has
    changed nothing else. *)
Lemma completion_block_outcome selected l :
  wpg (W:=W) any_event (completion_block selected)
      (fun r l' _ =>
         match r with
         | inl _ => True
         | inr FallThrough => l' = l
         | inr LoopContinue => keeps_final l l'
         | inr LoopBreak =>
             l' = set_final SUCCESS "成功" l /\ all_selected_completed selected l
         end) l.
Proof.
  unfold completion_block.
  eapply wpg_bind_spec; [apply recheck_open_unchanged|].
  intros [e|b] l1 ? _ [Hk Hr]; cbv beta iota; [exact I|]. destruct b.
  { repeat wp_step. now destruct l1. }
  destruct (Hr eq_refl) as [_ ->]. clear Hr Hk.
  wp_step. wp_step. wp_branch; [|now wp_step].
  eapply wpg_bind_spec; [apply verify_completed_unchanged|].
  intros [e|b] l2 ? _ ->; cbv beta iota; [exact I|]. destruct b.
  - repeat wp_step. split; [reflexivity|].
    intros n Hn. eapply filter_length_all; [|exact Hn]. now apply Nat.leb_le.
  - repeat wp_step. now destruct l.
Qed.


Lemma verdict_success_message rs st msg leave :
  determine_final_status rs = (st, msg, leave) -> st = SUCCESS -> msg = "成功".
Proof.
  unfold determine_final_status.
  destruct (has_interrupted _); [intros [= <- _ _]; discriminate|].
  destruct (_ || _ || _); [intros [= <- _ _]; discriminate|].
  destruct (all_success_or_completed rs); [now intros [= _ <- _]|].
  intros [= <- _ _]; discriminate.
Qed.

Lemma verdict_status rs st msg leave :
  determine_final_status rs = (st, msg, leave) ->
  st = verdict_of_statuses (map status rs).
Proof. intros E. rewrite <- verdict_block_follows_precedence, E. reflexivity. Qed.

(** The verdict block: it leaves the loop with the verdict of the
    results as the final status, unless the verdict is 成功 and an item
    is found open again: then the loop goes on with 成功 left in
    [final_status], or, in the last attempt, ends with 失敗. *)
Lemma verdict_block_outcome selected l :
  wpg (W:=W) any_event (verdict_block selected)
      (fun r l' _ =>
         match r with
         | inl _ => True
         | inr FallThrough => False
         | inr LoopContinue => reports_success l'
         | inr LoopBreak =>
             reports_verdict l'
             \/ (reports_still_open l'
                 /\ (max_retry_attempts - 1 <= retry_attempt l)%nat)
         end) l.
Proof.
  unfold verdict_block. wp_step. wp_step.
  destruct (determine_final_status (lottery_results l)) as [[st msg] leave] eqn:E.
  assert (Hverdict : reports_verdict (set_final st msg l)).
  { unfold reports_verdict. destruct l. cbn in *. eapply verdict_status, E. }
  wp_step. wp_step.
  wp_branch; [wp_step; now left|]. wp_branch; [|wp_step; now left].
  eapply wpg_bind_spec;
    [apply wpg_conj; [apply final_verify_unchanged|apply final_verify_counters]|].
  intros [e|b] l1 ? _ [[Hk Hr] (_ & _ & Ha)]; cbv beta iota; [exact I|]. destruct b.
  { destruct (Hr eq_refl) as [_ ->]. wp_step. now left. }
  assert (Hsuccess : reports_success l1).
  { destruct Hk as [Hs Hm]. split.
    - rewrite Hs. destruct l. cbn. now apply String.eqb_eq.
    - rewrite Hm. destruct l. cbn. eapply verdict_success_message; [exact E|].
      now apply String.eqb_eq. }
  wp_step. wp_step. wp_branch; repeat wp_step.
  - destruct Hsuccess. now destruct l1.
  - right. split; [now destruct l1|].
    match goal with H : (_ <? _)%nat = false |- _ => apply Nat.ltb_ge in H; rename H into Hge end.
    rewrite Ha in Hge. now destruct l.
Qed.

End FinalStatus.

(** One pass of the retry loop, in the runs that the guard [G] selects,
    given what the loop over the items makes known. *)
Section OnePass.
Context {W : Type} `{!World W}.
Variable G : event -> bool.
Variable selected : list Z.
Variable known : locals -> Prop.
Hypothesis known_final : forall l st msg, known l -> known (set_final st msg l).

Ltac frame_call :=
  lazymatch goal with
  | |- wpg _ (bind (call_with _ _) _) _ _ =>
      eapply wpg_bind_spec; [apply wpg_any_weaken, wpg_call_frame|];
      intros [?|?] ? ? _ ->; cbv beta iota zeta
  end.

Lemma one_pass_outcome l :
  wpg (W:=W) G (process_selected selected selected 0) (fun _ l' _ => known l')
      (set_checked_count (fun _ => 0%nat) (set_reload_occurred false l)) ->
  wpg (W:=W) G (one_pass selected) (fun r l' _ => pass_outcome selected known l r l') l.
Proof.
  intros Hitems. unfold one_pass. wp_step. wp_step. wp_step. wp_step.
  frame_call; [exact I|]. wp_step. wp_step. intros [e|b] _; cbv beta iota; [exact I|].
  frame_call; [exact I|]. frame_call; [exact I|].
  eapply wpg_bind_spec;
    [apply wpg_conj;
     [exact Hitems
     |apply wpg_any_weaken, wpg_conj;
      [apply process_selected_step|apply process_selected_final]]|].
  intros [e|[]] l1 ? _ (Hknown & H1 & Hk1); cbv beta iota; [exact I|]. wp_step. wp_step.
  assert (Hk : keeps_final l l1) by now destruct l.
  assert (Hcases : (checked_count l1 = length selected /\ reload_occurred l1 = false
                    /\ retry_attempt l1 = retry_attempt l)
                   \/ restarted l l1).
  { destruct H1 as [(Hc & Hr & Ha)|[Hr Ha]]; [left|right]; destruct l; cbn in *.
    - now repeat split.
    - now split. }
  clear H1 Hk1. destruct Hcases as [(Hc & Hr & Ha)|[Hr Ha]].
  2:{ rewrite Hr. wp_step. split; [exact Ha|now left]. }
  rewrite Hr, Hc, Nat.leb_refl.
  eapply wpg_bind_spec;
    [apply wpg_any_weaken, wpg_conj;
     [apply completion_block_outcome|apply completion_block_flow]|].
  intros [e|c] l2 ? _ [H2 Hf2]; cbv beta iota; [exact I|]. destruct c; cbn in Hf2.
  - subst l2. wp_step. wp_step. rewrite Hc, Nat.leb_refl.
    eapply wpg_conseq;
      [apply wpg_any_weaken, wpg_conj;
       [apply verdict_block_outcome|apply verdict_block_flow]|].
    intros [e|[| |]] l3 ? _ [H3 Hf3]; cbn in *; try exact I; try contradiction.
    + split; [congruence|now right].
    + destruct H3 as [H3|[H3 Hge]]; [now left|]. right. right. split; [exact H3|].
      now rewrite <- Ha.
  - wp_step. split; [congruence|]. left. eapply keeps_final_trans; eassumption.
  - wp_step. destruct H2 as [-> Hgate]. right. left. repeat split.
    + exact Hgate.
    + now apply known_final.
Qed.

End OnePass.

Section BatchOutcome.
Context {W : Type} `{!World W}.

Local Abbreviation no_start := (fun e : event => is_pass_start e = false).

(** A pass that returns has made the CAPTCHA check of the apply page
    once. *)
Lemma one_pass_one selected l :
  wpg (W:=W) any_event (one_pass selected)
      (fun r _ t => match r with inl _ => True | inr _ => passes t = 1%nat end) l.
Proof.
  unfold one_pass. wp_step. wp_step. wp_step. wp_step.
  eapply wpg_bind_spec;
    [apply emits_call, (check_stop_page no_start page_op_no_pass_start)|].
  intros [e|[]] l1 t1 _ H1%count_events_none; cbv beta iota; [exact I|].
  wp_step. wp_step. intros [e|b] _; [exact I|]. cbv beta iota.
  eapply wpg_conseq;
    [apply (pass_items no_start page_op_no_pass_start); intros; reflexivity|].
  intros [e|c] ? ? _ H2%count_events_none; [exact I|]. unfold passes in *.
  rewrite !count_events_app, H1, H2. reflexivity.
Qed.

Lemma one_pass_any selected l :
  wpg (W:=W) any_event (one_pass selected)
      (fun r l' _ => pass_outcome selected (fun _ => True) l r l') l.
Proof. apply one_pass_outcome; [easy|apply wpg_true]. Qed.

(** The retry loop, in every run. *)
Lemma retry_loop_outcome selected fuel :
  forall l,
    (retry_attempt l <= max_retry_attempts)%nat ->
    (max_retry_attempts - retry_attempt l < fuel)%nat ->
    wpg (W:=W) any_event (retry_loop selected fuel)
        (fun r l' t => match r with inl _ => True | inr _ => loop_outcome l l' t end) l.
Proof.
  induction fuel as [|fuel IH]; intros l Hle Hfuel; [lia|]. cbn [retry_loop].
  wp_step. wp_step.
  destruct (retry_attempt l <? max_retry_attempts)%nat eqn:Hlt.
  2:{ wp_step. apply Nat.ltb_ge in Hlt. unfold loop_outcome. split; [lia|]. right. right. left.
      split; [apply keeps_final_refl|]. unfold passes. cbn. lia. }
  apply Nat.ltb_lt in Hlt.
  eapply wpg_bind_spec; [apply wpg_conj; [apply one_pass_any|apply one_pass_one]|].
  intros [e|c] l1 t1 _ [H1 Hp1]; cbv beta iota; [exact I|].
  destruct c; cbn in H1.
  - contradiction.
  - destruct H1 as [Ha1 Hstale].
    eapply wpg_conseq; [apply IH; lia|].
    intros [e|[]] l2 t2 _ H2; [exact I|]. destruct H2 as [_ H2].
    unfold loop_outcome, passes in *. rewrite !count_events_app, Hp1.
    cbn [count_events Nat.add]. split; [lia|].
    destruct H2 as [H2|[H2|[[Hk2 Hn2]|[H2 Hn2]]]].
    + now left.
    + right. now left.
    + destruct Hstale as [Hk1|[Hs1 Hm1]].
      * right. right. left. split; [eapply keeps_final_trans; eassumption|lia].
      * right. left. destruct Hk2 as [Hs2 Hm2]. split; congruence.
    + right. right. right. split; [exact H2|lia].
  - wp_step. unfold loop_outcome, passes in *. rewrite !count_events_app, Hp1.
    cbn [count_events Nat.add]. split; [lia|].
    destruct H1 as [H1|[(H1 & _ & _)|[H1 Hge]]].
    + now left.
    + right. now left.
    + right. right. right. split; [exact H1|]. unfold max_retry_attempts in *. lia.
Qed.

End BatchOutcome.

(** ** The first pass of a quiet run *)

Section FirstPass.
Context {W : Type} `{!World W}.
Variable selected : list Z.

Local Abbreviation G := answered_ok.

Lemma answered_ok_self e : G e = true -> answered_ok e = true.
Proof. auto. Qed.

Hint Resolve answered_ok_self : runs.
Hint Resolve check_stop_returns wait_checking_returns ensure_apply_page_returns
     back_to_apply_page_returns handler_returns : runs.

Local Abbreviation kept := (first_pass_results selected).

Lemma elem_of_map {A B} (f : A -> B) (x : A) (xs : list A) : x ∈ xs -> f x ∈ map f xs.
Proof.
  induction xs as [|y xs IH]; intros Hx; [now apply elem_of_nil in Hx|].
  cbn [map]. apply elem_of_cons. apply elem_of_cons in Hx as [->|Hx]; [now left|].
  right. now apply IH.
Qed.

Lemma item_skipped n l l' :
  completed_lotteries l' = completed_lotteries l ->
  lottery_results l' = lottery_results l ->
  kept l -> kept l' /\ only_item n l l'.
Proof.
  unfold first_pass_results, only_item. intros -> ->. split; [assumption|]. now split.
Qed.

Lemma item_recorded n st rsn l l' :
  completed_lotteries l' = completed_lotteries l ->
  lottery_results l' = lottery_results l ++ [LotteryResult_ n st rsn] ->
  n ∈ selected -> n ∉ completed_lotteries l ->
  kept l -> kept l' /\ only_item n l l'.
Proof.
  unfold first_pass_results, only_item. intros -> -> Hsel Hnew Hkept. split.
  - apply Forall_app. split; [exact Hkept|]. constructor; [|constructor].
    split; [exact Hsel|]. cbn. intros Hin. contradiction.
  - intros m Hm. split; [auto|]. rewrite map_app, elem_of_app. cbn.
    intros [Hin|Hin%list_elem_of_singleton]; [exact Hin|contradiction].
Qed.

Lemma item_completed n st rsn l l' :
  completed_lotteries l' = completed_lotteries l ∪ {[n]} ->
  lottery_results l' = lottery_results l ++ [LotteryResult_ n st rsn] ->
  n ∈ selected -> n ∉ map lottery (lottery_results l) -> done_status st ->
  kept l -> kept l' /\ only_item n l l'.
Proof.
  unfold first_pass_results, only_item. intros -> -> Hsel Hnew Hdone Hkept. split.
  - apply Forall_app. split.
    + rewrite Forall_forall in Hkept |- *. intros result Hin.
      destruct (Hkept result Hin) as [Hs Hd]. split; [exact Hs|].
      intros [Hc|Hc%elem_of_singleton]%elem_of_union; [now apply Hd|].
      destruct Hnew. rewrite <- Hc. now apply elem_of_map.
    + constructor; [|constructor]. split; [exact Hsel|]. cbn. now intros _.
  - intros m Hm. split.
    + intros [Hc|Hc%elem_of_singleton]%elem_of_union; [exact Hc|contradiction].
    + rewrite map_app, elem_of_app. cbn.
      intros [Hin|Hin%list_elem_of_singleton]; [exact Hin|contradiction].
Qed.

(** What follows a recorded failure changes neither the results nor the
    completed items. *)
Lemma after_failure_data selected_lotteries lottery_index l :
  wpg (W:=W) G (after_failure selected_lotteries lottery_index)
      (fun r l' _ => (exists c, r = inr c)
                     /\ completed_lotteries l' = completed_lotteries l
                     /\ lottery_results l' = lottery_results l) l.
Proof.
  unfold after_failure, restart_after_reload. run_known. run_known.
  wp_branch.
  - repeat wp_step. split; [now eexists|now split].
  - run_known. wp_step. split; [now eexists|now split].
Qed.

Lemma process_open_lottery_first lottery_index n l :
  n ∈ selected -> n ∉ completed_lotteries l -> n ∉ map lottery (lottery_results l) ->
  kept l ->
  wpg (W:=W) G (process_open_lottery selected lottery_index n)
      (fun _ l' _ => kept l' /\ only_item n l l') l.
Proof.
  intros Hsel Hnew Hfresh Hkept.
  unfold process_open_lottery, restart_after_reload, append_result.
  wp_step. wp_step. wp_step. wp_branch. destruct a.
  - wp_step. wp_step. wp_step. wp_step. run_known. run_known. wp_branch.
    + repeat wp_step.
      eapply item_completed; [reflexivity|reflexivity|assumption..|now left|assumption].
    + run_known. wp_step.
      eapply item_completed; [reflexivity|reflexivity|assumption..|now left|assumption].
  - wp_step. wp_step.
    eapply wpg_conseq; [apply after_failure_data|].
    intros ? l1 ? _ ([c ->] & Hc & Hr); cbv beta iota.
    eapply item_recorded; [exact Hc|exact Hr|assumption..].
  - repeat wp_step. now apply item_skipped.
Qed.

Lemma classify_lottery_first lottery_index n l :
  n ∈ selected -> n ∉ completed_lotteries l -> n ∉ map lottery (lottery_results l) ->
  kept l ->
  wpg (W:=W) G (classify_lottery selected lottery_index n)
      (fun _ l' _ => kept l' /\ only_item n l l') l.
Proof.
  intros Hsel Hnew Hfresh Hkept.
  unfold classify_lottery, append_result. wp_step. wp_step. wp_branch.
  destruct a as [label exists_]. cbn [fst snd]. wp_step. wp_step.
  assert (Hone : forall st rsn,
             kept (set_results (fun rs => rs ++ [LotteryResult_ n st rsn])
                               (set_checked_count S l))
             /\ only_item n l (set_results (fun rs => rs ++ [LotteryResult_ n st rsn])
                                           (set_checked_count S l))).
  { intros st rsn. eapply item_recorded; [reflexivity|reflexivity|assumption..]. }
  wp_branch; [repeat wp_step; apply Hone|].
  wp_branch; [wp_step; now apply item_skipped|].
  wp_branch; [repeat wp_step; apply Hone|].
  wp_branch.
  { repeat wp_step.
    eapply item_completed; [reflexivity|reflexivity|assumption..|now right|assumption]. }
  wp_branch; [|repeat wp_step; apply Hone].
  run_known.
  eapply wpg_conseq;
    [apply (process_open_lottery_first lottery_index n (set_checked_count S l));
     assumption|].
  intros ? l1 ? _ [Hk Ho]. split; [exact Hk|exact Ho].
Qed.

Lemma process_selected_first rest : forall lottery_index l,
  NoDup rest ->
  (forall n, n ∈ rest -> n ∈ selected) ->
  untouched_items rest l ->
  kept l ->
  wpg (W:=W) G (process_selected selected rest lottery_index) (fun _ l' _ => kept l') l.
Proof.
  induction rest as [|n rest IH]; intros idx l Hnd Hsub Hnew Hkept; cbn [process_selected].
  { now wp_step. }
  apply NoDup_cons in Hnd as [Hn Hnd].
  apply Forall_cons in Hnew as [[Hn1 Hn2] Hnew].
  run_known. run_known. wp_step. wp_step.
  rewrite bool_decide_eq_false_2 by exact Hn1.
  eapply wpg_bind_spec;
    [apply classify_lottery_first; [apply Hsub; left|assumption..]|].
  intros [e|c] l1 ? _ [Hk1 Ho1]; cbv beta iota; [exact Hk1|].
  destruct c as [| |[]]; [|wp_step; exact Hk1..].
  apply IH; [exact Hnd|intros m Hm; apply Hsub; now right| |exact Hk1].
  unfold untouched_items in *. rewrite Forall_forall in Hnew |- *.
  intros m Hm. destruct (Hnew m Hm) as [Hm1 Hm2].
  assert (Hne : m <> n) by (intros ->; contradiction).
  destruct (Ho1 m Hne) as [Hc Hr]. split; intros Hin; [apply Hm1|apply Hm2]; auto.
Qed.

Lemma verdict_all_done rs :
  Forall (fun result => done_status (status result)) rs ->
  verdict_of_statuses (map status rs) = SUCCESS.
Proof.
  intros Hdone. unfold verdict_of_statuses.
  assert (H : existsb (String.eqb INTERRUPTED) (map status rs) = false
              /\ existsb (fun st => String.eqb FAILURE st || String.eqb SKIPPED_CLOSED st
                                    || String.eqb NOT_EXIST st) (map status rs) = false
              /\ forallb (fun st => String.eqb SUCCESS st
                                    || String.eqb SKIPPED_COMPLETED st)
                         (map status rs) = true).
  { induction Hdone as [|result rs [Hs|Hs] _ (IH1 & IH2 & IH3)]; [now repeat split|..];
      cbn [map existsb forallb]; rewrite Hs, IH1, IH2, IH3; now repeat split. }
  destruct H as (-> & -> & ->). reflexivity.
Qed.

(** In a quiet run, a batch that ends after one pass ends with the
    verdict of its results. *)
Lemma first_pass_verdict fuel :
  NoDup selected ->
  (max_retry_attempts <= fuel)%nat ->
  wpg (W:=W) G (retry_loop selected (S fuel))
      (fun r l' t => match r with
                     | inl _ => True
                     | inr _ => passes t = 1%nat -> reports_verdict l'
                     end) initial_locals.
Proof.
  intros Hnd Hfuel. cbn [retry_loop]. wp_step. wp_step.
  change (retry_attempt initial_locals <? max_retry_attempts)%nat with true. cbv iota.
  eapply wpg_bind_spec;
    [apply wpg_conj;
     [apply (one_pass_outcome G selected kept); [now intros|]
     |apply wpg_any_weaken, one_pass_one]|].
  { apply process_selected_first; [exact Hnd|auto| |constructor].
    apply Forall_forall. intros n _. split; [apply not_elem_of_empty|apply not_elem_of_nil]. }
  intros [e|c] l1 t1 _ [H1 Hp1]; cbv beta iota; [exact I|].
  destruct c; cbn in H1.
  - contradiction.
  - destruct H1 as [Ha1 _].
    eapply wpg_conseq; [apply wpg_any_weaken, retry_loop_outcome|].
    + rewrite Ha1. cbn. unfold max_retry_attempts. lia.
    + rewrite Ha1. cbn. unfold max_retry_attempts in *. lia.
    + intros [e|[]] l2 t2 _ H2; [exact I|]. destruct H2 as [H2 _].
      unfold passes in *. rewrite !count_events_app, Hp1. cbn [count_events Nat.add].
      intros Hone. assert (1 <= count_events is_pass_start t2)%nat; [|lia].
      apply H2. rewrite Ha1. cbn. unfold max_retry_attempts. lia.
  - wp_step. intros _. destruct H1 as [H1|[(H1 & Hgate & Hkept)|[_ Hge]]].
    + exact H1.
    + unfold reports_verdict. destruct H1 as [-> _]. symmetry. apply verdict_all_done.
      unfold first_pass_results in Hkept. rewrite Forall_forall in Hkept |- *.
      intros result Hin. destruct (Hkept result Hin) as [Hs Hd]. apply Hd, Hgate, Hs.
    + cbn in Hge. unfold max_retry_attempts in Hge. lia.
Qed.

End FirstPass.



(** The ways past the verdict, run.  With item 1 selected:
    [open_after_first_verdict] makes the first pass end on a verdict of
    成功 that the final verification does not accept, and the nine
    passes that follow record a failure each; the batch ends at the limit
    of ten passes with 成功 left in place over nine recorded failures.
    With items 1 and 2 selected: [open_at_every_final_check] makes every
    pass end on a verdict of 成功 that the final verification does not
    accept; the tenth pass ends the batch with 失敗 over results that
    are all スキップ(完了). *)
Lemma final_status_set_past_the_verdict :
  match run_script (override calm open_after_first_verdict)
                   (_process_all_lotteries (Some [1])) with
  | (r, t) =>
      quiet t = true /\ passes t = 10%nat
      /\ exists o, r = inr o
                   /\ map status (results o) = repeat FAILURE 9
                   /\ outcome_final_status o = SUCCESS
                   /\ verdict_of_statuses (map status (results o)) = FAILURE
  end
  /\ match run_script (override calm open_at_every_final_check)
                      (_process_all_lotteries (Some [1; 2])) with
     | (r, t) =>
         quiet t = true /\ passes t = 10%nat
         /\ exists o, r = inr o
                      /\ recorded o = [(1, SKIPPED_COMPLETED)]
                      /\ outcome_final_status o = FAILURE
                      /\ message o = "失敗: 最終確認時に「受付中」の抽選が残っていました"
                      /\ verdict_of_statuses (map status (results o)) = SUCCESS
     end.
Proof. vm_compute. repeat split; eexists; repeat split; reflexivity. Qed.
